(** * PIM matrix-multiplication compiler: shallow embedding and properties

    The C++ sources embedded here are
      include/pim_compiler.h   (structs, MEMORY_ROW_SIZE)
      src/isa_generator.cpp    (to_hex_string, genNoOpInstr, genProgInstr,
                                genExeInstr, genEndInstr)
      src/three_address.cpp    (generateThreeAddressCode)
      src/parallelizer.cpp     (distributeWork)
      src/memory_layout.cpp    (optimizeMemoryLayout)
      src/core_sequence.cpp    (generateCoreInstructions)
      src/main.cpp             (hexToBinary, writeThreeAddressCodeToFile,
                                main)
      src/parser.cpp           (parseMatrixMultiply)
      test/test_compiler.cpp   (simulateInstructions).

    Conventions.  A C++ [int] is a [Z] between INT_MIN and INT_MAX;
    [+], [-] and [*] on [int] are [+i], [-i] and [*i], whose result is
    reduced to 32 bits in two's complement, which is what the compiled
    program computes when a result leaves the range of [int]; [/] and [%]
    on [int] are the truncating [Z.quot] and [Z.rem]; [&], [|], [<<] are
    [Z.land], [Z.lor], [Z.shiftl].  Loop counters are not reduced: a loop
    [for (int i = lo; i <= hi; i++)] is taken with hi < INT_MAX.  A
    [std::string] is a [string], a [std::vector<T>] is a [list T] and
    [push_back] appends at the end.  Text sent to [std::cout] /
    [std::cerr] is a list of lines. *)

From Stdlib Require Import ZArith List String Ascii Bool Lia DecimalString.
Import ListNotations.

Local Open Scope list_scope.
Local Open Scope string_scope.
Local Open Scope Z_scope.

(* ================================================================== *)
(** * C++ primitives *)

(** [v.push_back(x)] *)
Definition push_back {A : Type} (v : list A) (x : A) : list A := (v ++ [x])%list.

(** [std::to_string(int)]: decimal digits, a leading minus sign for
    negative values, "0" for zero. *)
Definition to_string (n : Z) : string := NilZero.string_of_int (Z.to_int n).

(** The counted loop [for (int i = lo; ...; i++) body], whose body changes
    neither [i] nor the bound: [n] iterations with i = lo, lo+1, ... *)
Fixpoint iterate {St : Type} (n : nat) (i : Z) (body : Z -> St -> St)
    (s : St) : St :=
  match n with
  | O => s
  | S n' => iterate n' (i + 1) body (body i s)
  end.

(** [for (int i = lo; i < hi; i++) body] *)
Definition for_lt {St : Type} (lo hi : Z) (body : Z -> St -> St) (s : St)
    : St :=
  iterate (Z.to_nat (hi - lo)) lo body s.

(** [for (int i = lo; i <= hi; i++) body] *)
Definition for_le {St : Type} (lo hi : Z) (body : Z -> St -> St) (s : St)
    : St :=
  iterate (Z.to_nat (hi + 1 - lo)) lo body s.

(** Conversion of an [int] to [uint32_t] (reduction modulo 2^32) and of a
    [uint32_t] to [int] (the value of the same 32 bits). *)
Definition to_uint32 (z : Z) : Z := z mod 2 ^ 32.

Definition to_int32 (z : Z) : Z := (z + 2 ^ 31) mod 2 ^ 32 - 2 ^ 31.

(** The range of [int], and its arithmetic: the exact result reduced to
    32 bits. *)
Definition INT_MAX : Z := 2147483647.
Definition INT_MIN : Z := -2147483648.

Definition int_add (a b : Z) : Z := to_int32 (a + b).
Definition int_sub (a b : Z) : Z := to_int32 (a - b).
Definition int_mul (a b : Z) : Z := to_int32 (a * b).

Infix "+i" := int_add (at level 50, left associativity).
Infix "-i" := int_sub (at level 50, left associativity).
Infix "*i" := int_mul (at level 40, left associativity).

(** [std::ceil(static_cast<double>(a) / b)] converted back to [int], for
    b <> 0.  For 32-bit operands the double quotient is either exact or
    strictly between two consecutive integers, so the result is the
    ceiling of the rational a/b, which is in the range of [int] (but for
    a = INT_MIN, b = -1).  For b = 0 the quotient is infinite and its
    conversion to [int] is undefined; the value here is then 0, and it
    only reaches a printed line, since the loop that follows runs no
    iteration. *)
Definition ceil_double_div (a b : Z) : Z := - ((- a) / b).

(* ================================================================== *)
(** * include/pim_compiler.h *)

Definition MEMORY_ROW_SIZE : Z := 512.

Record MatrixDimensions : Type := mkDims { M : Z; N : Z; K : Z }.

Record ThreeAddressCode : Type := mkTAC { instructions : list string }.

Record WorkAssignment : Type :=
  mkWork { coreId : Z; startRow : Z; endRow : Z }.

Record MemoryMap : Type := mkMap {
  baseAddrA : Z;
  baseAddrB : Z;
  baseAddrC : Z;
  rowSizeA : Z;
  rowSizeB : Z;
  rowSizeC : Z;
  rowsPerMatrixRowA : Z;
  rowsPerMatrixRowB : Z;
  rowsPerMatrixRowC : Z
}.

(* ================================================================== *)
(** * src/isa_generator.cpp *)

(** One digit of [std::hex] output (lowercase). *)
Definition hex_digit (d : Z) : ascii :=
  match d with
  | 0 => "0" | 1 => "1" | 2 => "2" | 3 => "3"
  | 4 => "4" | 5 => "5" | 6 => "6" | 7 => "7"
  | 8 => "8" | 9 => "9" | 10 => "a" | 11 => "b"
  | 12 => "c" | 13 => "d" | 14 => "e" | _ => "f"
  end%char.

(** Digits of a non-negative value, least significant produced first and
    put in front of [acc]; at least one digit. *)
Fixpoint hex_digits (fuel : nat) (n : Z) (acc : string) : string :=
  match fuel with
  | O => acc
  | S fuel' =>
      let acc' := String (hex_digit (n mod 16)) acc in
      if n / 16 =? 0 then acc' else hex_digits fuel' (n / 16) acc'
  end.

(** [ss << std::hex << v] for a value of at most 32 bits: no prefix, no
    leading zeros, eight digits at most. *)
Definition stream_hex (v : Z) : string := hex_digits 8 v "".

(** [std::setw(w) << std::setfill(c)]: fill on the left up to width [w];
    longer text is left as it is. *)
Fixpoint fill_left (n : nat) (c : ascii) (s : string) : string :=
  match n with
  | O => s
  | S n' => String c (fill_left n' c s)
  end.

Definition setw_setfill (w : nat) (c : ascii) (s : string) : string :=
  fill_left (w - String.length s) c s.

Definition to_hex_string (value : Z) : string :=
  setw_setfill 6 "0"%char (stream_hex (Z.land value 0xFFFFFF)).

(** The instruction word is a [uint32_t]: [instruction |= e] converts the
    [int] value of [e] to [uint32_t], and the call of [to_hex_string]
    converts the word back to [int]. *)
Definition genNoOpInstr : string :=
  let instruction := 0 in
  let instruction := Z.lor instruction (to_uint32 (Z.shiftl 0 17)) in
  to_hex_string (to_int32 instruction).

Definition genProgInstr (coreId : Z) (read write : bool) (addr : Z) : string :=
  let instruction := 0 in
  let coreId := Z.land coreId 0x3F in
  let addr := Z.land addr 0x1FF in
  let instruction := Z.lor instruction (to_uint32 (Z.shiftl 1 17)) in
  let instruction := Z.lor instruction (to_uint32 (Z.shiftl coreId 11)) in
  let instruction :=
    Z.lor instruction (to_uint32 (Z.shiftl (if read then 1 else 0) 10)) in
  let instruction :=
    Z.lor instruction (to_uint32 (Z.shiftl (if write then 1 else 0) 9)) in
  let instruction := Z.lor instruction (to_uint32 addr) in
  to_hex_string (to_int32 instruction).

Definition genExeInstr (coreId : Z) (read write : bool) (addr : Z) : string :=
  let instruction := 0 in
  let coreId := Z.land coreId 0x3F in
  let addr := Z.land addr 0x1FF in
  let instruction := Z.lor instruction (to_uint32 (Z.shiftl 2 17)) in
  let instruction := Z.lor instruction (to_uint32 (Z.shiftl coreId 11)) in
  let instruction :=
    Z.lor instruction (to_uint32 (Z.shiftl (if read then 1 else 0) 10)) in
  let instruction :=
    Z.lor instruction (to_uint32 (Z.shiftl (if write then 1 else 0) 9)) in
  let instruction := Z.lor instruction (to_uint32 addr) in
  to_hex_string (to_int32 instruction).

Definition genEndInstr (coreId : Z) (read write : bool) (addr : Z) : string :=
  let instruction := 0 in
  let coreId := Z.land coreId 0x3F in
  let addr := Z.land addr 0x1FF in
  let instruction := Z.lor instruction (to_uint32 (Z.shiftl 3 17)) in
  let instruction := Z.lor instruction (to_uint32 (Z.shiftl coreId 11)) in
  let instruction :=
    Z.lor instruction (to_uint32 (Z.shiftl (if read then 1 else 0) 10)) in
  let instruction :=
    Z.lor instruction (to_uint32 (Z.shiftl (if write then 1 else 0) 9)) in
  let instruction := Z.lor instruction (to_uint32 addr) in
  to_hex_string (to_int32 instruction).

(** The four opcode classes, and the encoder seen as one function of a
    logical instruction: each class has its generator, and the NoOp
    generator takes no operand. *)
Inductive Opcode : Type := NOOP | PROG | EXE | END.

Definition opcode_bits (op : Opcode) : Z :=
  match op with NOOP => 0 | PROG => 1 | EXE => 2 | END => 3 end.

Definition encodeInstr (op : Opcode) (coreId : Z) (read write : bool)
    (addr : Z) : string :=
  match op with
  | NOOP => genNoOpInstr
  | PROG => genProgInstr coreId read write addr
  | EXE => genExeInstr coreId read write addr
  | END => genEndInstr coreId read write addr
  end.

(* ================================================================== *)
(** * src/three_address.cpp *)

Definition generateThreeAddressCode (dims : MatrixDimensions) : ThreeAddressCode :=
  let instructions : list string := [] in
  let M := dims.(M) in
  let N := dims.(N) in
  let K := dims.(K) in
  let instructions := push_back instructions "i = 0" in
  let instructions := push_back instructions
    ("L1: if i >= " ++ to_string M ++ " goto END_L1") in
  let instructions := push_back instructions "    j = 0" in
  let instructions := push_back instructions
    ("    L2: if j >= " ++ to_string N ++ " goto END_L2") in
  let instructions := push_back instructions "        sum = 0" in
  let instructions := push_back instructions "        k = 0" in
  let instructions := push_back instructions
    ("        L3: if k >= " ++ to_string K ++ " goto END_L3") in
  let instructions := push_back instructions
    ("            t1 = i * " ++ to_string K) in
  let instructions := push_back instructions "            t2 = t1 + k" in
  let instructions := push_back instructions
    ("            t3 = k * " ++ to_string N) in
  let instructions := push_back instructions "            t4 = t3 + j" in
  let instructions := push_back instructions "            t5 = A[t2]" in
  let instructions := push_back instructions "            t6 = B[t4]" in
  let instructions := push_back instructions "            t7 = t5 * t6" in
  let instructions := push_back instructions "            sum = sum + t7" in
  let instructions := push_back instructions "            k = k + 1" in
  let instructions := push_back instructions "            goto L3" in
  let instructions := push_back instructions "        END_L3:" in
  let instructions := push_back instructions
    ("        t8 = i * " ++ to_string N) in
  let instructions := push_back instructions "        t9 = t8 + j" in
  let instructions := push_back instructions "        C[t9] = sum" in
  let instructions := push_back instructions "        j = j + 1" in
  let instructions := push_back instructions "        goto L2" in
  let instructions := push_back instructions "    END_L2:" in
  let instructions := push_back instructions "    i = i + 1" in
  let instructions := push_back instructions "    goto L1" in
  let instructions := push_back instructions "END_L1:" in
  mkTAC instructions.

(* ================================================================== *)
(** * Output on std::cout *)

(** A computation that prints lines on [std::cout] and returns a value. *)
Record Cout (A : Type) : Type := mkCout { printed : list string; returned : A }.
Arguments mkCout {A} _ _.
Arguments printed {A} _.
Arguments returned {A} _.

(* ================================================================== *)
(** * src/parallelizer.cpp *)

Definition distributeWork (dims : MatrixDimensions) (numCores : Z)
    : Cout (list WorkAssignment) :=
  let assignments : list WorkAssignment := [] in
  let cout : list string := [] in
  let '(cout, numCores) :=
    if numCores >? dims.(M) then
      (push_back cout
         ("Warning: More cores (" ++ to_string numCores
          ++ ") than matrix rows (" ++ to_string dims.(M)
          ++ "). Using only " ++ to_string dims.(M) ++ " cores."),
       dims.(M))
    else (cout, numCores) in
  let rowsPerCore := ceil_double_div dims.(M) numCores in
  let cout := push_back cout
    ("Distributing work: " ++ to_string dims.(M) ++ " rows across "
     ++ to_string numCores ++ " cores (approx. " ++ to_string rowsPerCore
     ++ " rows per core)") in
  let '(cout, assignments) :=
    for_lt 0 numCores
      (fun core '(cout, assignments) =>
         let work :=
           {| coreId := core;
              startRow := core *i rowsPerCore;
              endRow := Z.min ((core +i 1) *i rowsPerCore -i 1) (dims.(M) -i 1) |} in
         if work.(startRow) <=? work.(endRow) then
           (push_back cout
              ("  Core " ++ to_string core ++ ": Rows "
               ++ to_string work.(startRow) ++ " to " ++ to_string work.(endRow)
               ++ " (" ++ to_string (work.(endRow) -i work.(startRow) +i 1)
               ++ " rows)"),
            push_back assignments work)
         else (cout, assignments))
      (cout, assignments) in
  mkCout cout assignments.

(* ================================================================== *)
(** * src/memory_layout.cpp *)

Definition optimizeMemoryLayout (dims : MatrixDimensions) : Cout MemoryMap :=
  let sizeA := dims.(M) *i dims.(K) in
  let sizeB := dims.(K) *i dims.(N) in
  let sizeC := dims.(M) *i dims.(N) in
  let rowsA := (sizeA +i MEMORY_ROW_SIZE -i 1) ÷ MEMORY_ROW_SIZE in
  let rowsB := (sizeB +i MEMORY_ROW_SIZE -i 1) ÷ MEMORY_ROW_SIZE in
  let rowsC := (sizeC +i MEMORY_ROW_SIZE -i 1) ÷ MEMORY_ROW_SIZE in
  let map :=
    {| rowsPerMatrixRowA := (dims.(K) +i MEMORY_ROW_SIZE -i 1) ÷ MEMORY_ROW_SIZE;
       rowsPerMatrixRowB := (dims.(N) +i MEMORY_ROW_SIZE -i 1) ÷ MEMORY_ROW_SIZE;
       rowsPerMatrixRowC := (dims.(N) +i MEMORY_ROW_SIZE -i 1) ÷ MEMORY_ROW_SIZE;
       baseAddrA := 0;
       baseAddrB := rowsA;
       baseAddrC := rowsA +i rowsB;
       rowSizeA := dims.(K);
       rowSizeB := dims.(N);
       rowSizeC := dims.(N) |} in
  let cout : list string := [] in
  let cout := push_back cout "Memory layout:" in
  let cout := push_back cout
    ("  Matrix A: Base address = " ++ to_string map.(baseAddrA) ++ ", size = "
     ++ to_string sizeA ++ " elements (" ++ to_string rowsA ++ " rows)") in
  let cout := push_back cout
    ("  Matrix B: Base address = " ++ to_string map.(baseAddrB) ++ ", size = "
     ++ to_string sizeB ++ " elements (" ++ to_string rowsB ++ " rows)") in
  let cout := push_back cout
    ("  Matrix C: Base address = " ++ to_string map.(baseAddrC) ++ ", size = "
     ++ to_string sizeC ++ " elements (" ++ to_string rowsC ++ " rows)") in
  let cout := push_back cout
    ("  Matrix row layout: A=" ++ to_string map.(rowsPerMatrixRowA)
     ++ ", B=" ++ to_string map.(rowsPerMatrixRowB)
     ++ ", C=" ++ to_string map.(rowsPerMatrixRowC)
     ++ " memory rows per matrix row") in
  mkCout cout map.

(* ================================================================== *)
(** * src/core_sequence.cpp *)

Definition generateCoreInstructions (coreId startRow endRow : Z)
    (dims : MatrixDimensions) (memMap : MemoryMap) : list string :=
  let instructions : list string := [] in
  let M := dims.(M) in
  let N := dims.(N) in
  let K := dims.(K) in
  let instructions := push_back instructions
    ("# Instructions for Core " ++ to_string coreId ++ " (Rows "
     ++ to_string startRow ++ " to " ++ to_string endRow ++ ")") in
  let instructions := push_back instructions (genProgInstr coreId true false 1) in
  let instructions :=
    for_le startRow endRow
      (fun i instructions =>
         let instructions := push_back instructions
           ("# Processing row " ++ to_string i) in
         let instructions :=
           if memMap.(rowsPerMatrixRowA) >? 1 then
             let aRowBase := memMap.(baseAddrA) +i (i *i memMap.(rowsPerMatrixRowA)) in
             for_lt 0 memMap.(rowsPerMatrixRowA)
               (fun segment instructions =>
                  let aSegmentAddr := aRowBase +i segment in
                  let startPos := segment *i MEMORY_ROW_SIZE in
                  let endPos := Z.min (startPos +i MEMORY_ROW_SIZE) memMap.(rowSizeA) in
                  let elementsInSegment := endPos -i startPos in
                  let instructions := push_back instructions
                    (genExeInstr coreId true false aSegmentAddr) in
                  push_back instructions (genExeInstr coreId false false 0))
               instructions
           else
             let aRowAddr :=
               memMap.(baseAddrA) +i (i *i memMap.(rowSizeA) ÷ MEMORY_ROW_SIZE) in
             let aRowOffset := Z.rem (i *i memMap.(rowSizeA)) MEMORY_ROW_SIZE in
             let instructions := push_back instructions
               (genExeInstr coreId true false aRowAddr) in
             push_back instructions (genExeInstr coreId false false aRowOffset) in
         for_lt 0 N
           (fun j instructions =>
              let instructions := push_back instructions
                ("# Computing element C[" ++ to_string i ++ "]["
                 ++ to_string j ++ "]") in
              let instructions := push_back instructions
                (genExeInstr coreId false false 0) in
              let instructions :=
                for_lt 0 K
                  (fun k instructions =>
                     let bIndex := k *i memMap.(rowSizeB) +i j in
                     let bAddr := memMap.(baseAddrB) +i (bIndex ÷ MEMORY_ROW_SIZE) in
                     let bOffset := Z.rem bIndex MEMORY_ROW_SIZE in
                     let instructions := push_back instructions
                       (genExeInstr coreId true false bAddr) in
                     let instructions := push_back instructions
                       (genExeInstr coreId false false bOffset) in
                     push_back instructions (genExeInstr coreId false false 2))
                  instructions in
              let cIndex := i *i memMap.(rowSizeC) +i j in
              let cAddr := memMap.(baseAddrC) +i (cIndex ÷ MEMORY_ROW_SIZE) in
              let cOffset := Z.rem cIndex MEMORY_ROW_SIZE in
              let instructions := push_back instructions
                (genExeInstr coreId false true cAddr) in
              push_back instructions (genExeInstr coreId false false cOffset))
           instructions)
      instructions in
  push_back instructions (genEndInstr coreId false false 0).

(* ================================================================== *)
(** * src/main.cpp *)

(** [toupper] on the ASCII letters. *)
Definition toupper (c : ascii) : ascii :=
  let n := nat_of_ascii c in
  if (Nat.leb 97 n && Nat.leb n 122)%bool then ascii_of_nat (n - 32) else c.

Definition hexToBinary_digit (c : ascii) : string :=
  match toupper c with
  | "0"%char => "0000" | "1"%char => "0001" | "2"%char => "0010" | "3"%char => "0011"
  | "4"%char => "0100" | "5"%char => "0101" | "6"%char => "0110" | "7"%char => "0111"
  | "8"%char => "1000" | "9"%char => "1001" | "A"%char => "1010" | "B"%char => "1011"
  | "C"%char => "1100" | "D"%char => "1101" | "E"%char => "1110" | "F"%char => "1111"
  | _ => "????"
  end.

(** The loop [for (char c : hex) binary += ...]. *)
Fixpoint hexToBinary_loop (hex : string) (binary : string) : string :=
  match hex with
  | EmptyString => binary
  | String c rest => hexToBinary_loop rest (binary ++ hexToBinary_digit c)
  end.

Definition hexToBinary (hex : string) : string := hexToBinary_loop hex "".

(** The lines [writeThreeAddressCodeToFile] writes when the file opens.
    When it does not open, the function writes one line on [std::cerr]
    and returns; that branch is in [main] below, where [std::cerr] is. *)
Definition writeThreeAddressCodeToFile (tac : ThreeAddressCode) : list string :=
  let tacFile : list string := [] in
  let tacFile := push_back tacFile "# Three-Address Code for Matrix Multiplication" in
  let tacFile := push_back tacFile "# =====================================" in
  let tacFile := push_back tacFile "" in
  fold_left (fun tacFile instr => push_back tacFile instr) tac.(instructions) tacFile.

(** [!instr.empty() && instr[0] != '#'] *)
Definition is_instruction (instr : string) : bool :=
  match instr with
  | EmptyString => false
  | String c _ => negb (Ascii.eqb c "#")
  end.

(** [v.empty()] and [v.back()] on a vector of strings. *)
Definition vec_empty {A : Type} (v : list A) : bool :=
  match v with [] => true | _ => false end.

Definition str_empty (s : string) : bool :=
  match s with EmptyString => true | _ => false end.

(** What a run of [main] leaves behind: its exit code, the lines on
    [std::cerr], and the two files when they are written.  The progress
    messages on [std::cout] and the timing are left out. *)
Record MainResult : Type := mkResult {
  exitCode : Z;
  cerr : list string;
  tacFile : option (list string);
  outFile : option (list string)
}.

(** [main] from the point where the arguments are parsed: [outputFile] is
    the value of -o, [parsed] is what the selected parser returned for
    the input file, [overrideM], [overrideN], [overrideK] are the values
    of -M, -N, -K (-1 when the option is absent) and [numCores] the value
    of -c.  [tacOpens] and [outOpens] tell whether the file system lets
    the three-address-code file and the program file be opened for
    writing. *)
Definition main (outputFile : string) (tacOpens outOpens : bool)
    (parsed : MatrixDimensions)
    (numCores overrideM overrideN overrideK : Z) : MainResult :=
  let cerr : list string := [] in
  let dims := parsed in
  if ((dims.(M) <=? 0) || (dims.(N) <=? 0) || (dims.(K) <=? 0))%bool then
    {| exitCode := 1;
       cerr := push_back cerr
                 ("Error: Invalid matrix dimensions: " ++ to_string dims.(M)
                  ++ "x" ++ to_string dims.(K) ++ " * " ++ to_string dims.(K)
                  ++ "x" ++ to_string dims.(N));
       tacFile := None;
       outFile := None |}
  else
    let dims := if overrideM >? 0 then mkDims overrideM dims.(N) dims.(K) else dims in
    let dims := if overrideN >? 0 then mkDims dims.(M) overrideN dims.(K) else dims in
    let dims := if overrideK >? 0 then mkDims dims.(M) dims.(N) overrideK else dims in
    let threeAddressCode := generateThreeAddressCode dims in
    let tacFilename := outputFile ++ ".tac" in
    let '(cerr, tacWritten) :=
      if tacOpens then (cerr, Some (writeThreeAddressCodeToFile threeAddressCode))
      else
        (push_back cerr
           ("Error: Could not open file " ++ tacFilename
            ++ " for writing three-address code."),
         None) in
    let workAssignments := returned (distributeWork dims numCores) in
    let memoryMap := returned (optimizeMemoryLayout dims) in
    let allInstructions : list string := [] in
    let allInstructions := push_back allInstructions
      "# PIM Instructions for Matrix Multiplication" in
    let allInstructions := push_back allInstructions
      ("# Matrix dimensions: " ++ to_string dims.(M) ++ "x" ++ to_string dims.(K)
       ++ " * " ++ to_string dims.(K) ++ "x" ++ to_string dims.(N)) in
    let allInstructions := push_back allInstructions
      ("# Using " ++ to_string (Z.of_nat (List.length workAssignments)) ++ " cores") in
    let allInstructions := push_back allInstructions "" in
    let allInstructions :=
      fold_left
        (fun allInstructions work =>
           let coreInstructions :=
             generateCoreInstructions work.(coreId) work.(startRow)
               work.(endRow) dims memoryMap in
           let allInstructions :=
             if (negb (vec_empty allInstructions)
                 && negb (str_empty (last allInstructions "")))%bool
             then push_back allInstructions ""
             else allInstructions in
           (allInstructions ++ coreInstructions)%list)
        workAssignments allInstructions in
    if negb outOpens then
      {| exitCode := 1;
         cerr := push_back cerr ("Error: Could not open output file " ++ outputFile);
         tacFile := tacWritten;
         outFile := None |}
    else
      let outLines :=
        map (fun instr =>
               if is_instruction instr
               then instr ++ " # Binary: " ++ hexToBinary instr
               else instr)
            allInstructions in
      {| exitCode := 0;
         cerr := cerr;
         tacFile := tacWritten;
         outFile := Some outLines |}.

(* ================================================================== *)
(** * Reference definitions: instruction words and decoding *)

(** The word of the encoding table:
    (opcode<<17) | ((coreId & 0x3F)<<11) | (read<<10) | (write<<9)
    | (address & 0x1FF). *)
Definition instr_word (op : Opcode) (coreId : Z) (read write : bool)
    (addr : Z) : Z :=
  Z.lor (Z.lor (Z.lor (Z.lor
    (Z.shiftl (opcode_bits op) 17)
    (Z.shiftl (Z.land coreId 0x3F) 11))
    (Z.shiftl (if read then 1 else 0) 10))
    (Z.shiftl (if write then 1 else 0) 9))
    (Z.land addr 0x1FF).

(** The same word as a sum of its fields. *)
Definition word_sum (op : Opcode) (c : Z) (r w : bool) (a : Z) : Z :=
  opcode_bits op * 131072 + (c mod 64) * 2048
  + Z.b2z r * 1024 + Z.b2z w * 512 + a mod 512.

(** A logical instruction. *)
Record Instruction : Type := mkInstr {
  opcode : Opcode;
  core : Z;
  read : bool;
  write : bool;
  address : Z
}.

(** Modelled from the spec: the decoder (hex text to fields) is not part
    of the sources; it reads the fields at the bit positions of the
    encoding table (opcode 18-17, coreId 16-11, read 10, write 9, address
    8-0) from a 6-digit hexadecimal text, upper or lower case. *)
Definition hex_value (c : ascii) : option Z :=
  let n := Z.of_nat (nat_of_ascii c) in
  if ((48 <=? n) && (n <=? 57))%bool then Some (n - 48)          (* 0-9 *)
  else if ((97 <=? n) && (n <=? 102))%bool then Some (n - 87)    (* a-f *)
  else if ((65 <=? n) && (n <=? 70))%bool then Some (n - 55)     (* A-F *)
  else None.

Fixpoint parse_hex (s : string) (acc : Z) : option Z :=
  match s with
  | EmptyString => Some acc
  | String c rest =>
      match hex_value c with
      | Some d => parse_hex rest (16 * acc + d)
      | None => None
      end
  end.

Definition opcode_of_bits (b : Z) : Opcode :=
  match b with 0 => NOOP | 1 => PROG | 2 => EXE | _ => END end.

Definition decode_word (w : Z) : Instruction :=
  {| opcode := opcode_of_bits (Z.land (Z.shiftr w 17) 3);
     core := Z.land (Z.shiftr w 11) 0x3F;
     read := Z.testbit w 10;
     write := Z.testbit w 9;
     address := Z.land w 0x1FF |}.

Definition decodeInstr (s : string) : option Instruction :=
  if Nat.eqb (String.length s) 6 then option_map decode_word (parse_hex s 0)
  else None.

(* ================================================================== *)
(** * Reference definitions: three-address code *)

(** The reference triple loop as structured three-address code.  An
    operand is a name or an integer literal. *)
Inductive Operand : Type :=
| Var (x : string)
| Lit (n : Z).

Inductive Tac : Type :=
| TCopy (dst : string) (src : Operand)                 (* dst = src *)
| TBin (dst a op : string) (b : Operand)               (* dst = a op b *)
| TLoad (dst arr idx : string)                         (* dst = arr[idx] *)
| TStore (arr idx src : string)                        (* arr[idx] = src *)
| TIfGe (label v : string) (bound : Z) (target : string)
                                      (* label: if v >= bound goto target *)
| TGoto (target : string)                              (* goto target *)
| TLabel (label : string).                             (* label: *)

(** The listing of the IR generator, one instruction per entry with its
    nesting depth, the dimensions as literals. *)
Definition reference_program (dims : MatrixDimensions) : list (nat * Tac) :=
  [ (0, TCopy "i" (Lit 0));
    (0, TIfGe "L1" "i" dims.(M) "END_L1");
    (1, TCopy "j" (Lit 0));
    (1, TIfGe "L2" "j" dims.(N) "END_L2");
    (2, TCopy "sum" (Lit 0));
    (2, TCopy "k" (Lit 0));
    (2, TIfGe "L3" "k" dims.(K) "END_L3");
    (3, TBin "t1" "i" "*" (Lit dims.(K)));
    (3, TBin "t2" "t1" "+" (Var "k"));
    (3, TBin "t3" "k" "*" (Lit dims.(N)));
    (3, TBin "t4" "t3" "+" (Var "j"));
    (3, TLoad "t5" "A" "t2");
    (3, TLoad "t6" "B" "t4");
    (3, TBin "t7" "t5" "*" (Var "t6"));
    (3, TBin "sum" "sum" "+" (Var "t7"));
    (3, TBin "k" "k" "+" (Lit 1));
    (3, TGoto "L3");
    (2, TLabel "END_L3");
    (2, TBin "t8" "i" "*" (Lit dims.(N)));
    (2, TBin "t9" "t8" "+" (Var "j"));
    (2, TStore "C" "t9" "sum");
    (2, TBin "j" "j" "+" (Lit 1));
    (2, TGoto "L2");
    (1, TLabel "END_L2");
    (1, TBin "i" "i" "+" (Lit 1));
    (1, TGoto "L1");
    (0, TLabel "END_L1") ]%nat.

Definition render_operand (o : Operand) : string :=
  match o with
  | Var x => x
  | Lit n => to_string n
  end.

Definition render_tac (t : Tac) : string :=
  match t with
  | TCopy dst src => dst ++ " = " ++ render_operand src
  | TBin dst a op b => dst ++ " = " ++ a ++ " " ++ op ++ " " ++ render_operand b
  | TLoad dst arr idx => dst ++ " = " ++ arr ++ "[" ++ idx ++ "]"
  | TStore arr idx src => arr ++ "[" ++ idx ++ "] = " ++ src
  | TIfGe label v bound target =>
      label ++ ": if " ++ v ++ " >= " ++ to_string bound ++ " goto " ++ target
  | TGoto target => "goto " ++ target
  | TLabel label => label ++ ":"
  end.

(** Four spaces per nesting level. *)
Fixpoint indent (depth : nat) (s : string) : string :=
  match depth with
  | O => s
  | S d => "    " ++ indent d s
  end.

Definition render_line (l : nat * Tac) : string := indent (fst l) (render_tac (snd l)).

(** Labels a line defines and labels a line jumps to. *)
Definition defined_label (t : Tac) : list string :=
  match t with
  | TIfGe label _ _ _ => [label]
  | TLabel label => [label]
  | _ => []
  end.

Definition target_label (t : Tac) : list string :=
  match t with
  | TIfGe _ _ _ target => [target]
  | TGoto target => [target]
  | _ => []
  end.

Definition label_set (prog : list (nat * Tac)) : list string :=
  nodup string_dec
    (flat_map (fun l => defined_label (snd l) ++ target_label (snd l))%list prog).

(** Names read or written by a line (labels apart). *)
Definition operand_names (o : Operand) : list string :=
  match o with Var x => [x] | Lit _ => [] end.

Definition tac_names (t : Tac) : list string :=
  match t with
  | TCopy dst src => dst :: operand_names src
  | TBin dst a _ b => dst :: a :: operand_names b
  | TLoad dst arr idx => [dst; arr; idx]
  | TStore arr idx src => [arr; idx; src]
  | TIfGe _ v _ _ => [v]
  | TGoto _ => []
  | TLabel _ => []
  end.

Fixpoint all_digits (s : string) : bool :=
  match s with
  | EmptyString => true
  | String c rest =>
      (Nat.leb 48 (nat_of_ascii c) && Nat.leb (nat_of_ascii c) 57 && all_digits rest)%bool
  end.

(** A temporary is named t followed by digits. *)
Definition is_temporary (s : string) : bool :=
  match s with
  | String "t" (String c rest) => all_digits (String c rest)
  | _ => false
  end.

Definition temporaries (prog : list (nat * Tac)) : list string :=
  filter is_temporary
    (nodup string_dec (flat_map (fun l => tac_names (snd l)) prog)).

(** The literal bounds of the conditional jumps, in program order. *)
Definition loop_bounds (prog : list (nat * Tac)) : list Z :=
  flat_map (fun l => match snd l with
                     | TIfGe _ _ bound _ => [bound]
                     | _ => []
                     end) prog.

(** The label a text line starts with, if any: leading spaces are skipped
    and the label is the run of letters, digits and underscores that a
    colon follows. *)
Definition is_ident_char (c : ascii) : bool :=
  let n := nat_of_ascii c in
  ((Nat.leb 48 n && Nat.leb n 57) || (Nat.leb 65 n && Nat.leb n 90)
   || (Nat.leb 97 n && Nat.leb n 122) || Nat.eqb n 95)%bool.

Fixpoint skip_spaces (s : string) : string :=
  match s with
  | String " " rest => skip_spaces rest
  | _ => s
  end.

Fixpoint ident_then_colon (s : string) : option string :=
  match s with
  | EmptyString => None
  | String c rest =>
      if Ascii.eqb c ":" then Some ""
      else if is_ident_char c then
        option_map (String c) (ident_then_colon rest)
      else None
  end.

Definition line_label (line : string) : option string :=
  match ident_then_colon (skip_spaces line) with
  | Some "" => None
  | r => r
  end.

(** A line template: fixed text, or fixed text around the decimal
    literal of one dimension. *)
Inductive DimSel : Type := dimM | dimN | dimK.

Definition select_dim (dims : MatrixDimensions) (d : DimSel) : Z :=
  match d with dimM => dims.(M) | dimN => dims.(N) | dimK => dims.(K) end.

Inductive LineTemplate : Type :=
| Fixed (text : string)
| WithDim (before : string) (d : DimSel) (after : string).

Definition fill (dims : MatrixDimensions) (t : LineTemplate) : string :=
  match t with
  | Fixed text => text
  | WithDim before d after => before ++ to_string (select_dim dims d) ++ after
  end.

Definition tac_templates : list LineTemplate :=
  [ Fixed "i = 0";
    WithDim "L1: if i >= " dimM " goto END_L1";
    Fixed "    j = 0";
    WithDim "    L2: if j >= " dimN " goto END_L2";
    Fixed "        sum = 0";
    Fixed "        k = 0";
    WithDim "        L3: if k >= " dimK " goto END_L3";
    WithDim "            t1 = i * " dimK "";
    Fixed "            t2 = t1 + k";
    WithDim "            t3 = k * " dimN "";
    Fixed "            t4 = t3 + j";
    Fixed "            t5 = A[t2]";
    Fixed "            t6 = B[t4]";
    Fixed "            t7 = t5 * t6";
    Fixed "            sum = sum + t7";
    Fixed "            k = k + 1";
    Fixed "            goto L3";
    Fixed "        END_L3:";
    WithDim "        t8 = i * " dimN "";
    Fixed "        t9 = t8 + j";
    Fixed "        C[t9] = sum";
    Fixed "        j = j + 1";
    Fixed "        goto L2";
    Fixed "    END_L2:";
    Fixed "    i = i + 1";
    Fixed "    goto L1";
    Fixed "END_L1:" ].

(* ================================================================== *)
(** * Reference definitions: integer ranges, work assignments, layout *)

(** The integers lo, lo+1, ..., lo+n-1. *)
Fixpoint Zseq (lo : Z) (n : nat) : list Z :=
  match n with
  | O => []
  | S n' => lo :: Zseq (lo + 1) n'
  end.

(** The rows startRow..endRow of an assignment. *)
Definition rows_of (w : WorkAssignment) : list Z :=
  Zseq w.(startRow) (Z.to_nat (w.(endRow) + 1 - w.(startRow))).

(** The assignment the loop body of the partitioner computes for one
    core, in the arithmetic of [int]. *)
Definition work_of_core (m rowsPerCore core : Z) : WorkAssignment :=
  {| coreId := core;
     startRow := core *i rowsPerCore;
     endRow := Z.min ((core +i 1) *i rowsPerCore -i 1) (m -i 1) |}.

(** The same assignment in exact arithmetic: what the loop body computes
    as long as no result leaves the range of [int]. *)
Definition work_for (m rowsPerCore core : Z) : WorkAssignment :=
  {| coreId := core;
     startRow := core * rowsPerCore;
     endRow := Z.min ((core + 1) * rowsPerCore - 1) (m - 1) |}.

(** The line printed for a core that gets rows. *)
Definition core_line (w : WorkAssignment) : string :=
  "  Core " ++ to_string w.(coreId) ++ ": Rows "
  ++ to_string w.(startRow) ++ " to " ++ to_string w.(endRow)
  ++ " (" ++ to_string (w.(endRow) -i w.(startRow) +i 1) ++ " rows)".

Definition has_rows (w : WorkAssignment) : bool := w.(startRow) <=? w.(endRow).

(** The two lines printed before the loop. *)
Definition warning_line (numCores m : Z) : string :=
  "Warning: More cores (" ++ to_string numCores ++ ") than matrix rows ("
  ++ to_string m ++ "). Using only " ++ to_string m ++ " cores.".

Definition distributing_line (m numCores rowsPerCore : Z) : string :=
  "Distributing work: " ++ to_string m ++ " rows across "
  ++ to_string numCores ++ " cores (approx. " ++ to_string rowsPerCore
  ++ " rows per core)".

(** The ceiling of a/b for b > 0: the least q with a <= q*b. *)
Definition ceil_div (a b : Z) : Z := - ((- a) / b).

(** The memory rows base, base+1, ..., base+count-1 a matrix occupies. *)
Definition occupied_rows (base count : Z) : list Z := Zseq base (Z.to_nat count).

(* ================================================================== *)
(** * Reference definitions: the instruction sequence of one core

    The blocks the loops of the sequencer append, with the index
    arithmetic of the code ([int]). *)

Definition core_header (coreId startRow endRow : Z) : string :=
  "# Instructions for Core " ++ to_string coreId ++ " (Rows "
  ++ to_string startRow ++ " to " ++ to_string endRow ++ ")".

(** One step of the dot product: load B[k][j] (row address, then offset)
    and multiply-accumulate (operation 2). *)
Definition dot_product_step (coreId : Z) (memMap : MemoryMap) (j k : Z)
    : list string :=
  let bIndex := k *i memMap.(rowSizeB) +i j in
  [ genExeInstr coreId true false (memMap.(baseAddrB) +i bIndex ÷ 512);
    genExeInstr coreId false false (Z.rem bIndex 512);
    genExeInstr coreId false false 2 ].

(** Storing C[i][j]: row address with the write flag, then offset. *)
Definition store_pair (coreId : Z) (memMap : MemoryMap) (i j : Z) : list string :=
  let cIndex := i *i memMap.(rowSizeC) +i j in
  [ genExeInstr coreId false true (memMap.(baseAddrC) +i cIndex ÷ 512);
    genExeInstr coreId false false (Z.rem cIndex 512) ].

Definition element_comment (i j : Z) : string :=
  "# Computing element C[" ++ to_string i ++ "][" ++ to_string j ++ "]".

Definition row_comment (i : Z) : string := "# Processing row " ++ to_string i.

(** One output element: comment, accumulator clear, K steps, store. *)
Definition column_block (coreId : Z) (dims : MatrixDimensions)
    (memMap : MemoryMap) (i j : Z) : list string :=
  ([ element_comment i j; genExeInstr coreId false false 0 ]
   ++ flat_map (dot_product_step coreId memMap j) (Zseq 0 (Z.to_nat dims.(K)))
   ++ store_pair coreId memMap i j)%list.

(** Loading row i of A when a row of A fits in one memory row. *)
Definition row_load_simple (coreId : Z) (memMap : MemoryMap) (i : Z) : list string :=
  [ genExeInstr coreId true false
      (memMap.(baseAddrA) +i (i *i memMap.(rowSizeA)) ÷ 512);
    genExeInstr coreId false false (Z.rem (i *i memMap.(rowSizeA)) 512) ].

(** Loading row i of A segment by segment: per segment one load and one
    offset instruction with address 0. *)
Definition segment_load (coreId : Z) (memMap : MemoryMap) (i segment : Z)
    : list string :=
  [ genExeInstr coreId true false
      (memMap.(baseAddrA) +i i *i memMap.(rowsPerMatrixRowA) +i segment);
    genExeInstr coreId false false 0 ].

Definition row_load_segments (coreId : Z) (memMap : MemoryMap) (i : Z)
    : list string :=
  flat_map (segment_load coreId memMap i)
    (Zseq 0 (Z.to_nat memMap.(rowsPerMatrixRowA))).

Definition row_block (load : Z -> list string) (coreId : Z)
    (dims : MatrixDimensions) (memMap : MemoryMap) (i : Z) : list string :=
  ([ row_comment i ]
   ++ load i
   ++ flat_map (column_block coreId dims memMap i) (Zseq 0 (Z.to_nat dims.(N))))%list.

Definition core_program (load : Z -> list string) (coreId startRow endRow : Z)
    (dims : MatrixDimensions) (memMap : MemoryMap) : list string :=
  ([ core_header coreId startRow endRow; genProgInstr coreId true false 1 ]
   ++ flat_map (row_block load coreId dims memMap)
        (Zseq startRow (Z.to_nat (endRow + 1 - startRow)))
   ++ [ genEndInstr coreId false false 0 ])%list.

(** The sequence the specification gives for an assignment when a row of
    A fits in one memory row: per row the A load pair, per column the
    clear, the K load-and-accumulate steps and the store pair, with the
    products, sums, quotients and remainders of the integers. *)
Definition single_row_listing (coreId startRow endRow : Z)
    (dims : MatrixDimensions) (memMap : MemoryMap) : list string :=
  ([ core_header coreId startRow endRow; genProgInstr coreId true false 1 ]
   ++ flat_map
        (fun i =>
           [ row_comment i;
             genExeInstr coreId true false
               (memMap.(baseAddrA) + (i * memMap.(rowSizeA)) ÷ 512);
             genExeInstr coreId false false (Z.rem (i * memMap.(rowSizeA)) 512) ]
           ++ flat_map
                (fun j =>
                   [ element_comment i j; genExeInstr coreId false false 0 ]
                   ++ flat_map
                        (fun k =>
                           [ genExeInstr coreId true false
                               (memMap.(baseAddrB)
                                + (k * memMap.(rowSizeB) + j) ÷ 512);
                             genExeInstr coreId false false
                               (Z.rem (k * memMap.(rowSizeB) + j) 512);
                             genExeInstr coreId false false 2 ])
                        (Zseq 0 (Z.to_nat dims.(K)))
                   ++ [ genExeInstr coreId false true
                          (memMap.(baseAddrC)
                           + (i * memMap.(rowSizeC) + j) ÷ 512);
                        genExeInstr coreId false false
                          (Z.rem (i * memMap.(rowSizeC) + j) 512) ])
                (Zseq 0 (Z.to_nat dims.(N))))
        (Zseq startRow (Z.to_nat (endRow + 1 - startRow)))
   ++ [ genEndInstr coreId false false 0 ])%list.

(** The read flag of an instruction text. *)
Definition is_load (s : string) : bool :=
  match decodeInstr s with
  | Some i => i.(read)
  | None => false
  end.

(** The opcode of an instruction text. *)
Definition opcode_of (s : string) : option Opcode :=
  option_map opcode (decodeInstr s).

(* ================================================================== *)
(** * Reference definitions: the pipeline driver *)

(** The three override statements of [main]: a value > 0 replaces the
    parsed dimension, any other value leaves it. *)
Definition apply_overrides (parsed : MatrixDimensions)
    (overrideM overrideN overrideK : Z) : MatrixDimensions :=
  {| M := if overrideM >? 0 then overrideM else parsed.(M);
     N := if overrideN >? 0 then overrideN else parsed.(N);
     K := if overrideK >? 0 then overrideK else parsed.(K) |}.

Definition invalid_dimensions_line (dims : MatrixDimensions) : string :=
  "Error: Invalid matrix dimensions: " ++ to_string dims.(M)
  ++ "x" ++ to_string dims.(K) ++ " * " ++ to_string dims.(K)
  ++ "x" ++ to_string dims.(N).

Definition dimensions_comment (dims : MatrixDimensions) : string :=
  "# Matrix dimensions: " ++ to_string dims.(M) ++ "x" ++ to_string dims.(K)
  ++ " * " ++ to_string dims.(K) ++ "x" ++ to_string dims.(N).

(** The lines on [std::cerr] for a file that cannot be opened. *)
Definition tac_open_error (outputFile : string) : string :=
  "Error: Could not open file " ++ (outputFile ++ ".tac")
  ++ " for writing three-address code.".

Definition out_open_error (outputFile : string) : string :=
  "Error: Could not open output file " ++ outputFile.

(** Vectors of lines put one after the other with one empty line between
    two of them. *)
Fixpoint join_blank (blocks : list (list string)) : list string :=
  match blocks with
  | [] => []
  | [b] => b
  | b :: rest => (b ++ "" :: join_blank rest)%list
  end.

(** The line [main] writes for an entry of the program. *)
Definition output_line (instr : string) : string :=
  if is_instruction instr then instr ++ " # Binary: " ++ hexToBinary instr
  else instr.

Definition cores_comment (cores : nat) : string :=
  "# Using " ++ to_string (Z.of_nat cores) ++ " cores".

(** The listing [main] builds before it writes the program file: four
    header lines, then the sequences of the cores with one empty line
    between two of them. *)
Definition program_listing (dims : MatrixDimensions) (numCores : Z) : list string :=
  let works := returned (distributeWork dims numCores) in
  let memMap := returned (optimizeMemoryLayout dims) in
  ([ "# PIM Instructions for Matrix Multiplication";
     dimensions_comment dims;
     cores_comment (List.length works);
     "" ]
   ++ join_blank
        (map (fun w => generateCoreInstructions w.(coreId) w.(startRow)
                         w.(endRow) dims memMap) works))%list.

(** How many entries of a listing have a given opcode. *)
Definition count_opcode (op : Opcode) (l : list string) : nat :=
  List.length
    (filter (fun s => match opcode_of s with
                      | Some o => Z.eqb (opcode_bits o) (opcode_bits op)
                      | None => false
                      end) l).

From Stdlib Require DecimalPos.

(* ================================================================== *)
(** * test/test_compiler.cpp *)

(** The four counters of [simulateInstructions]. *)
Record SimCounts : Type := mkCounts {
  instr_count : Z;
  prog_count : Z;
  exe_count : Z;
  end_count : Z
}.

(** One iteration of the loop over the instructions: comments and empty
    lines are skipped; any other line counts as an instruction and is
    classified by its first character. *)
Definition simulate_step (st : SimCounts) (instr : string) : SimCounts :=
  match instr with
  | EmptyString => st
  | String type_hex _ =>
      if Ascii.eqb type_hex "#" then st
      else
        let st := mkCounts (st.(instr_count) + 1) st.(prog_count)
                    st.(exe_count) st.(end_count) in
        if Ascii.eqb type_hex "0" then
          mkCounts st.(instr_count) (st.(prog_count) + 1) st.(exe_count)
            st.(end_count)
        else if (Ascii.eqb type_hex "4" || Ascii.eqb type_hex "5")%bool then
          mkCounts st.(instr_count) st.(prog_count) (st.(exe_count) + 1)
            st.(end_count)
        else if (Ascii.eqb type_hex "8" || Ascii.eqb type_hex "9")%bool then
          mkCounts st.(instr_count) st.(prog_count) st.(exe_count)
            (st.(end_count) + 1)
        else st
  end.

(** [simulateInstructions]: the lines it prints on [std::cout]. *)
Definition simulateInstructions (instructions : list string) : list string :=
  let cout : list string := [] in
  let cout := push_back cout
    ("Simulating " ++ to_string (Z.of_nat (List.length instructions))
     ++ " instructions...") in
  let st := fold_left simulate_step instructions (mkCounts 0 0 0 0) in
  let cout := push_back cout
    ("Instruction count: " ++ to_string st.(instr_count)) in
  let cout := push_back cout
    ("  PROG instructions: " ++ to_string st.(prog_count)) in
  let cout := push_back cout
    ("  EXE instructions: " ++ to_string st.(exe_count)) in
  push_back cout ("  END instructions: " ++ to_string st.(end_count)).

(** The loop of the test's [main] that reads the program file: the empty
    lines are dropped. *)
Definition read_program_lines (file : list string) : list string :=
  fold_left (fun instructions line =>
               if negb (str_empty line) then push_back instructions line
               else instructions)
    file [].

(* ================================================================== *)
(** * std::stoi and the regular expressions of src/parser.cpp *)


(** [isspace] in the C locale: space, \t, \n, \v, \f, \r. *)
Definition is_space (c : ascii) : bool :=
  let n := nat_of_ascii c in
  (Nat.eqb n 32 || (Nat.leb 9 n && Nat.leb n 13))%bool.

Definition is_digit (c : ascii) : bool :=
  let n := nat_of_ascii c in (Nat.leb 48 n && Nat.leb n 57)%bool.

Definition digit_value (c : ascii) : Z := Z.of_nat (nat_of_ascii c) - 48.

(** The longest prefix of characters that satisfy [p], and what follows. *)
Fixpoint span (p : ascii -> bool) (s : string) : string * string :=
  match s with
  | EmptyString => (EmptyString, EmptyString)
  | String c rest =>
      if p c then let '(a, b) := span p rest in (String c a, b)
      else (EmptyString, s)
  end.

(** The value of a text of decimal digits. *)
Fixpoint decimal_value (s : string) (acc : Z) : Z :=
  match s with
  | EmptyString => acc
  | String c rest => decimal_value rest (10 * acc + digit_value c)
  end.

(** What a call of [std::stoi] does: it returns an [int], or throws
    [std::invalid_argument] or [std::out_of_range]. *)
Inductive StoiResult : Type :=
| StoiValue (v : Z)
| StoiInvalidArgument
| StoiOutOfRange.

(** [std::stoi(s)], that is [strtol] in base 10 with the range of [int]:
    leading white space is skipped, one sign is accepted, the digits that
    follow are read and the rest of the text is ignored; without a digit
    the call throws [std::invalid_argument], with a value outside [int] it
    throws [std::out_of_range]. *)
Definition stoi (s : string) : StoiResult :=
  let s := snd (span is_space s) in
  let '(negative, s) :=
    match s with
    | String "-" rest => (true, rest)
    | String "+" rest => (false, rest)
    | _ => (false, s)
    end in
  let digits := fst (span is_digit s) in
  if str_empty digits then StoiInvalidArgument
  else
    let v := decimal_value digits 0 in
    let v := if negative then - v else v in
    if ((INT_MIN <=? v) && (v <=? INT_MAX))%bool then StoiValue v
    else StoiOutOfRange.

(** [s] without the prefix [p], when it starts with it. *)
Fixpoint strip_prefix (p s : string) : option string :=
  match p with
  | EmptyString => Some s
  | String a p' =>
      match s with
      | String b s' => if Ascii.eqb a b then strip_prefix p' s' else None
      | EmptyString => None
      end
  end.

(** A match of the pattern #define\s+X\s+(\d+) that starts at the first
    character of [s], for the one-letter name X: the text of the group.
    Each of \s+ and \d+ takes all the characters it can; giving some back
    cannot help, as what follows \s+ must be no space and nothing follows
    \d+. *)
Definition match_define_here (name : ascii) (s : string) : option string :=
  match strip_prefix "#define" s with
  | None => None
  | Some s1 =>
      let '(ws1, s2) := span is_space s1 in
      if str_empty ws1 then None
      else
        match s2 with
        | String c s3 =>
            if Ascii.eqb c name then
              let '(ws2, s4) := span is_space s3 in
              if str_empty ws2 then None
              else
                let digits := fst (span is_digit s4) in
                if str_empty digits then None else Some digits
            else None
        | EmptyString => None
        end
  end.

(** [std::regex_search(line, match, pattern)] for that pattern: the match
    that starts leftmost; the result is [match[1]]. *)
Fixpoint regex_search_define (name : ascii) (line : string) : option string :=
  match match_define_here name line with
  | Some digits => Some digits
  | None =>
      match line with
      | EmptyString => None
      | String _ rest => regex_search_define name rest
      end
  end.

(* ================================================================== *)
(** * src/parser.cpp *)

(** A function that returns, or lets an exception of [std::stoi] escape
    (nothing catches it: the program terminates). *)
Inductive Outcome (A : Type) : Type :=
| Returns (a : A)
| Throws (e : StoiResult).
Arguments Returns {A} _.
Arguments Throws {A} _.

(** The body of the loop over the lines of the file. *)
Definition parse_line (dims : MatrixDimensions) (line : string)
    : Outcome MatrixDimensions :=
  match regex_search_define "M" line with
  | Some text =>
      match stoi text with
      | StoiValue v => Returns (mkDims v dims.(N) dims.(K))
      | e => Throws e
      end
  | None =>
      match regex_search_define "N" line with
      | Some text =>
          match stoi text with
          | StoiValue v => Returns (mkDims dims.(M) v dims.(K))
          | e => Throws e
          end
      | None =>
          match regex_search_define "K" line with
          | Some text =>
              match stoi text with
              | StoiValue v => Returns (mkDims dims.(M) dims.(N) v)
              | e => Throws e
              end
          | None => Returns dims
          end
      end
  end.

Fixpoint parse_lines (lines : list string) (dims : MatrixDimensions)
    : Outcome MatrixDimensions :=
  match lines with
  | [] => Returns dims
  | line :: rest =>
      match parse_line dims line with
      | Returns dims' => parse_lines rest dims'
      | Throws e => Throws e
      end
  end.

(** [parseMatrixMultiply]: [file] is [None] when the file cannot be
    opened, and otherwise the lines [std::getline] reads from it.  The
    lines printed on [std::cout] and [std::cerr] are left out. *)
Definition parseMatrixMultiply (file : option (list string))
    : Outcome MatrixDimensions :=
  let dims := mkDims 64 64 64 in
  match file with
  | None => Returns dims
  | Some lines => parse_lines lines dims
  end.

(* ================================================================== *)
(** * src/main.cpp: the command line *)

(** The variables [main] fills from the command line. *)
Record Options : Type := mkOptions {
  opt_inputFile : string;
  opt_outputFile : string;
  opt_numCores : Z;
  opt_overrideM : Z;
  opt_overrideN : Z;
  opt_overrideK : Z;
  opt_parserType : Z
}.

Definition default_options : Options :=
  {| opt_inputFile := ""; opt_outputFile := "output.pim"; opt_numCores := 4;
     opt_overrideM := -1; opt_overrideN := -1; opt_overrideK := -1;
     opt_parserType := 1 |}.

(** How the part of [main] that reads the command line ends: [main]
    returns (after the help text, and a line on [std::cerr] for an
    error), an exception of [std::stoi] escapes, or the run goes on with
    the options. *)
Inductive ArgsOutcome : Type :=
| ArgsReturn (code : Z) (cerr : list string)
| ArgsThrow (e : StoiResult)
| ArgsGoOn (o : Options).

(** An option that takes an integer: the value goes through [std::stoi]. *)
Definition with_int (value : string) (k : Z -> ArgsOutcome) : ArgsOutcome :=
  match stoi value with
  | StoiValue v => k v
  | e => ArgsThrow e
  end.

(** The loop over argv[1], argv[2], ...; [args] is what is left of the
    command line.  An option is taken as such only when another argument
    follows it ([i + 1 < argc]). *)
Fixpoint parse_args (args : list string) (o : Options) : ArgsOutcome :=
  match args with
  | [] =>
      if str_empty o.(opt_inputFile) then
        ArgsReturn 1 ["Error: No input file specified."]
      else ArgsGoOn o
  | arg :: rest =>
      if (String.eqb arg "-h" || String.eqb arg "--help")%bool then
        ArgsReturn 0 []
      else
        let positional :=
          if str_empty o.(opt_inputFile) then
            parse_args rest
              (mkOptions arg o.(opt_outputFile) o.(opt_numCores)
                 o.(opt_overrideM) o.(opt_overrideN) o.(opt_overrideK)
                 o.(opt_parserType))
          else ArgsReturn 1 ["Unknown argument: " ++ arg] in
        match rest with
        | value :: rest' =>
            if String.eqb arg "-o" then
              parse_args rest'
                (mkOptions o.(opt_inputFile) value o.(opt_numCores)
                   o.(opt_overrideM) o.(opt_overrideN) o.(opt_overrideK)
                   o.(opt_parserType))
            else if String.eqb arg "-M" then
              with_int value (fun v =>
                parse_args rest'
                  (mkOptions o.(opt_inputFile) o.(opt_outputFile)
                     o.(opt_numCores) v o.(opt_overrideN) o.(opt_overrideK)
                     o.(opt_parserType)))
            else if String.eqb arg "-N" then
              with_int value (fun v =>
                parse_args rest'
                  (mkOptions o.(opt_inputFile) o.(opt_outputFile)
                     o.(opt_numCores) o.(opt_overrideM) v o.(opt_overrideK)
                     o.(opt_parserType)))
            else if String.eqb arg "-K" then
              with_int value (fun v =>
                parse_args rest'
                  (mkOptions o.(opt_inputFile) o.(opt_outputFile)
                     o.(opt_numCores) o.(opt_overrideM) o.(opt_overrideN) v
                     o.(opt_parserType)))
            else if String.eqb arg "-c" then
              with_int value (fun v =>
                parse_args rest'
                  (mkOptions o.(opt_inputFile) o.(opt_outputFile) v
                     o.(opt_overrideM) o.(opt_overrideN) o.(opt_overrideK)
                     o.(opt_parserType)))
            else if String.eqb arg "-p" then
              with_int value (fun v =>
                parse_args rest'
                  (mkOptions o.(opt_inputFile) o.(opt_outputFile)
                     o.(opt_numCores) o.(opt_overrideM) o.(opt_overrideN)
                     o.(opt_overrideK) v))
            else positional
        | [] => positional
        end
  end.

(* ================================================================== *)
(** * Reference definitions for further properties *)

(** Every character of a text satisfies a test. *)
Fixpoint string_forall (p : ascii -> bool) (s : string) : bool :=
  match s with
  | EmptyString => true
  | String c rest => (p c && string_forall p rest)%bool
  end.

(** The characters [std::hex] prints: 0-9 and a-f. *)
Definition is_lower_hex (c : ascii) : bool :=
  let n := nat_of_ascii c in
  ((Nat.leb 48 n && Nat.leb n 57) || (Nat.leb 97 n && Nat.leb n 102))%bool.

(** Reading a text of binary digits, most significant first. *)
Fixpoint parse_binary (s : string) (acc : Z) : option Z :=
  match s with
  | EmptyString => Some acc
  | String c rest =>
      if Ascii.eqb c "0" then parse_binary rest (2 * acc)
      else if Ascii.eqb c "1" then parse_binary rest (2 * acc + 1)
      else None
  end.

(** The number of rows of an assignment. *)
Definition row_count (w : WorkAssignment) : Z := w.(endRow) - w.(startRow) + 1.

(** An EXE instruction of a core, whatever its flags and address. *)
Definition exe_of_core (coreId : Z) (s : string) : Prop :=
  exists r w a, s = genExeInstr coreId r w a.

(** The two instructions that address the element of flat index [idx]
    of a matrix whose rows start at the memory row [base]: the memory row
    of the element, with the flags of the access, then its offset in the
    row. *)
Definition element_access (coreId : Z) (rd wr : bool) (base idx : Z)
    : list Instruction :=
  [ mkInstr EXE coreId rd wr (base + idx / 512);
    mkInstr EXE coreId false false (idx mod 512) ].

(** The instructions of a core for the rows startRow..endRow when a row
    of A fits in one memory row, for row-major matrices that start at the
    memory rows [baseA], [baseB], [baseC]: row i of A starts at the flat
    index i*K, B[k][j] is at k*N + j and C[i][j] at i*N + j. *)
Definition decoded_program (coreId startRow endRow : Z)
    (dims : MatrixDimensions) (baseA baseB baseC : Z) : list Instruction :=
  ([ mkInstr PROG coreId true false 1 ]
   ++ flat_map
        (fun i =>
           element_access coreId true false baseA (i * dims.(K))
           ++ flat_map
                (fun j =>
                   [ mkInstr EXE coreId false false 0 ]
                   ++ flat_map
                        (fun k =>
                           element_access coreId true false baseB
                             (k * dims.(N) + j)
                           ++ [ mkInstr EXE coreId false false 2 ])
                        (Zseq 0 (Z.to_nat dims.(K)))
                   ++ element_access coreId false true baseC
                        (i * dims.(N) + j))
                (Zseq 0 (Z.to_nat dims.(N))))
        (Zseq startRow (Z.to_nat (endRow + 1 - startRow)))
   ++ [ mkInstr END coreId false false 0 ])%list.

(** A comment line of a listing. *)
Definition is_comment (s : string) : bool := negb (is_instruction s).

(** A text that starts with the digit 0. *)
Definition zero_led (s : string) : Prop := exists rest, s = String "0" rest.

(** The value of a decimal numeral, digit by digit. *)
Fixpoint uint_value (d : Decimal.uint) (acc : Z) : Z :=
  match d with
  | Decimal.Nil => acc
  | Decimal.D0 l => uint_value l (10 * acc)
  | Decimal.D1 l => uint_value l (10 * acc + 1)
  | Decimal.D2 l => uint_value l (10 * acc + 2)
  | Decimal.D3 l => uint_value l (10 * acc + 3)
  | Decimal.D4 l => uint_value l (10 * acc + 4)
  | Decimal.D5 l => uint_value l (10 * acc + 5)
  | Decimal.D6 l => uint_value l (10 * acc + 6)
  | Decimal.D7 l => uint_value l (10 * acc + 7)
  | Decimal.D8 l => uint_value l (10 * acc + 8)
  | Decimal.D9 l => uint_value l (10 * acc + 9)
  end.

(** A text without the character #. *)
Definition no_hash (s : string) : bool :=
  string_forall (fun c => negb (Ascii.eqb c "#")) s.

(** A line that defines a dimension, as the compiler test writes it. *)
Definition define_line (name : string) (value : Z) : string :=
  "#define " ++ name ++ " " ++ to_string value.

(** Dimensions that are not negative and fit an [int]. *)
Definition dims_in_int (d : MatrixDimensions) : Prop :=
  0 <= d.(M) <= INT_MAX /\ 0 <= d.(N) <= INT_MAX /\ 0 <= d.(K) <= INT_MAX.

(** The arguments [main] treats as options or as a request for help. *)
Definition is_flag (arg : string) : bool :=
  existsb (String.eqb arg) ["-h"; "--help"; "-o"; "-M"; "-N"; "-K"; "-c"; "-p"].

(** What can be said of the outcome of the loop over the arguments
    [args]: the run goes on only with an input file; [main] returns 0
    only for a help request, and otherwise 1 with one line on
    [std::cerr]; an exception is one of [std::stoi]. *)
Definition args_outcome_ok (args : list string) (x : ArgsOutcome) : Prop :=
  match x with
  | ArgsGoOn o => str_empty o.(opt_inputFile) = false
  | ArgsReturn code cerr =>
      (code = 0 /\ cerr = [] /\ (In "-h" args \/ In "--help" args))
      \/ (code = 1 /\ exists line, cerr = [line])
  | ArgsThrow e => e = StoiInvalidArgument \/ e = StoiOutOfRange
  end.

(* ================================================================== *)
(** * Instruction encoder: hexadecimal text *)

Lemma hex_value_digit d : 0 <= d < 16 -> hex_value (hex_digit d) = Some d.
Proof.
  intros H.
  assert (Hc : d = 0 \/ d = 1 \/ d = 2 \/ d = 3 \/ d = 4 \/ d = 5 \/ d = 6 \/ d = 7 \/
               d = 8 \/ d = 9 \/ d = 10 \/ d = 11 \/ d = 12 \/ d = 13 \/ d = 14 \/ d = 15)
    by lia.
  repeat (destruct Hc as [-> | Hc]; [reflexivity|]). subst; reflexivity.
Qed.

Lemma parse_hex_digits fuel : forall n acc,
  0 <= n < 16 ^ Z.of_nat fuel ->
  parse_hex (hex_digits fuel n acc) 0 = parse_hex acc n.
Proof.
  induction fuel as [|fuel IH]; intros n acc Hn.
  - simpl in *. replace n with 0 by lia. reflexivity.
  - rewrite Nat2Z.inj_succ, Z.pow_succ_r in Hn by lia.
    assert (Hm : 0 <= n mod 16 < 16) by (apply Z.mod_pos_bound; lia).
    assert (Hd : n = 16 * (n / 16) + n mod 16) by (apply Z.div_mod; lia).
    cbn [hex_digits].
    destruct (n / 16 =? 0) eqn:E.
    + apply Z.eqb_eq in E. cbn [parse_hex]. rewrite hex_value_digit by assumption.
      f_equal. lia.
    + rewrite IH.
      * cbn [parse_hex]. rewrite hex_value_digit by assumption. f_equal. lia.
      * split; [apply Z.div_pos; lia | apply Z.div_lt_upper_bound; lia].
Qed.

Lemma length_hex_digits fuel : forall k n acc,
  (1 <= k <= fuel)%nat -> 0 <= n < 16 ^ Z.of_nat k ->
  (String.length (hex_digits fuel n acc) <= k + String.length acc)%nat.
Proof.
  induction fuel as [|fuel IH]; intros k n acc Hk Hn; [lia|].
  cbn [hex_digits].
  destruct (n / 16 =? 0) eqn:E.
  - simpl. lia.
  - apply Z.eqb_neq in E.
    destruct k as [|k]; [lia|].
    rewrite Nat2Z.inj_succ, Z.pow_succ_r in Hn by lia.
    assert (Hq : 0 <= n / 16 < 16 ^ Z.of_nat k)
      by (split; [apply Z.div_pos; lia | apply Z.div_lt_upper_bound; lia]).
    destruct k as [|k].
    + simpl in Hq. lia.
    + specialize (IH (S k) (n / 16) (String (hex_digit (n mod 16)) acc)).
      simpl String.length in IH. lia.
Qed.

Lemma length_fill_left n c s :
  String.length (fill_left n c s) = (n + String.length s)%nat.
Proof. induction n; simpl; congruence. Qed.

Lemma parse_fill_left n s : parse_hex (fill_left n "0"%char s) 0 = parse_hex s 0.
Proof. induction n; simpl; auto. Qed.

Lemma land_24bit v : 0 <= v < 2 ^ 24 -> Z.land v 0xFFFFFF = v.
Proof.
  intros H. change 0xFFFFFF with (Z.ones 24).
  rewrite Z.land_ones by lia. apply Z.mod_small; assumption.
Qed.

Lemma to_hex_string_length v :
  0 <= v < 2 ^ 24 -> String.length (to_hex_string v) = 6%nat.
Proof.
  intros H. unfold to_hex_string, setw_setfill. rewrite land_24bit by assumption.
  rewrite length_fill_left.
  pose proof (length_hex_digits 8 6 v "" ltac:(lia) H) as L.
  fold (stream_hex v) in L. simpl String.length in L. lia.
Qed.

Lemma parse_to_hex_string v :
  0 <= v < 2 ^ 24 -> parse_hex (to_hex_string v) 0 = Some v.
Proof.
  intros H. unfold to_hex_string, setw_setfill. rewrite land_24bit by assumption.
  rewrite parse_fill_left. unfold stream_hex. rewrite parse_hex_digits; [reflexivity|].
  simpl Z.of_nat. lia.
Qed.

(** * Instruction encoder: bit fields *)

Lemma lor_low hi lo n :
  0 <= n -> 0 <= lo < 2 ^ n -> Z.lor (hi * 2 ^ n) lo = hi * 2 ^ n + lo.
Proof.
  intros Hn Hlo.
  assert (D : Z.land (hi * 2 ^ n) lo = 0).
  { apply Z.bits_inj'. intros i Hi. rewrite Z.land_spec, Z.bits_0.
    destruct (Z.lt_ge_cases i n) as [L|G].
    - rewrite Z.mul_pow2_bits_low by lia. reflexivity.
    - rewrite <- (Z.mod_small lo (2 ^ n)) by assumption.
      rewrite Z.mod_pow2_bits_high by lia. apply andb_false_r. }
  rewrite <- Z.lxor_lor, <- Z.add_nocarry_lxor by assumption. reflexivity.
Qed.

Lemma lor_low_num hi lo n p :
  p = 2 ^ n -> 0 <= n -> 0 <= lo < p -> Z.lor (hi * p) lo = hi * p + lo.
Proof. intros ->. apply lor_low. Qed.

Lemma instr_word_sum op c r w a : instr_word op c r w a = word_sum op c r w a.
Proof.
  unfold instr_word, word_sum.
  change 0x3F with (Z.ones 6). change 0x1FF with (Z.ones 9).
  rewrite !Z.land_ones by lia. rewrite !Z.shiftl_mul_pow2 by lia.
  change (2 ^ 6) with 64. change (2 ^ 9) with 512. change (2 ^ 10) with 1024.
  change (2 ^ 11) with 2048. change (2 ^ 17) with 131072.
  pose proof (Z.mod_pos_bound c 64 ltac:(lia)) as Hc.
  pose proof (Z.mod_pos_bound a 512 ltac:(lia)) as Ha.
  assert (Hr : (if r then 1 else 0) = Z.b2z r) by (destruct r; reflexivity).
  assert (Hw : (if w then 1 else 0) = Z.b2z w) by (destruct w; reflexivity).
  rewrite Hr, Hw.
  assert (Br : 0 <= Z.b2z r <= 1) by (destruct r; simpl; lia).
  assert (Bw : 0 <= Z.b2z w <= 1) by (destruct w; simpl; lia).
  assert (Bo : 0 <= opcode_bits op <= 3) by (destruct op; simpl; lia).
  rewrite (lor_low_num _ (c mod 64 * 2048) 17 131072) by (reflexivity || lia).
  replace (opcode_bits op * 131072 + c mod 64 * 2048)
    with ((opcode_bits op * 64 + c mod 64) * 2048) by lia.
  rewrite (lor_low_num _ (Z.b2z r * 1024) 11 2048) by (reflexivity || lia).
  replace ((opcode_bits op * 64 + c mod 64) * 2048 + Z.b2z r * 1024)
    with ((opcode_bits op * 128 + c mod 64 * 2 + Z.b2z r) * 1024) by lia.
  rewrite (lor_low_num _ (Z.b2z w * 512) 10 1024) by (reflexivity || lia).
  replace ((opcode_bits op * 128 + c mod 64 * 2 + Z.b2z r) * 1024 + Z.b2z w * 512)
    with ((opcode_bits op * 256 + c mod 64 * 4 + Z.b2z r * 2 + Z.b2z w) * 512) by lia.
  rewrite (lor_low_num _ (a mod 512) 9 512) by (reflexivity || lia). lia.
Qed.

Lemma word_sum_range op c r w a : 0 <= word_sum op c r w a < 524288.
Proof.
  unfold word_sum.
  pose proof (Z.mod_pos_bound c 64 ltac:(lia)).
  pose proof (Z.mod_pos_bound a 512 ltac:(lia)).
  destruct op, r, w; simpl opcode_bits; simpl Z.b2z; lia.
Qed.

Lemma instr_word_range op c r w a : 0 <= instr_word op c r w a < 2 ^ 24.
Proof.
  rewrite instr_word_sum. pose proof (word_sum_range op c r w a).
  change (2 ^ 24) with 16777216. lia.
Qed.

Lemma b2z_inj b1 b2 : Z.b2z b1 = Z.b2z b2 -> b1 = b2.
Proof. destruct b1, b2; simpl; congruence. Qed.

Lemma decode_word_sum op c r w a :
  decode_word (word_sum op c r w a) =
  {| opcode := op; core := c mod 64; read := r; write := w;
     address := a mod 512 |}.
Proof.
  unfold decode_word.
  pose proof (Z.mod_pos_bound c 64 ltac:(lia)) as Hc.
  pose proof (Z.mod_pos_bound a 512 ltac:(lia)) as Ha.
  assert (Br : 0 <= Z.b2z r <= 1) by (destruct r; simpl; lia).
  assert (Bw : 0 <= Z.b2z w <= 1) by (destruct w; simpl; lia).
  assert (Bo : 0 <= opcode_bits op <= 3) by (destruct op; simpl; lia).
  set (W := word_sum op c r w a).
  assert (HW : W = opcode_bits op * 131072 + (c mod 64) * 2048
               + Z.b2z r * 1024 + Z.b2z w * 512 + a mod 512)
    by reflexivity.
  change 0x3F with (Z.ones 6). change 0x1FF with (Z.ones 9). change 3 with (Z.ones 2).
  rewrite !Z.land_ones by lia. rewrite !Z.shiftr_div_pow2 by lia.
  change (2 ^ 6) with 64. change (2 ^ 9) with 512. change (2 ^ 2) with 4.
  change (2 ^ 17) with 131072. change (2 ^ 11) with 2048.
  assert (E1 : (W / 131072) mod 4 = opcode_bits op)
    by (Z.div_mod_to_equations; lia).
  assert (E2 : (W / 2048) mod 64 = c mod 64) by (Z.div_mod_to_equations; lia).
  assert (E3 : Z.testbit W 10 = r).
  { apply b2z_inj. rewrite Z.testbit_spec' by lia. change (2 ^ 10) with 1024.
    Z.div_mod_to_equations; lia. }
  assert (E4 : Z.testbit W 9 = w).
  { apply b2z_inj. rewrite Z.testbit_spec' by lia. change (2 ^ 9) with 512.
    Z.div_mod_to_equations; lia. }
  assert (E5 : W mod 512 = a mod 512) by (Z.div_mod_to_equations; lia).
  rewrite E1, E2, E3, E4, E5. destruct op; reflexivity.
Qed.

Lemma decode_instr_word op c r w a :
  decode_word (instr_word op c r w a) =
  {| opcode := op; core := Z.land c 0x3F; read := r; write := w;
     address := Z.land a 0x1FF |}.
Proof.
  rewrite instr_word_sum, decode_word_sum.
  change 0x3F with (Z.ones 6). change 0x1FF with (Z.ones 9).
  rewrite !Z.land_ones by lia. reflexivity.
Qed.

Lemma decodeInstr_to_hex_string op c r w a :
  decodeInstr (to_hex_string (instr_word op c r w a)) =
  Some {| opcode := op; core := Z.land c 0x3F; read := r; write := w;
          address := Z.land a 0x1FF |}.
Proof.
  unfold decodeInstr.
  rewrite to_hex_string_length by apply instr_word_range.
  rewrite parse_to_hex_string by apply instr_word_range.
  simpl. rewrite decode_instr_word. reflexivity.
Qed.

Lemma to_uint32_small z : 0 <= z < 2 ^ 32 -> to_uint32 z = z.
Proof. apply Z.mod_small. Qed.

Lemma to_int32_small z : - 2 ^ 31 <= z < 2 ^ 31 -> to_int32 z = z.
Proof. intros H. unfold to_int32. rewrite Z.mod_small; lia. Qed.

(** No conversion changes the word: every operand of [|=] is below 2^19. *)
Lemma packed_word (op : Opcode) (c : Z) (r w : bool) (a : Z) :
  to_int32
    (Z.lor (Z.lor (Z.lor (Z.lor (Z.lor 0
       (to_uint32 (Z.shiftl (opcode_bits op) 17)))
       (to_uint32 (Z.shiftl (Z.land c 0x3F) 11)))
       (to_uint32 (Z.shiftl (if r then 1 else 0) 10)))
       (to_uint32 (Z.shiftl (if w then 1 else 0) 9)))
       (to_uint32 (Z.land a 0x1FF)))
  = instr_word op c r w a.
Proof.
  assert (Hc : 0 <= Z.shiftl (Z.land c 0x3F) 11 < 2 ^ 32).
  { change 0x3F with (Z.ones 6). rewrite Z.land_ones, Z.shiftl_mul_pow2 by lia.
    pose proof (Z.mod_pos_bound c (2 ^ 6) ltac:(lia)). lia. }
  assert (Ha : 0 <= Z.land a 0x1FF < 2 ^ 32).
  { change 0x1FF with (Z.ones 9). rewrite Z.land_ones by lia.
    pose proof (Z.mod_pos_bound a (2 ^ 9) ltac:(lia)). lia. }
  rewrite (to_uint32_small (Z.shiftl (Z.land c 0x3F) 11)) by exact Hc.
  rewrite (to_uint32_small (Z.land a 0x1FF)) by exact Ha.
  rewrite (to_uint32_small (Z.shiftl (opcode_bits op) 17))
    by (destruct op; cbv; split; congruence).
  rewrite (to_uint32_small (Z.shiftl (if r then 1 else 0) 10))
    by (destruct r; cbv; split; congruence).
  rewrite (to_uint32_small (Z.shiftl (if w then 1 else 0) 9))
    by (destruct w; cbv; split; congruence).
  change (Z.lor 0 (Z.shiftl (opcode_bits op) 17)) with (Z.shiftl (opcode_bits op) 17).
  fold (instr_word op c r w a).
  apply to_int32_small. pose proof (instr_word_range op c r w a). lia.
Qed.

Lemma genProgInstr_word c r w a :
  genProgInstr c r w a = to_hex_string (instr_word PROG c r w a).
Proof. unfold genProgInstr. cbv zeta. now rewrite <- (packed_word PROG). Qed.

Lemma genExeInstr_word c r w a :
  genExeInstr c r w a = to_hex_string (instr_word EXE c r w a).
Proof. unfold genExeInstr. cbv zeta. now rewrite <- (packed_word EXE). Qed.

Lemma genEndInstr_word c r w a :
  genEndInstr c r w a = to_hex_string (instr_word END c r w a).
Proof. unfold genEndInstr. cbv zeta. now rewrite <- (packed_word END). Qed.

Lemma genNoOpInstr_word :
  genNoOpInstr = to_hex_string (instr_word NOOP 0 false false 0).
Proof. reflexivity. Qed.

Lemma encodeInstr_word op c r w a :
  op <> NOOP -> encodeInstr op c r w a = to_hex_string (instr_word op c r w a).
Proof.
  destruct op; intros H; cbn [encodeInstr];
    [congruence | apply genProgInstr_word | apply genExeInstr_word
     | apply genEndInstr_word].
Qed.

(** C1 (as amended).  For the opcodes PROG, EXE and END and all integers
    coreId and address and booleans read and write, the encoder returns the
    6-digit, zero-padded hexadecimal text of the word
    (opcode<<17) | ((coreId & 0x3F)<<11) | (read<<10) | (write<<9)
    | (address & 0x1FF), and decoding that text gives back the opcode, the
    two flags, coreId masked to 6 bits and address masked to 9 bits.  The
    NoOp generator takes no operand: it returns the text of the all-zero
    word, which decodes to NOOP with every field zero. *)
Theorem encodeInstr_roundtrip (op : Opcode) (coreId : Z) (read write : bool)
    (addr : Z) (Hop : op <> NOOP) :
  encodeInstr op coreId read write addr
    = to_hex_string (instr_word op coreId read write addr)
  /\ String.length (encodeInstr op coreId read write addr) = 6%nat
  /\ parse_hex (encodeInstr op coreId read write addr) 0
       = Some (instr_word op coreId read write addr)
  /\ decodeInstr (encodeInstr op coreId read write addr)
       = Some {| opcode := op; core := Z.land coreId 0x3F; read := read;
                 write := write; address := Z.land addr 0x1FF |}
  /\ encodeInstr NOOP coreId read write addr = "000000"
  /\ decodeInstr (encodeInstr NOOP coreId read write addr)
       = Some {| opcode := NOOP; core := 0; read := false; write := false;
                 address := 0 |}.
Proof.
  rewrite (encodeInstr_word op) by assumption.
  repeat split.
  - apply to_hex_string_length, instr_word_range.
  - apply parse_to_hex_string, instr_word_range.
  - apply decodeInstr_to_hex_string.
Qed.

Lemma encodeInstr_roundtrip_witness :
  EXE <> NOOP
  /\ encodeInstr EXE 5 true false 7 = "042c07"
  /\ decodeInstr "042C07"
       = Some {| opcode := EXE; core := 5; read := true; write := false;
                 address := 7 |}.
Proof.
  assert (H : EXE <> NOOP) by discriminate.
  destruct (encodeInstr_roundtrip EXE 5 true false 7 H) as (_ & _ & _ & D & _).
  split; [exact H|]. split; [reflexivity|]. exact D.
Defined.

(** C1 as stated fails for NOOP: the NoOp generator has no coreId operand,
    so a NOOP with coreId 1 is encoded as 000000 and not as the text of
    (0<<17) | (1<<11), and decoding gives coreId 0. *)
Lemma encodeInstr_noop_counterexample :
  genNoOpInstr = "000000"
  /\ encodeInstr NOOP 1 false false 0 = "000000"
  /\ to_hex_string (instr_word NOOP 1 false false 0) = "000800"
  /\ ~ (encodeInstr NOOP 1 false false 0
          = to_hex_string (instr_word NOOP 1 false false 0)
        /\ decodeInstr (encodeInstr NOOP 1 false false 0)
             = Some {| opcode := NOOP; core := Z.land 1 0x3F; read := false;
                       write := false; address := Z.land 0 0x1FF |}).
Proof.
  repeat (split; [reflexivity|]).
  intros [H _]. vm_compute in H. discriminate H.
Qed.

(* ================================================================== *)
(** * The arithmetic of [int] *)

Lemma to_int32_exact z : INT_MIN <= z <= INT_MAX -> to_int32 z = z.
Proof. unfold INT_MIN, INT_MAX. intros H. apply to_int32_small. lia. Qed.

Lemma to_int32_range z : INT_MIN <= to_int32 z <= INT_MAX.
Proof.
  unfold to_int32, INT_MIN, INT_MAX.
  pose proof (Z.mod_pos_bound (z + 2 ^ 31) (2 ^ 32) ltac:(lia)). lia.
Qed.

(** The reduction changes a value by a multiple of 2^32. *)
Lemma to_int32_congr z : exists k, to_int32 z = z + k * 2 ^ 32.
Proof.
  exists (- ((z + 2 ^ 31) / 2 ^ 32)). unfold to_int32.
  pose proof (Z.div_mod (z + 2 ^ 31) (2 ^ 32) ltac:(lia)). lia.
Qed.

Lemma to_int32_shift a k : to_int32 (a + k * 2 ^ 32) = to_int32 a.
Proof.
  unfold to_int32.
  replace (a + k * 2 ^ 32 + 2 ^ 31) with (a + 2 ^ 31 + k * 2 ^ 32) by ring.
  now rewrite Z.mod_add by lia.
Qed.

Lemma to_int32_add_l a b : to_int32 (to_int32 a + b) = to_int32 (a + b).
Proof.
  destruct (to_int32_congr a) as [k ->]. unfold to_int32.
  replace (a + k * 2 ^ 32 + b + 2 ^ 31) with (a + b + 2 ^ 31 + k * 2 ^ 32) by ring.
  now rewrite Z.mod_add by lia.
Qed.

Lemma to_int32_add_r a b : to_int32 (a + to_int32 b) = to_int32 (a + b).
Proof. rewrite (Z.add_comm a), to_int32_add_l. f_equal. ring. Qed.

Lemma int_add_exact a b : INT_MIN <= a + b <= INT_MAX -> a +i b = a + b.
Proof. apply to_int32_exact. Qed.

Lemma int_sub_exact a b : INT_MIN <= a - b <= INT_MAX -> a -i b = a - b.
Proof. apply to_int32_exact. Qed.

Lemma int_mul_exact a b : INT_MIN <= a * b <= INT_MAX -> a *i b = a * b.
Proof. apply to_int32_exact. Qed.

(** The low nine bits of an address do not see the reduction, so the
    text of an instruction is the same for an address and for its
    reduction. *)
Lemma land_to_int32 a : Z.land (to_int32 a) 0x1FF = Z.land a 0x1FF.
Proof.
  destruct (to_int32_congr a) as [k ->].
  change 0x1FF with (Z.ones 9). rewrite !Z.land_ones by lia.
  replace (a + k * 2 ^ 32) with (a + (k * 2 ^ 23) * 2 ^ 9) by ring.
  now rewrite Z.mod_add by lia.
Qed.

Lemma genExeInstr_to_int32 c r w a :
  genExeInstr c r w (to_int32 a) = genExeInstr c r w a.
Proof. unfold genExeInstr. cbv zeta. now rewrite land_to_int32. Qed.

Lemma genExeInstr_int_add c r w a b :
  genExeInstr c r w (a +i b) = genExeInstr c r w (a + b).
Proof. apply genExeInstr_to_int32. Qed.

(* ================================================================== *)
(** * IR generator *)

Lemma append_empty_r (s : string) : s ++ "" = s.
Proof. induction s; simpl; congruence. Qed.

Lemma generateThreeAddressCode_reference dims :
  instructions (generateThreeAddressCode dims)
  = map render_line (reference_program dims).
Proof. reflexivity. Qed.

(** C8.  For positive dimensions the IR generator returns the reference
    triple loop, rendered line by line with the dimensions as decimal
    literals; the labels of that program (defined or jumped to) are
    exactly L1, L2, L3, END_L1, END_L2, END_L3, the lines of the output
    that start with a label define these six, the temporaries are
    t1..t9, and the three conditional jumps compare against M, N and K in
    this order. *)
Theorem generateThreeAddressCode_reference_loop (dims : MatrixDimensions)
    (HM : 0 < dims.(M)) (HN : 0 < dims.(N)) (HK : 0 < dims.(K)) :
  instructions (generateThreeAddressCode dims)
    = map render_line (reference_program dims)
  /\ (forall l, In l (label_set (reference_program dims))
                <-> In l ["L1"; "L2"; "L3"; "END_L1"; "END_L2"; "END_L3"])
  /\ flat_map (fun l => defined_label (snd l)) (reference_program dims)
       = ["L1"; "L2"; "L3"; "END_L3"; "END_L2"; "END_L1"]
  /\ flat_map (fun line => match line_label line with
                           | Some l => [l]
                           | None => []
                           end)
       (instructions (generateThreeAddressCode dims))
       = ["L1"; "L2"; "L3"; "END_L3"; "END_L2"; "END_L1"]
  /\ (forall t, In t (temporaries (reference_program dims))
                <-> In t ["t1"; "t2"; "t3"; "t4"; "t5"; "t6"; "t7"; "t8"; "t9"])
  /\ loop_bounds (reference_program dims) = [dims.(M); dims.(N); dims.(K)].
Proof.
  split; [reflexivity|].
  split.
  { intros l. vm_compute. tauto. }
  split; [reflexivity|].
  split; [reflexivity|].
  split; [|reflexivity].
  intros t. vm_compute. tauto.
Qed.

Lemma generateThreeAddressCode_reference_loop_witness :
  let dims := mkDims 2 2 2 in
  loop_bounds (reference_program dims) = [2; 2; 2]
  /\ instructions (generateThreeAddressCode dims)
     = [ "i = 0";
         "L1: if i >= 2 goto END_L1";
         "    j = 0";
         "    L2: if j >= 2 goto END_L2";
         "        sum = 0";
         "        k = 0";
         "        L3: if k >= 2 goto END_L3";
         "            t1 = i * 2";
         "            t2 = t1 + k";
         "            t3 = k * 2";
         "            t4 = t3 + j";
         "            t5 = A[t2]";
         "            t6 = B[t4]";
         "            t7 = t5 * t6";
         "            sum = sum + t7";
         "            k = k + 1";
         "            goto L3";
         "        END_L3:";
         "        t8 = i * 2";
         "        t9 = t8 + j";
         "        C[t9] = sum";
         "        j = j + 1";
         "        goto L2";
         "    END_L2:";
         "    i = i + 1";
         "    goto L1";
         "END_L1:" ].
Proof.
  intros dims.
  destruct (generateThreeAddressCode_reference_loop dims
              ltac:(simpl; lia) ltac:(simpl; lia) ltac:(simpl; lia))
    as (E & _ & _ & _ & _ & B).
  split; [exact B|]. rewrite E. reflexivity.
Defined.

(** C10.  For all integer dimensions the IR generator returns 27 lines:
    the fixed list of line templates, each either constant text or
    constant text around the decimal literal of one dimension. *)
Theorem generateThreeAddressCode_27_lines (dims : MatrixDimensions) :
  List.length (instructions (generateThreeAddressCode dims)) = 27%nat
  /\ List.length tac_templates = 27%nat
  /\ instructions (generateThreeAddressCode dims) = map (fill dims) tac_templates.
Proof.
  split; [reflexivity|]. split; [reflexivity|].
  cbn [map fill tac_templates select_dim]. rewrite !append_empty_r. reflexivity.
Qed.

(* ================================================================== *)
(** * Counted loops and integer ranges *)

Lemma Zseq_length lo n : List.length (Zseq lo n) = n.
Proof. revert lo; induction n; intros; simpl; auto. Qed.

Lemma Zseq_app lo n m :
  Zseq lo (n + m) = (Zseq lo n ++ Zseq (lo + Z.of_nat n) m)%list.
Proof.
  revert lo; induction n as [|n IH]; intros lo.
  - simpl. f_equal. lia.
  - cbn [Nat.add Zseq app]. rewrite IH. do 3 f_equal. lia.
Qed.

Lemma Zseq_snoc lo n :
  Zseq lo (S n) = (Zseq lo n ++ [lo + Z.of_nat n])%list.
Proof. replace (S n) with (n + 1)%nat by lia. apply Zseq_app. Qed.

Lemma Zseq_In lo n x : In x (Zseq lo n) <-> lo <= x < lo + Z.of_nat n.
Proof.
  revert lo; induction n as [|n IH]; intros lo.
  - simpl. lia.
  - cbn [Zseq In]. rewrite IH. lia.
Qed.

Lemma Zseq_nth_error lo n i :
  (i < n)%nat -> nth_error (Zseq lo n) i = Some (lo + Z.of_nat i).
Proof.
  revert lo i; induction n as [|n IH]; intros lo i Hi; [lia|].
  destruct i as [|i]; simpl.
  - f_equal. lia.
  - rewrite IH by lia. f_equal. lia.
Qed.

(** A loop whose body appends [f i] to a vector appends the blocks
    f lo, f (lo+1), ... in turn. *)
Lemma iterate_append {A : Type} (f : Z -> list A) (body : Z -> list A -> list A) :
  (forall i acc, body i acc = (acc ++ f i)%list) ->
  forall n i acc,
    iterate n i body acc = (acc ++ flat_map f (Zseq i n))%list.
Proof.
  intros Hb. induction n as [|n IH]; intros i acc; simpl.
  - now rewrite app_nil_r.
  - rewrite IH, Hb, <- app_assoc. reflexivity.
Qed.

Lemma for_lt_append {A : Type} (f : Z -> list A) body lo hi (acc : list A) :
  (forall i acc, body i acc = (acc ++ f i)%list) ->
  for_lt lo hi body acc = (acc ++ flat_map f (Zseq lo (Z.to_nat (hi - lo))))%list.
Proof. intros Hb. unfold for_lt. now apply iterate_append. Qed.

Lemma for_le_append {A : Type} (f : Z -> list A) body lo hi (acc : list A) :
  (forall i acc, body i acc = (acc ++ f i)%list) ->
  for_le lo hi body acc
  = (acc ++ flat_map f (Zseq lo (Z.to_nat (hi + 1 - lo))))%list.
Proof. intros Hb. unfold for_le. now apply iterate_append. Qed.

(** The same for a loop that appends to two vectors at once. *)
Lemma iterate_append2 {A B : Type} (f : Z -> list A) (g : Z -> list B)
    (body : Z -> list A * list B -> list A * list B) :
  (forall i a b, body i (a, b) = ((a ++ f i)%list, (b ++ g i)%list)) ->
  forall n i a b,
    iterate n i body (a, b)
    = ((a ++ flat_map f (Zseq i n))%list, (b ++ flat_map g (Zseq i n))%list).
Proof.
  intros Hb. induction n as [|n IH]; intros i a b; simpl.
  - now rewrite !app_nil_r.
  - rewrite Hb, IH, <- !app_assoc. reflexivity.
Qed.

(* ================================================================== *)
(** * Work partitioner *)

Lemma ceil_double_div_bounds m c :
  0 < c -> (ceil_double_div m c - 1) * c < m <= ceil_double_div m c * c.
Proof.
  intros Hc. unfold ceil_double_div.
  pose proof (Z.div_mod (- m) c ltac:(lia)) as E.
  pose proof (Z.mod_pos_bound (- m) c Hc) as B.
  nia.
Qed.

Lemma ceil_double_div_same m : 0 < m -> ceil_double_div m m = 1.
Proof.
  intros H. pose proof (ceil_double_div_bounds m m H). nia.
Qed.

Lemma flat_map_filter_map {A B C : Type} (p : B -> bool) (f : A -> B)
    (g : B -> C) (l : list A) :
  flat_map (fun x => if p (f x) then [g (f x)] else []) l
  = map g (filter p (map f l)).
Proof.
  induction l as [|x l IH]; [reflexivity|].
  cbn [flat_map map filter]. rewrite IH. destruct (p (f x)); reflexivity.
Qed.

Lemma flat_map_filter {A B : Type} (p : B -> bool) (f : A -> B) (l : list A) :
  flat_map (fun x => if p (f x) then [f x] else []) l = filter p (map f l).
Proof.
  induction l as [|x l IH]; [reflexivity|].
  cbn [flat_map map filter]. rewrite IH. destruct (p (f x)); reflexivity.
Qed.

(** The loop of the partitioner: the cores with rows, in order, and one
    printed line for each. *)
Lemma distributeWork_loop dims c :
  let c' := if c >? dims.(M) then dims.(M) else c in
  let r := ceil_double_div dims.(M) c' in
  let works :=
    filter has_rows (map (work_of_core dims.(M) r) (Zseq 0 (Z.to_nat c'))) in
  distributeWork dims c
  = {| printed :=
         ((if c >? dims.(M) then [warning_line c dims.(M)] else [])
          ++ [distributing_line dims.(M) c' r] ++ map core_line works)%list;
       returned := works |}.
Proof.
  intros c' r works. unfold distributeWork.
  set (warn := push_back [] _).
  assert (E : (if c >? M dims then (warn, M dims) else ([], c))
              = ((if c >? M dims then warn else []), c')).
  { unfold c'. destruct (c >? M dims); reflexivity. }
  rewrite E. fold r. unfold for_lt.
  set (body := fun (core : Z) (st : list string * list WorkAssignment) => _).
  rewrite (iterate_append2
             (fun core => if has_rows (work_of_core (M dims) r core)
                          then [core_line (work_of_core (M dims) r core)] else [])
             (fun core => if has_rows (work_of_core (M dims) r core)
                          then [work_of_core (M dims) r core] else [])).
  - rewrite Z.sub_0_r, flat_map_filter_map, flat_map_filter. fold works.
    unfold push_back, warn, push_back. cbn [app].
    destruct (c >? M dims); reflexivity.
  - intros i a b. unfold body, has_rows, work_of_core, core_line, push_back.
    cbn [startRow endRow coreId].
    destruct (i *i r <=? Z.min ((i +i 1) *i r -i 1) (M dims -i 1)).
    + reflexivity.
    + now rewrite !app_nil_r.
Qed.

(** As long as (core+1)*rowsPerCore fits in an [int], the loop body
    computes the assignment of exact arithmetic. *)
Lemma work_of_core_exact m r x :
  0 <= x -> 1 <= r -> (x + 1) * r <= INT_MAX -> INT_MIN < m <= INT_MAX ->
  work_of_core m r x = work_for m r x.
Proof.
  intros Hx Hr Hfit Hm. unfold work_of_core, work_for.
  assert (B : 0 <= x * r /\ x * r <= (x + 1) * r /\ x + 1 <= (x + 1) * r) by nia.
  rewrite (int_add_exact x 1) by (unfold INT_MIN; lia).
  rewrite (int_mul_exact x r), (int_mul_exact (x + 1) r) by (unfold INT_MIN; lia).
  rewrite (int_sub_exact ((x + 1) * r) 1), (int_sub_exact m 1)
    by (unfold INT_MIN, INT_MAX in *; lia).
  reflexivity.
Qed.

Lemma map_work_of_core m r n :
  1 <= r -> INT_MIN < m <= INT_MAX -> Z.of_nat n * r <= INT_MAX ->
  map (work_of_core m r) (Zseq 0 n) = map (work_for m r) (Zseq 0 n).
Proof.
  intros Hr Hm Hfit. apply map_ext_in. intros x Hx. apply Zseq_In in Hx.
  apply work_of_core_exact; try assumption; nia.
Qed.

Lemma has_rows_work_for m r x :
  1 <= r -> has_rows (work_for m r x) = (x <? (m - 1) / r + 1).
Proof.
  intros Hr. unfold has_rows, work_for. cbn [startRow endRow].
  pose proof (Z.div_mod (m - 1) r ltac:(lia)) as E.
  pose proof (Z.mod_pos_bound (m - 1) r ltac:(lia)) as B.
  destruct (Z.leb_spec (x * r) (Z.min ((x + 1) * r - 1) (m - 1)));
    destruct (Z.ltb_spec x ((m - 1) / r + 1)); try reflexivity; exfalso; nia.
Qed.

Lemma filter_has_rows m r n : forall lo,
  1 <= r ->
  filter has_rows (map (work_for m r) (Zseq lo n))
  = map (work_for m r)
      (Zseq lo (Z.to_nat (Z.min (lo + Z.of_nat n) ((m - 1) / r + 1) - lo))).
Proof.
  induction n as [|n IH]; intros lo Hr.
  - cbn [Zseq map filter]. replace (Z.to_nat _) with 0%nat by lia. reflexivity.
  - cbn [Zseq map filter]. rewrite IH, has_rows_work_for by assumption.
    destruct (Z.ltb_spec lo ((m - 1) / r + 1)) as [L|G].
    + replace (Z.to_nat (Z.min (lo + Z.of_nat (S n)) ((m - 1) / r + 1) - lo))
        with (S (Z.to_nat (Z.min (lo + 1 + Z.of_nat n) ((m - 1) / r + 1) - (lo + 1))))
        by lia.
      reflexivity.
    + replace (Z.to_nat (Z.min (lo + Z.of_nat (S n)) ((m - 1) / r + 1) - lo))
        with 0%nat by lia.
      replace (Z.to_nat (Z.min (lo + 1 + Z.of_nat n) ((m - 1) / r + 1) - (lo + 1)))
        with 0%nat by lia.
      reflexivity.
Qed.

(** For 1 <= c <= M, and c*r within [int], the partitioner returns the
    assignments of the cores 0 .. (M-1)/r, where r is the number of rows
    per core. *)
Lemma distributeWork_closed dims c :
  1 <= c <= dims.(M) ->
  c * ceil_double_div dims.(M) c <= INT_MAX ->
  let r := ceil_double_div dims.(M) c in
  1 <= r
  /\ (dims.(M) - 1) / r + 1 <= c
  /\ returned (distributeWork dims c)
     = map (work_for dims.(M) r) (Zseq 0 (Z.to_nat ((dims.(M) - 1) / r + 1))).
Proof.
  intros Hc Hfit r. fold r in Hfit.
  pose proof (ceil_double_div_bounds dims.(M) c ltac:(lia)) as Hb. fold r in Hb.
  assert (Hr : 1 <= r) by nia.
  pose proof (Z.div_mod (dims.(M) - 1) r ltac:(lia)) as E.
  pose proof (Z.mod_pos_bound (dims.(M) - 1) r ltac:(lia)) as B.
  assert (Hk : (dims.(M) - 1) / r + 1 <= c) by nia.
  split; [exact Hr|]. split; [exact Hk|].
  rewrite distributeWork_loop. cbn [returned].
  replace (c >? M dims) with false by (rewrite Z.gtb_ltb; symmetry; apply Z.ltb_ge; lia).
  fold r. rewrite map_work_of_core by (unfold INT_MIN; lia).
  rewrite filter_has_rows by assumption.
  do 2 f_equal. assert (0 <= (dims.(M) - 1) / r) by (apply Z.div_pos; lia). lia.
Qed.

Lemma nth_error_map_Zseq {A : Type} (f : Z -> A) k i a :
  nth_error (map f (Zseq 0 k)) i = Some a ->
  (i < k)%nat /\ a = f (Z.of_nat i).
Proof.
  intros H.
  assert (Hi : (i < k)%nat).
  { rewrite <- (Zseq_length 0 k), <- (length_map f).
    apply nth_error_Some. congruence. }
  split; [exact Hi|].
  rewrite nth_error_map, Zseq_nth_error in H by assumption.
  simpl in H. congruence.
Qed.

(** The cores below (M-1)/r get r rows each: together the rows 0 .. j*r-1. *)
Lemma full_blocks m r j :
  1 <= r -> Z.of_nat j <= (m - 1) / r ->
  flat_map rows_of (map (work_for m r) (Zseq 0 j))
  = Zseq 0 (Z.to_nat (Z.of_nat j * r)).
Proof.
  intros Hr. induction j as [|j IH]; intros Hj; [reflexivity|].
  rewrite Zseq_snoc, map_app, flat_map_app, IH by lia.
  cbn [map flat_map]. rewrite app_nil_r.
  unfold rows_of, work_for. cbn [startRow endRow].
  pose proof (Z.div_mod (m - 1) r ltac:(lia)) as E.
  pose proof (Z.mod_pos_bound (m - 1) r ltac:(lia)) as B.
  assert (Hmin : Z.min ((0 + Z.of_nat j + 1) * r - 1) (m - 1)
                 = (0 + Z.of_nat j + 1) * r - 1) by nia.
  rewrite Hmin.
  replace (Z.to_nat (Z.of_nat (S j) * r))
    with (Z.to_nat (Z.of_nat j * r)
          + Z.to_nat ((0 + Z.of_nat j + 1) * r - 1 + 1 - (0 + Z.of_nat j) * r))%nat
    by nia.
  rewrite Zseq_app. do 2 f_equal. nia.
Qed.

(** C2 (as amended).  For positive dimensions and 1 <= c <= M such that
    c times the rows per core, ceil(M/c), is at most INT_MAX, the
    assignments returned by the partitioner are not empty, have strictly
    increasing coreId, each has startRow <= endRow, each starts one row
    after the end of the one before, the first starts at row 0 and the
    last ends at row M-1; listing the rows of all assignments in order
    gives 0, 1, ..., M-1, each row once. *)
Theorem distributeWork_partition (dims : MatrixDimensions) (c : Z)
    (HM : 0 < dims.(M)) (HN : 0 < dims.(N)) (HK : 0 < dims.(K))
    (Hc : 1 <= c <= dims.(M))
    (Hfit : c * ceil_double_div dims.(M) c <= INT_MAX) :
  let L := returned (distributeWork dims c) in
  (forall i a b, nth_error L i = Some a -> nth_error L (S i) = Some b ->
     a.(coreId) < b.(coreId) /\ b.(startRow) = a.(endRow) + 1)
  /\ Forall (fun w => w.(startRow) <= w.(endRow)) L
  /\ (exists first final,
        hd_error L = Some first
        /\ nth_error L (List.length L - 1) = Some final
        /\ first.(startRow) = 0
        /\ final.(endRow) = dims.(M) - 1)
  /\ flat_map rows_of L = Zseq 0 (Z.to_nat dims.(M)).
Proof.
  intros L.
  destruct (distributeWork_closed dims c Hc Hfit) as (Hr & Hk & EL).
  fold L in EL. set (r := ceil_double_div (M dims) c) in *.
  set (q := (M dims - 1) / r) in *.
  pose proof (Z.div_mod (dims.(M) - 1) r ltac:(lia)) as E. fold q in E.
  pose proof (Z.mod_pos_bound (dims.(M) - 1) r ltac:(lia)) as B.
  assert (Hq : 0 <= q) by (apply Z.div_pos; lia).
  assert (Hqn : Z.to_nat (q + 1) = S (Z.to_nat q)) by lia.
  split; [|split; [|split]].
  - intros i a b Ha Hb. rewrite EL in Ha, Hb.
    apply nth_error_map_Zseq in Ha, Hb.
    destruct Ha as [_ ->], Hb as [Hi ->].
    unfold work_for. cbn [coreId startRow endRow]. split; [lia|]. nia.
  - rewrite EL. apply Forall_forall. intros w Hw.
    apply in_map_iff in Hw. destruct Hw as (x & <- & Hx).
    apply Zseq_In in Hx. unfold work_for. cbn [startRow endRow]. nia.
  - exists (work_for (M dims) r 0), (work_for (M dims) r q).
    rewrite EL, length_map, Zseq_length, Hqn.
    split; [reflexivity|]. split.
    + rewrite nth_error_map, Zseq_nth_error by lia.
      simpl. do 2 f_equal. lia.
    + unfold work_for. cbn [startRow endRow]. split; [lia|nia].
  - rewrite EL, Hqn, Zseq_snoc, map_app, flat_map_app.
    rewrite full_blocks by (fold q; lia).
    cbn [map flat_map]. rewrite app_nil_r.
    unfold rows_of, work_for. cbn [startRow endRow].
    replace (Z.min ((0 + Z.of_nat (Z.to_nat q) + 1) * r - 1) (M dims - 1))
      with (M dims - 1) by nia.
    replace (Z.to_nat (M dims))
      with (Z.to_nat (Z.of_nat (Z.to_nat q) * r)
            + Z.to_nat (M dims - 1 + 1 - (0 + Z.of_nat (Z.to_nat q)) * r))%nat
      by nia.
    rewrite Zseq_app. do 2 f_equal. nia.
Qed.

Lemma distributeWork_partition_witness :
  let dims := mkDims 5 3 2 in
  returned (distributeWork dims 4)
    = [mkWork 0 0 1; mkWork 1 2 3; mkWork 2 4 4]
  /\ flat_map rows_of (returned (distributeWork dims 4)) = [0; 1; 2; 3; 4].
Proof.
  intros dims. split; [reflexivity|].
  destruct (distributeWork_partition dims 4
              ltac:(simpl; lia) ltac:(simpl; lia) ltac:(simpl; lia)
              ltac:(simpl; lia) ltac:(vm_compute; discriminate))
    as (_ & _ & _ & P).
  exact P.
Defined.

(** C2 as stated fails where the arithmetic of [int] overflows: for
    M = 2147483647 (N = K = 1) and c = 3 the rows per core are 715827883,
    the product 3 * 715827883 leaves the range of [int], the end row of
    core 2 comes out below its start row and the core is dropped; the
    last assignment ends at row 1431655765 and not at row M-1. *)
Lemma distributeWork_overflow_counterexample :
  let dims := mkDims 2147483647 1 1 in
  let L := returned (distributeWork dims 3) in
  (0 < dims.(M) /\ 0 < dims.(N) /\ 0 < dims.(K) /\ 1 <= 3 <= dims.(M))
  /\ L = [mkWork 0 0 715827882; mkWork 1 715827883 1431655765]
  /\ ~ (exists final,
          nth_error L (List.length L - 1) = Some final
          /\ final.(endRow) = dims.(M) - 1).
Proof.
  cbv zeta.
  assert (E : returned (distributeWork (mkDims 2147483647 1 1) 3)
              = [mkWork 0 0 715827882; mkWork 1 715827883 1431655765])
    by (vm_compute; reflexivity).
  rewrite E. cbn [M N K]. split; [lia|]. split; [reflexivity|].
  intros (final & Hf & He). cbn in Hf. injection Hf as <-.
  cbn in He. discriminate He.
Qed.

(** C6.  For M > 0 and more requested cores than rows (the count c being
    an [int], so c <= INT_MAX) the partitioner prints the warning, goes on
    with M cores and one row per core, and returns M assignments, the
    n-th with coreId n, startRow n and endRow n. *)
Theorem distributeWork_clamp (dims : MatrixDimensions) (c : Z)
    (HM : 0 < dims.(M)) (Hc : c > dims.(M)) (Hint : c <= INT_MAX) :
  returned (distributeWork dims c)
    = map (fun n => mkWork n n n) (Zseq 0 (Z.to_nat dims.(M)))
  /\ List.length (returned (distributeWork dims c)) = Z.to_nat dims.(M)
  /\ (forall n w, nth_error (returned (distributeWork dims c)) n = Some w ->
        w = mkWork (Z.of_nat n) (Z.of_nat n) (Z.of_nat n))
  /\ Forall (fun w => rows_of w = [w.(startRow)]) (returned (distributeWork dims c))
  /\ hd_error (printed (distributeWork dims c))
       = Some (warning_line c dims.(M))
  /\ nth_error (printed (distributeWork dims c)) 1
       = Some (distributing_line dims.(M) dims.(M) 1).
Proof.
  rewrite distributeWork_loop. cbn [returned printed].
  replace (c >? M dims) with true by (symmetry; apply Z.gtb_lt; lia).
  rewrite ceil_double_div_same by assumption.
  assert (EL : filter has_rows
                 (map (work_of_core (M dims) 1) (Zseq 0 (Z.to_nat (M dims))))
               = map (fun n => mkWork n n n) (Zseq 0 (Z.to_nat (M dims)))).
  { rewrite map_work_of_core by (unfold INT_MIN; lia).
    rewrite filter_has_rows by lia.
    rewrite Z.div_1_r.
    replace (Z.to_nat (Z.min (0 + Z.of_nat (Z.to_nat (M dims))) (M dims - 1 + 1) - 0))
      with (Z.to_nat (M dims)) by lia.
    apply map_ext_in. intros x Hx. apply Zseq_In in Hx.
    unfold work_for. f_equal; lia. }
  rewrite EL.
  split; [reflexivity|].
  split; [now rewrite length_map, Zseq_length|].
  split.
  { intros n w Hn. apply nth_error_map_Zseq in Hn. tauto. }
  split.
  { apply Forall_forall. intros w Hw. apply in_map_iff in Hw.
    destruct Hw as (x & <- & _). unfold rows_of. cbn [startRow endRow].
    replace (Z.to_nat (x + 1 - x)) with 1%nat by lia. reflexivity. }
  split; reflexivity.
Qed.

Lemma distributeWork_clamp_witness :
  let dims := mkDims 3 2 2 in
  returned (distributeWork dims 8) = [mkWork 0 0 0; mkWork 1 1 1; mkWork 2 2 2]
  /\ hd_error (printed (distributeWork dims 8))
     = Some "Warning: More cores (8) than matrix rows (3). Using only 3 cores.".
Proof.
  intros dims.
  destruct (distributeWork_clamp dims 8 ltac:(simpl; lia) ltac:(simpl; lia)
              ltac:(unfold INT_MAX; lia))
    as (R & _ & _ & _ & W & _).
  split; [exact R | exact W].
Defined.

(* ================================================================== *)
(** * Memory layout planner *)

Lemma ceil_div_bounds a b : 0 < b -> (ceil_div a b - 1) * b < a <= ceil_div a b * b.
Proof. apply ceil_double_div_bounds. Qed.

Lemma ceil_div_least a b q : 0 < b -> a <= q * b -> ceil_div a b <= q.
Proof. intros Hb Hq. pose proof (ceil_div_bounds a b Hb). nia. Qed.

(** The rounding-up division of the planner is the ceiling on sizes >= 0
    for which size + 511 is still an [int]. *)
Lemma round_up_quot a :
  0 <= a -> a + 511 <= INT_MAX ->
  (a +i MEMORY_ROW_SIZE -i 1) ÷ MEMORY_ROW_SIZE = ceil_div a 512.
Proof.
  intros Ha Hfit. unfold MEMORY_ROW_SIZE.
  unfold int_sub, int_add.
  replace (to_int32 (a + 512) - 1) with (to_int32 (a + 512) + -1) by ring.
  rewrite to_int32_add_l.
  rewrite to_int32_exact by (unfold INT_MIN, INT_MAX in *; lia).
  rewrite Z.quot_div_nonneg by lia.
  unfold ceil_div. Z.div_mod_to_equations. lia.
Qed.

Lemma ceil_div_upper a : 0 <= a -> ceil_div a 512 <= a.
Proof.
  intros Ha. destruct (Z.eq_dec a 0) as [-> | Hn]; [reflexivity|].
  apply ceil_div_least; lia.
Qed.

Lemma ceil_div_pos a : 0 < a -> 0 < ceil_div a 512.
Proof. intros Ha. pose proof (ceil_div_bounds a 512 ltac:(lia)). lia. Qed.

Lemma Zseq_NoDup n : forall lo, NoDup (Zseq lo n).
Proof.
  induction n as [|n IH]; intros lo; simpl; constructor.
  - rewrite Zseq_In. lia.
  - apply IH.
Qed.


(** The base addresses of the planner, in closed form. *)
Lemma layout_base_addresses dims :
  0 < dims.(M) -> 0 < dims.(N) -> 0 < dims.(K) ->
  dims.(M) * dims.(K) + 511 <= INT_MAX ->
  dims.(K) * dims.(N) + 511 <= INT_MAX ->
  let map := returned (optimizeMemoryLayout dims) in
  map.(baseAddrA) = 0
  /\ map.(baseAddrB) = ceil_div (dims.(M) * dims.(K)) 512
  /\ map.(baseAddrC)
     = ceil_div (dims.(M) * dims.(K)) 512 + ceil_div (dims.(K) * dims.(N)) 512.
Proof.
  intros HM HN HK HfitA HfitB map.
  assert (PA : 0 <= dims.(M) * dims.(K)) by nia.
  assert (PB : 0 <= dims.(K) * dims.(N)) by nia.
  pose proof (ceil_div_upper _ PA) as UA.
  pose proof (ceil_div_upper _ PB) as UB.
  pose proof (ceil_div_pos (dims.(M) * dims.(K)) ltac:(nia)) as LA.
  pose proof (ceil_div_pos (dims.(K) * dims.(N)) ltac:(nia)) as LB.
  unfold map, optimizeMemoryLayout. cbn [returned baseAddrA baseAddrB baseAddrC].
  rewrite (int_mul_exact (M dims) (K dims)), (int_mul_exact (K dims) (N dims))
    by (unfold INT_MIN, INT_MAX in *; lia).
  rewrite !round_up_quot by assumption.
  split; [reflexivity|]. split; [reflexivity|].
  apply int_add_exact. unfold INT_MIN, INT_MAX in *.
  pose proof (ceil_div_bounds (dims.(M) * dims.(K)) 512 ltac:(lia)).
  pose proof (ceil_div_bounds (dims.(K) * dims.(N)) 512 ltac:(lia)).
  lia.
Qed.

(** C4 (as amended).  For positive dimensions whose sizes M*K and K*N,
    increased by 511, are at most INT_MAX, the planner returns
    baseAddrA = 0 < baseAddrB < baseAddrC with
    baseAddrB - baseAddrA = ceil(M*K/512) and
    baseAddrC - baseAddrB = ceil(K*N/512); the memory rows of A, B and C,
    in this order, are the rows 0, 1, 2, ... without gap or repetition. *)
Theorem optimizeMemoryLayout_bases (dims : MatrixDimensions)
    (HM : 0 < dims.(M)) (HN : 0 < dims.(N)) (HK : 0 < dims.(K))
    (HfitA : dims.(M) * dims.(K) + 511 <= INT_MAX)
    (HfitB : dims.(K) * dims.(N) + 511 <= INT_MAX) :
  let map := returned (optimizeMemoryLayout dims) in
  let rowsA := ceil_div (dims.(M) * dims.(K)) 512 in
  let rowsB := ceil_div (dims.(K) * dims.(N)) 512 in
  let rowsC := ceil_div (dims.(M) * dims.(N)) 512 in
  map.(baseAddrA) = 0
  /\ 0 < map.(baseAddrB)
  /\ map.(baseAddrB) < map.(baseAddrC)
  /\ map.(baseAddrB) - map.(baseAddrA) = rowsA
  /\ map.(baseAddrC) - map.(baseAddrB) = rowsB
  /\ (occupied_rows map.(baseAddrA) rowsA ++ occupied_rows map.(baseAddrB) rowsB
      ++ occupied_rows map.(baseAddrC) rowsC)%list
     = Zseq 0 (Z.to_nat (rowsA + rowsB + rowsC))
  /\ NoDup (occupied_rows map.(baseAddrA) rowsA ++ occupied_rows map.(baseAddrB) rowsB
            ++ occupied_rows map.(baseAddrC) rowsC)%list.
Proof.
  intros map rowsA rowsB rowsC.
  assert (EA : map.(baseAddrA) = 0) by reflexivity.
  destruct (layout_base_addresses dims HM HN HK HfitA HfitB) as (_ & EB & EC).
  fold map rowsA rowsB in EB, EC.
  assert (PA : 0 < rowsA) by (apply ceil_div_pos; nia).
  assert (PB : 0 < rowsB) by (apply ceil_div_pos; nia).
  assert (PC : 0 < rowsC) by (apply ceil_div_pos; nia).
  assert (ER : (occupied_rows map.(baseAddrA) rowsA ++ occupied_rows map.(baseAddrB) rowsB
                ++ occupied_rows map.(baseAddrC) rowsC)%list
               = Zseq 0 (Z.to_nat (rowsA + rowsB + rowsC))).
  { rewrite EA, EB, EC. unfold occupied_rows.
    replace (Z.to_nat (rowsA + rowsB + rowsC))
      with (Z.to_nat rowsA + (Z.to_nat rowsB + Z.to_nat rowsC))%nat by lia.
    rewrite !Zseq_app. do 3 f_equal; lia. }
  rewrite ER. repeat split; try lia. apply Zseq_NoDup.
Qed.

Lemma optimizeMemoryLayout_bases_witness :
  let map := returned (optimizeMemoryLayout (mkDims 64 64 64)) in
  map.(baseAddrA) = 0 /\ map.(baseAddrB) = 8 /\ map.(baseAddrC) = 16
  /\ map.(baseAddrB) - map.(baseAddrA) = ceil_div (64 * 64) 512.
Proof.
  intros map.
  destruct (optimizeMemoryLayout_bases (mkDims 64 64 64)
              ltac:(simpl; lia) ltac:(simpl; lia) ltac:(simpl; lia)
              ltac:(vm_compute; discriminate) ltac:(vm_compute; discriminate))
    as (A & _ & _ & B & _).
  split; [exact A|]. split; [reflexivity|]. split; [reflexivity|]. exact B.
Defined.

(** C4 as stated fails where the arithmetic of [int] overflows: for
    M = 65536, N = 1, K = 65536 the size M*K = 2^32 of A is reduced to 0,
    the planner gives A no memory row, and baseAddrB = 0 = baseAddrA. *)
Lemma optimizeMemoryLayout_overflow_counterexample :
  let dims := mkDims 65536 1 65536 in
  let map := returned (optimizeMemoryLayout dims) in
  (0 < dims.(M) /\ 0 < dims.(N) /\ 0 < dims.(K))
  /\ map.(baseAddrA) = 0
  /\ map.(baseAddrB) = 0
  /\ ~ (map.(baseAddrA) = 0 /\ 0 < map.(baseAddrB)
        /\ map.(baseAddrB) < map.(baseAddrC)).
Proof.
  cbv zeta. split; [cbn; lia|].
  assert (E : baseAddrB (returned (optimizeMemoryLayout (mkDims 65536 1 65536))) = 0)
    by (vm_compute; reflexivity).
  split; [reflexivity|]. split; [exact E|].
  rewrite E. intros (_ & H & _). lia.
Qed.

(** A row of A fits in one memory row exactly when K <= 512. *)
Lemma rowsPerMatrixRowA_single dims :
  0 < dims.(K) <= 512 ->
  (returned (optimizeMemoryLayout dims)).(rowsPerMatrixRowA) = 1.
Proof.
  intros HK. unfold optimizeMemoryLayout. cbn [returned rowsPerMatrixRowA].
  rewrite round_up_quot by (unfold INT_MAX; lia).
  pose proof (ceil_div_bounds dims.(K) 512 ltac:(lia)). lia.
Qed.

Lemma rowsPerMatrixRowA_several dims :
  512 < dims.(K) -> dims.(K) + 511 <= INT_MAX ->
  (returned (optimizeMemoryLayout dims)).(rowsPerMatrixRowA) > 1.
Proof.
  intros HK Hfit. unfold optimizeMemoryLayout. cbn [returned rowsPerMatrixRowA].
  rewrite round_up_quot by lia.
  pose proof (ceil_div_bounds dims.(K) 512 ltac:(lia)). lia.
Qed.

(** On non-negative indices the truncating division and remainder of C++
    are the quotient and remainder of the integers. *)
Lemma quot_rem_nonneg a : 0 <= a -> a ÷ 512 = a / 512 /\ Z.rem a 512 = a mod 512.
Proof.
  intros Ha. split; [apply Z.quot_div_nonneg | apply Z.rem_mod_nonneg]; lia.
Qed.

(* ================================================================== *)
(** * Core instruction sequencer *)

(** The sequencer's loops, block by block, for either way of loading a
    row of A. *)
Lemma generateCoreInstructions_blocks coreId startRow endRow dims memMap :
  generateCoreInstructions coreId startRow endRow dims memMap
  = core_program
      (if memMap.(rowsPerMatrixRowA) >? 1
       then row_load_segments coreId memMap
       else row_load_simple coreId memMap)
      coreId startRow endRow dims memMap.
Proof.
  unfold generateCoreInstructions, core_program. cbv zeta.
  rewrite (for_le_append
             (row_block (if memMap.(rowsPerMatrixRowA) >? 1
                         then row_load_segments coreId memMap
                         else row_load_simple coreId memMap)
                coreId dims memMap)).
  - unfold push_back. cbn [app]. rewrite <- ?app_assoc. reflexivity.
  - intros i acc. unfold row_block.
    rewrite (for_lt_append (column_block coreId dims memMap i)).
    + rewrite Z.sub_0_r. unfold push_back.
      destruct (memMap.(rowsPerMatrixRowA) >? 1).
      * rewrite (for_lt_append (segment_load coreId memMap i)).
        -- rewrite Z.sub_0_r. unfold row_load_segments.
           rewrite <- ?app_assoc. reflexivity.
        -- intros segment acc'. unfold segment_load.
           rewrite <- ?app_assoc. reflexivity.
      * unfold row_load_simple, MEMORY_ROW_SIZE.
        rewrite <- ?app_assoc. reflexivity.
    + intros j acc'. unfold column_block.
      rewrite (for_lt_append (dot_product_step coreId memMap j)).
      * rewrite Z.sub_0_r. unfold push_back, store_pair, MEMORY_ROW_SIZE.
        rewrite <- ?app_assoc. reflexivity.
      * intros k acc''. unfold push_back, dot_product_step, MEMORY_ROW_SIZE.
        rewrite <- ?app_assoc. reflexivity.
Qed.

Lemma flat_map_ext_in {A B : Type} (f g : A -> list B) (l : list A) :
  (forall x, In x l -> f x = g x) -> flat_map f l = flat_map g l.
Proof.
  intros H. induction l as [|x l IH]; [reflexivity|].
  cbn [flat_map]. rewrite H by (left; reflexivity).
  rewrite IH by (intros y Hy; apply H; now right). reflexivity.
Qed.

(** The blocks of the sequencer for indices that fit an [int]: the index
    is the exact one, and the sum with the base address may be read as
    exact, because the text of the instruction keeps its low nine bits
    only. *)
Lemma row_load_simple_exact coreId memMap i :
  INT_MIN <= i * memMap.(rowSizeA) <= INT_MAX ->
  row_load_simple coreId memMap i
  = [ genExeInstr coreId true false
        (memMap.(baseAddrA) + (i * memMap.(rowSizeA)) ÷ 512);
      genExeInstr coreId false false (Z.rem (i * memMap.(rowSizeA)) 512) ].
Proof.
  intros H. unfold row_load_simple.
  now rewrite genExeInstr_int_add, int_mul_exact by exact H.
Qed.

Lemma int_index_exact a b j :
  INT_MIN <= a * b + j <= INT_MAX -> a *i b +i j = a * b + j.
Proof.
  intros H. unfold int_add, int_mul. rewrite to_int32_add_l.
  now apply to_int32_exact.
Qed.

Lemma dot_product_step_exact coreId memMap j k :
  INT_MIN <= k * memMap.(rowSizeB) + j <= INT_MAX ->
  dot_product_step coreId memMap j k
  = [ genExeInstr coreId true false
        (memMap.(baseAddrB) + (k * memMap.(rowSizeB) + j) ÷ 512);
      genExeInstr coreId false false (Z.rem (k * memMap.(rowSizeB) + j) 512);
      genExeInstr coreId false false 2 ].
Proof.
  intros H. unfold dot_product_step. cbv zeta.
  now rewrite genExeInstr_int_add, int_index_exact by exact H.
Qed.

Lemma store_pair_exact coreId memMap i j :
  INT_MIN <= i * memMap.(rowSizeC) + j <= INT_MAX ->
  store_pair coreId memMap i j
  = [ genExeInstr coreId false true
        (memMap.(baseAddrC) + (i * memMap.(rowSizeC) + j) ÷ 512);
      genExeInstr coreId false false (Z.rem (i * memMap.(rowSizeC) + j) 512) ].
Proof.
  intros H. unfold store_pair. cbv zeta.
  now rewrite genExeInstr_int_add, int_index_exact by exact H.
Qed.

Lemma segment_load_exact coreId memMap i segment :
  segment_load coreId memMap i segment
  = [ genExeInstr coreId true false
        (memMap.(baseAddrA) + i * memMap.(rowsPerMatrixRowA) + segment);
      genExeInstr coreId false false 0 ].
Proof.
  unfold segment_load, int_add, int_mul. rewrite genExeInstr_to_int32.
  destruct (to_int32_congr (i * memMap.(rowsPerMatrixRowA))) as [k1 ->].
  destruct (to_int32_congr
              (memMap.(baseAddrA) + (i * memMap.(rowsPerMatrixRowA) + k1 * 2 ^ 32)))
    as [k2 ->].
  rewrite <- (genExeInstr_to_int32 _ _ _ (_ + segment)).
  rewrite <- (genExeInstr_to_int32 _ _ _
                (memMap.(baseAddrA) + i * memMap.(rowsPerMatrixRowA) + segment)).
  do 2 f_equal. symmetry. rewrite <- (to_int32_shift _ (k1 + k2)). f_equal. ring.
Qed.

(** C3 (as amended).  When a row of A takes one memory row
    (rowsPerMatrixRowA = 1) and the indices i*rowSizeA, k*rowSizeB + j
    and i*rowSizeC + j of the assignment are in the range of [int], the
    sequencer emits, after the header and PROG and before END, for each
    row i of the assignment: the A load pair, EXE(read) at
    baseAddrA + (i*rowSizeA)/512 then EXE at (i*rowSizeA)%512; then for
    each column j the comment and accumulator clear, for each k the B load
    pair at baseAddrB + bIndex/512 and bIndex%512 with
    bIndex = k*rowSizeB + j followed by the multiply-accumulate EXE with
    address 2, and after the k loop the store pair, EXE(write) at
    baseAddrC + cIndex/512 then EXE at cIndex%512 with
    cIndex = i*rowSizeC + j.  Products, sums, division and remainder are
    those of the integers (the division truncating, as in C++). *)
Theorem generateCoreInstructions_single_row (coreId startRow endRow : Z)
    (dims : MatrixDimensions) (memMap : MemoryMap)
    (Hrows : memMap.(rowsPerMatrixRowA) = 1)
    (HA : forall i, startRow <= i <= endRow ->
            INT_MIN <= i * memMap.(rowSizeA) <= INT_MAX)
    (HB : forall j k, 0 <= j < dims.(N) -> 0 <= k < dims.(K) ->
            INT_MIN <= k * memMap.(rowSizeB) + j <= INT_MAX)
    (HC : forall i j, startRow <= i <= endRow -> 0 <= j < dims.(N) ->
            INT_MIN <= i * memMap.(rowSizeC) + j <= INT_MAX) :
  generateCoreInstructions coreId startRow endRow dims memMap
  = single_row_listing coreId startRow endRow dims memMap.
Proof.
  rewrite generateCoreInstructions_blocks, Hrows.
  change (1 >? 1) with false. cbv iota. unfold core_program, single_row_listing.
  do 2 f_equal. apply flat_map_ext_in. intros i Hi. apply Zseq_In in Hi.
  unfold row_block. rewrite row_load_simple_exact by (apply HA; lia).
  cbn [app]. do 3 f_equal.
  apply flat_map_ext_in. intros j Hj. apply Zseq_In in Hj.
  unfold column_block. rewrite store_pair_exact by (apply HC; lia).
  cbn [app]. do 2 f_equal. apply (f_equal (fun l => (l ++ _)%list)).
  apply flat_map_ext_in. intros k Hk. apply Zseq_In in Hk.
  apply dot_product_step_exact, HB; lia.
Qed.

Lemma generateCoreInstructions_single_row_witness :
  let dims := mkDims 1 1 1 in
  let memMap := returned (optimizeMemoryLayout dims) in
  memMap.(rowsPerMatrixRowA) = 1
  /\ generateCoreInstructions 0 0 0 dims memMap
     = [ "# Instructions for Core 0 (Rows 0 to 0)"; "020401";
         "# Processing row 0"; "040400"; "040000";
         "# Computing element C[0][0]"; "040000";
         "040401"; "040000"; "040002";
         "040202"; "040000";
         "060000" ].
Proof.
  intros dims memMap.
  assert (H : memMap.(rowsPerMatrixRowA) = 1) by reflexivity.
  split; [exact H|].
  rewrite (generateCoreInstructions_single_row 0 0 0 dims memMap H);
    [reflexivity | | |];
    intros; change (rowSizeA memMap) with 1; change (rowSizeB memMap) with 1;
    change (rowSizeC memMap) with 1; cbn [N K dims] in *;
    unfold INT_MIN, INT_MAX; lia.
Defined.

(** C3 as stated fails where the index arithmetic of [int] overflows:
    for M = 65536, N = 65536, K = 1 and the map of the planner (a row of
    A takes one memory row, baseAddrC = 256), the index of C[32768][1],
    32768*65536 + 1, is reduced to -2147483647; its truncated quotient by
    512 added to baseAddrC gives a row address whose low nine bits are
    257, so the store instruction of the sequence (entry 17) is 040301,
    where the formula of the integers gives row 256, text 040300. *)
Lemma generateCoreInstructions_overflow_counterexample :
  let dims := mkDims 65536 65536 1 in
  let memMap := returned (optimizeMemoryLayout dims) in
  let out := generateCoreInstructions 0 32768 32768 dims memMap in
  memMap.(rowsPerMatrixRowA) = 1
  /\ nth_error out 17 = Some "040301"
  /\ nth_error (single_row_listing 0 32768 32768 dims memMap) 17
     = Some (genExeInstr 0 false true
               (memMap.(baseAddrC) + (32768 * memMap.(rowSizeC) + 1) ÷ 512))
  /\ genExeInstr 0 false true
       (memMap.(baseAddrC) + (32768 * memMap.(rowSizeC) + 1) ÷ 512) = "040300"
  /\ out <> single_row_listing 0 32768 32768 dims memMap.
Proof.
  intros dims memMap out.
  assert (E1 : nth_error out 17 = Some "040301").
  { unfold out. rewrite generateCoreInstructions_blocks. lazy. reflexivity. }
  assert (E2 : nth_error (single_row_listing 0 32768 32768 dims memMap) 17
               = Some "040300") by (lazy; reflexivity).
  split; [reflexivity|]. split; [exact E1|]. split; [exact E2|].
  split; [vm_compute; reflexivity|].
  intros E. rewrite E, E2 in E1. discriminate E1.
Qed.

(** Instruction texts with different read flags or different 9-bit
    addresses are different. *)
Lemma genExeInstr_inj c r w a c' r' w' a' :
  genExeInstr c r w a = genExeInstr c' r' w' a' ->
  r = r' /\ w = w' /\ Z.land a 0x1FF = Z.land a' 0x1FF.
Proof.
  intros H. apply (f_equal decodeInstr) in H.
  rewrite !genExeInstr_word, !decodeInstr_to_hex_string in H.
  inversion H. auto.
Qed.

Lemma is_load_genExeInstr c r w a : is_load (genExeInstr c r w a) = r.
Proof.
  unfold is_load. rewrite genExeInstr_word, decodeInstr_to_hex_string.
  reflexivity.
Qed.

Lemma segment_loads_count c memMap i l :
  List.length (filter is_load (flat_map (segment_load c memMap i) l))
  = List.length l.
Proof.
  induction l as [|x l IH]; [reflexivity|].
  cbn [flat_map]. rewrite segment_load_exact. cbn [app filter].
  rewrite !is_load_genExeInstr. cbn [List.length]. now rewrite IH.
Qed.

(** C9.  When a row of A takes several memory rows
    (rowsPerMatrixRowA > 1) the sequencer emits for each row i of the
    assignment and each segment in [0, rowsPerMatrixRowA), one load
    EXE(read) at baseAddrA + i*rowsPerMatrixRowA + segment, followed by an
    EXE with address 0; among the instructions of the segments there are
    exactly rowsPerMatrixRowA loads and no multiply-accumulate EXE
    (address 2).  The column blocks that follow are those of the
    single-row path. *)
Theorem generateCoreInstructions_segmented (coreId startRow endRow : Z)
    (dims : MatrixDimensions) (memMap : MemoryMap)
    (Hrows : memMap.(rowsPerMatrixRowA) > 1) :
  generateCoreInstructions coreId startRow endRow dims memMap
  = ([ core_header coreId startRow endRow; genProgInstr coreId true false 1 ]
     ++ flat_map
          (fun i =>
             [ row_comment i ]
             ++ flat_map
                  (fun segment =>
                     [ genExeInstr coreId true false
                         (memMap.(baseAddrA) + i * memMap.(rowsPerMatrixRowA)
                          + segment);
                       genExeInstr coreId false false 0 ])
                  (Zseq 0 (Z.to_nat memMap.(rowsPerMatrixRowA)))
             ++ flat_map (column_block coreId dims memMap i)
                  (Zseq 0 (Z.to_nat dims.(N))))
          (Zseq startRow (Z.to_nat (endRow + 1 - startRow)))
     ++ [ genEndInstr coreId false false 0 ])%list
  /\ (forall i,
        Z.of_nat (List.length (filter is_load (row_load_segments coreId memMap i)))
        = memMap.(rowsPerMatrixRowA))
  /\ (forall i,
        ~ In (genExeInstr coreId false false 2)
             (row_load_segments coreId memMap i)).
Proof.
  split; [|split].
  - rewrite generateCoreInstructions_blocks.
    replace (memMap.(rowsPerMatrixRowA) >? 1) with true
      by (symmetry; apply Z.gtb_lt; lia).
    unfold core_program, row_block, row_load_segments.
    do 2 f_equal. apply flat_map_ext. intros i. do 2 f_equal.
    apply flat_map_ext. intros segment. apply segment_load_exact.
  - intros i. unfold row_load_segments.
    rewrite segment_loads_count, Zseq_length. lia.
  - intros i Hin. unfold row_load_segments in Hin.
    apply in_flat_map in Hin. destruct Hin as (segment & _ & Hin).
    rewrite segment_load_exact in Hin. cbn [In] in Hin.
    destruct Hin as [H | [H | []]]; apply genExeInstr_inj in H.
    + destruct H as (H & _). discriminate H.
    + destruct H as (_ & _ & H). vm_compute in H. discriminate H.
Qed.

Lemma generateCoreInstructions_segmented_witness :
  let dims := mkDims 1 1 600 in
  let memMap := returned (optimizeMemoryLayout dims) in
  memMap.(rowsPerMatrixRowA) = 2
  /\ row_load_segments 3 memMap 0 = ["041c00"; "041800"; "041c01"; "041800"]
  /\ ~ In (genExeInstr 3 false false 2) (row_load_segments 3 memMap 0).
Proof.
  intros dims memMap.
  assert (H : memMap.(rowsPerMatrixRowA) > 1) by reflexivity.
  destruct (generateCoreInstructions_segmented 3 0 0 dims memMap H)
    as (_ & _ & NoMac).
  split; [reflexivity|]. split; [reflexivity|]. apply NoMac.
Defined.

(** C5.  For M=4, N=3, K=2 and 2 cores the partitioner returns core 0
    with rows 0-1 and core 1 with rows 2-3.  For each of them the
    sequencer's first entry that is not a comment is the PROG instruction
    of the core, the only PROG; its last entry is the END instruction, the
    only END; it has 1 + rows*(2 + N*(1 + 3K + 2)) + 1 = 60 entries that
    are not comments; and these entries, decoded, are: the PROG
    instruction; for each row i of the core the address-load pair of A
    (EXE with the read flag at memory row 0, EXE with the offset 2*i);
    for each column j the accumulator clear (EXE, address 0), for k = 0, 1
    the load pair of B (EXE with the read flag at memory row 1, EXE with
    the offset 3*k + j) followed by the multiply-accumulate EXE (address
    2), and the store pair (EXE with the write flag at memory row 2, EXE
    with the offset 3*i + j); the END instruction. *)
Theorem end_to_end_4_3_2 :
  let dims := mkDims 4 3 2 in
  let memMap := returned (optimizeMemoryLayout dims) in
  returned (distributeWork dims 2) = [mkWork 0 0 1; mkWork 1 2 3]
  /\ Forall
       (fun w =>
          let out := generateCoreInstructions w.(coreId) w.(startRow)
                       w.(endRow) dims memMap in
          let code := filter is_instruction out in
          let rows := w.(endRow) - w.(startRow) + 1 in
          let exe := mkInstr EXE w.(coreId) in
          hd_error code = Some (genProgInstr w.(coreId) true false 1)
          /\ option_map opcode_of (hd_error code) = Some (Some PROG)
          /\ count_opcode PROG code = 1%nat
          /\ last out "" = genEndInstr w.(coreId) false false 0
          /\ opcode_of (last out "") = Some END
          /\ count_opcode END code = 1%nat
          /\ Z.of_nat (List.length code)
             = 1 + rows * (2 + dims.(N) * (1 + 3 * dims.(K) + 2)) + 1
          /\ List.length code = 60%nat
          /\ map decodeInstr code
             = map Some
                 ([ mkInstr PROG w.(coreId) true false 1 ]
                  ++ flat_map
                       (fun i =>
                          [ exe true false 0; exe false false (2 * i) ]
                          ++ flat_map
                               (fun j =>
                                  [ exe false false 0 ]
                                  ++ flat_map
                                       (fun k =>
                                          [ exe true false 1;
                                            exe false false (3 * k + j);
                                            exe false false 2 ])
                                       [0; 1]
                                  ++ [ exe false true 2;
                                       exe false false (3 * i + j) ])
                               [0; 1; 2])
                       (rows_of w)
                  ++ [ mkInstr END w.(coreId) false false 0 ])%list)
       (returned (distributeWork dims 2)).
Proof.
  intros dims memMap.
  assert (E : returned (distributeWork dims 2) = [mkWork 0 0 1; mkWork 1 2 3])
    by reflexivity.
  split; [exact E|]. rewrite E.
  repeat constructor; vm_compute; reflexivity.
Qed.

(* ================================================================== *)
(** * Counting the encoded instructions of a core *)

Lemma hex_digit_not_hash d : Ascii.eqb (hex_digit d) "#" = false.
Proof.
  destruct d as [|p|p]; [reflexivity| |reflexivity].
  do 4 (destruct p as [p|p|]; try reflexivity).
Qed.

Lemma is_instruction_hex_digits fuel : forall n acc,
  (0 < fuel)%nat \/ is_instruction acc = true ->
  is_instruction (hex_digits fuel n acc) = true.
Proof.
  induction fuel as [|fuel IH]; intros n acc H.
  - destruct H as [H | H]; [lia | exact H].
  - cbn [hex_digits].
    assert (Hd : is_instruction (String (hex_digit (n mod 16)) acc) = true)
      by (cbn [is_instruction]; now rewrite hex_digit_not_hash).
    destruct (n / 16 =? 0); [exact Hd|]. apply IH. now right.
Qed.

Lemma is_instruction_fill_left n s :
  is_instruction s = true -> is_instruction (fill_left n "0"%char s) = true.
Proof. destruct n; intros H; [exact H | reflexivity]. Qed.

Lemma is_instruction_to_hex_string v : is_instruction (to_hex_string v) = true.
Proof.
  unfold to_hex_string, setw_setfill, stream_hex.
  apply is_instruction_fill_left, is_instruction_hex_digits. left. lia.
Qed.

Lemma is_instruction_genExeInstr c r w a : is_instruction (genExeInstr c r w a) = true.
Proof. apply is_instruction_to_hex_string. Qed.

Lemma is_instruction_genProgInstr c r w a : is_instruction (genProgInstr c r w a) = true.
Proof. apply is_instruction_to_hex_string. Qed.

Lemma is_instruction_genEndInstr c r w a : is_instruction (genEndInstr c r w a) = true.
Proof. apply is_instruction_to_hex_string. Qed.

Lemma is_instruction_element_comment i j : is_instruction (element_comment i j) = false.
Proof. reflexivity. Qed.

Lemma is_instruction_row_comment i : is_instruction (row_comment i) = false.
Proof. reflexivity. Qed.

Lemma is_instruction_core_header c s e : is_instruction (core_header c s e) = false.
Proof. reflexivity. Qed.

Lemma count_flat_map_const {A B : Type} (p : B -> bool) (f : A -> list B)
    (l : list A) (c : nat) :
  (forall x, List.length (filter p (f x)) = c) ->
  List.length (filter p (flat_map f l)) = (c * List.length l)%nat.
Proof.
  intros H. induction l as [|x l IH]; simpl; [lia|].
  rewrite filter_app, length_app, H, IH. lia.
Qed.

Lemma count_dot_product_step c memMap j k :
  List.length (filter is_instruction (dot_product_step c memMap j k)) = 3%nat.
Proof.
  unfold dot_product_step. cbn [filter].
  now rewrite !is_instruction_genExeInstr.
Qed.

Lemma count_column_block c dims memMap i j :
  List.length (filter is_instruction (column_block c dims memMap i j))
  = (1 + 3 * Z.to_nat dims.(K) + 2)%nat.
Proof.
  unfold column_block, store_pair.
  rewrite !filter_app, !length_app.
  rewrite (count_flat_map_const _ _ _ 3) by apply count_dot_product_step.
  rewrite Zseq_length. cbn [filter].
  rewrite is_instruction_element_comment, !is_instruction_genExeInstr.
  cbn [List.length]. lia.
Qed.

(** The count of C5 for every assignment with at least one row, when a
    row of A fits in one memory row: one PROG, per row the address pair
    and N blocks of 1 + 3K + 2 instructions, one END. *)
Lemma instruction_count coreId startRow endRow dims memMap :
  memMap.(rowsPerMatrixRowA) <= 1 ->
  startRow <= endRow -> 0 <= dims.(N) -> 0 <= dims.(K) ->
  Z.of_nat (List.length
              (filter is_instruction
                 (generateCoreInstructions coreId startRow endRow dims memMap)))
  = 1 + (endRow - startRow + 1) * (2 + dims.(N) * (1 + 3 * dims.(K) + 2)) + 1.
Proof.
  intros Hrows Hse HN HK.
  rewrite generateCoreInstructions_blocks.
  replace (memMap.(rowsPerMatrixRowA) >? 1) with false
    by (rewrite Z.gtb_ltb; symmetry; apply Z.ltb_ge; lia).
  unfold core_program. rewrite !filter_app, !length_app.
  rewrite (count_flat_map_const _ _ _
             (2 + (1 + 3 * Z.to_nat dims.(K) + 2) * Z.to_nat dims.(N))).
  - rewrite Zseq_length. cbn [filter].
    rewrite is_instruction_core_header, is_instruction_genProgInstr,
      is_instruction_genEndInstr.
    cbn [List.length]. nia.
  - intros i. unfold row_block, row_load_simple.
    rewrite !filter_app, !length_app.
    rewrite (count_flat_map_const _ _ _ (1 + 3 * Z.to_nat dims.(K) + 2))
      by apply count_column_block.
    rewrite Zseq_length. cbn [filter].
    rewrite is_instruction_row_comment, !is_instruction_genExeInstr.
    cbn [List.length]. lia.
Qed.

(* ================================================================== *)
(** * Pipeline driver *)

(** The three override statements, one after the other. *)
Lemma overrides_in_turn parsed overrideM overrideN overrideK :
  let d1 := if overrideM >? 0
            then mkDims overrideM parsed.(N) parsed.(K) else parsed in
  let d2 := if overrideN >? 0 then mkDims d1.(M) overrideN d1.(K) else d1 in
  let d3 := if overrideK >? 0 then mkDims d2.(M) d2.(N) overrideK else d2 in
  d3 = apply_overrides parsed overrideM overrideN overrideK.
Proof.
  unfold apply_overrides. destruct parsed as [m n k]; cbn [M N K].
  destruct (overrideM >? 0), (overrideN >? 0), (overrideK >? 0); reflexivity.
Qed.

Lemma str_empty_instruction s : is_instruction s = true -> str_empty s = false.
Proof. destruct s; [discriminate | reflexivity]. Qed.

Lemma core_sequence_ends c s e dims memMap :
  exists front,
    generateCoreInstructions c s e dims memMap
    = (front ++ [genEndInstr c false false 0])%list.
Proof.
  rewrite generateCoreInstructions_blocks. unfold core_program.
  eexists. rewrite app_assoc. reflexivity.
Qed.

(** The loop of [main] over the assignments: an empty line goes before a
    core's sequence unless the listing ends with an empty line. *)
Lemma listing_loop (blk : WorkAssignment -> list string) :
  (forall w, exists front e, blk w = (front ++ [e])%list /\ str_empty e = false) ->
  forall works acc,
    fold_left
      (fun all w =>
         ((if (negb (vec_empty all) && negb (str_empty (last all "")))%bool
           then push_back all "" else all) ++ blk w)%list)
      works acc
    = if str_empty (last acc "")
      then (acc ++ join_blank (map blk works))%list
      else match works with
           | [] => acc
           | _ => (acc ++ "" :: join_blank (map blk works))%list
           end.
Proof.
  intros Hblk. induction works as [|w works IH]; intros acc.
  - cbn [fold_left map join_blank]. rewrite app_nil_r.
    destruct (str_empty (last acc "")); reflexivity.
  - cbn [fold_left]. rewrite IH.
    destruct (Hblk w) as (front & e & Eb & He).
    assert (Hl : forall pre, str_empty (last (pre ++ blk w) "") = false).
    { intros pre. rewrite Eb, app_assoc, last_last. exact He. }
    rewrite Hl.
    assert (Hj : join_blank (map blk (w :: works))
                 = match works with
                   | [] => blk w
                   | _ => (blk w ++ "" :: join_blank (map blk works))%list
                   end)
      by (destruct works; reflexivity).
    rewrite Hj.
    destruct (str_empty (last acc "")) eqn:El.
    + rewrite andb_false_r.
      destruct works; [reflexivity|]. now rewrite <- app_assoc.
    + assert (Hv : vec_empty acc = false) by (destruct acc; [discriminate El | reflexivity]).
      rewrite Hv. cbn [negb andb]. unfold push_back.
      destruct works.
      * rewrite <- app_assoc. reflexivity.
      * rewrite <- !app_assoc. reflexivity.
Qed.

(** A run of [main] that passes the validation, in closed form. *)
Lemma main_valid outputFile tacOpens outOpens parsed numCores overrideM
    overrideN overrideK :
  0 < parsed.(M) -> 0 < parsed.(N) -> 0 < parsed.(K) ->
  let dims := apply_overrides parsed overrideM overrideN overrideK in
  main outputFile tacOpens outOpens parsed numCores overrideM overrideN overrideK
  = {| exitCode := if outOpens then 0 else 1;
       cerr := ((if tacOpens then [] else [tac_open_error outputFile])
                ++ (if outOpens then [] else [out_open_error outputFile]))%list;
       tacFile :=
         if tacOpens
         then Some (writeThreeAddressCodeToFile (generateThreeAddressCode dims))
         else None;
       outFile :=
         if outOpens
         then Some (map output_line (program_listing dims numCores))
         else None |}.
Proof.
  intros HM HN HK dims. unfold main.
  replace ((M parsed <=? 0) || (N parsed <=? 0) || (K parsed <=? 0))%bool
    with false
    by (symmetry; rewrite !orb_false_iff, !Z.leb_gt; auto).
  pose proof (overrides_in_turn parsed overrideM overrideN overrideK) as ED.
  cbv zeta in ED. fold dims in ED. rewrite ED.
  rewrite (listing_loop
             (fun w => generateCoreInstructions w.(coreId) w.(startRow)
                         w.(endRow) dims (returned (optimizeMemoryLayout dims)))).
  - unfold push_back, tac_open_error, out_open_error, program_listing, output_line.
    cbn [app last str_empty].
    destruct tacOpens, outOpens; reflexivity.
  - intros w. destruct (core_sequence_ends w.(coreId) w.(startRow) w.(endRow)
                          dims (returned (optimizeMemoryLayout dims)))
      as [front E].
    exists front, (genEndInstr w.(coreId) false false 0). split; [exact E|].
    apply str_empty_instruction, is_instruction_genEndInstr.
Qed.

(** C7 (as amended).  The driver validates the dimensions the parser
    returned, before the overrides: it stops on invalid dimensions, with
    exit code 1, the invalid-dimensions line as the only line on
    std::cerr and neither output file, exactly when the parsed M, N or K
    is <= 0.  Otherwise it applies the overrides whose value is > 0, the
    dimensions after the overrides are all positive, and the compile
    proceeds with them: the three-address code, the work partition, the
    memory layout and the sequence of every core are computed from the
    dimensions after the overrides.  The run then returns 0 with the
    program written, unless the program file cannot be opened: then it
    returns 1 with the line that says so and no program; a
    three-address-code file that cannot be opened costs a line on
    std::cerr and nothing else. *)
Theorem main_validates_parsed_dimensions (outputFile : string)
    (tacOpens outOpens : bool) (parsed : MatrixDimensions)
    (numCores overrideM overrideN overrideK : Z) :
  let r := main outputFile tacOpens outOpens parsed numCores overrideM
             overrideN overrideK in
  let dims := apply_overrides parsed overrideM overrideN overrideK in
  let works := returned (distributeWork dims numCores) in
  let memMap := returned (optimizeMemoryLayout dims) in
  (r.(cerr) = [invalid_dimensions_line parsed]
   <-> parsed.(M) <= 0 \/ parsed.(N) <= 0 \/ parsed.(K) <= 0)
  /\ (((parsed.(M) <= 0 \/ parsed.(N) <= 0 \/ parsed.(K) <= 0)
       /\ r.(exitCode) = 1
       /\ r.(cerr) = [invalid_dimensions_line parsed]
       /\ r.(tacFile) = None
       /\ r.(outFile) = None)
      \/
      ((0 < parsed.(M) /\ 0 < parsed.(N) /\ 0 < parsed.(K))
       /\ (0 < dims.(M) /\ 0 < dims.(N) /\ 0 < dims.(K))
       /\ r.(tacFile)
          = (if tacOpens
             then Some (writeThreeAddressCodeToFile (generateThreeAddressCode dims))
             else None)
       /\ r.(outFile)
          = (if outOpens
             then Some (map output_line
                          ([ "# PIM Instructions for Matrix Multiplication";
                             dimensions_comment dims;
                             cores_comment (List.length works);
                             "" ]
                           ++ join_blank
                                (map (fun w =>
                                        generateCoreInstructions w.(coreId)
                                          w.(startRow) w.(endRow) dims memMap)
                                   works))%list)
             else None)
       /\ r.(exitCode) = (if outOpens then 0 else 1)
       /\ r.(cerr)
          = ((if tacOpens then [] else [tac_open_error outputFile])
             ++ (if outOpens then [] else [out_open_error outputFile]))%list)).
Proof.
  intros r dims works memMap.
  destruct ((M parsed <=? 0) || (N parsed <=? 0) || (K parsed <=? 0))%bool eqn:V.
  - assert (Hinv : parsed.(M) <= 0 \/ parsed.(N) <= 0 \/ parsed.(K) <= 0).
    { apply orb_true_iff in V. destruct V as [V | V];
        [apply orb_true_iff in V; destruct V as [V | V]|];
        apply Z.leb_le in V; auto. }
    assert (E : r = {| exitCode := 1; cerr := [invalid_dimensions_line parsed];
                       tacFile := None; outFile := None |})
      by (unfold r, main; rewrite V; reflexivity).
    rewrite E. cbn [exitCode cerr tacFile outFile].
    split; [tauto|]. left. auto.
  - apply orb_false_iff in V. destruct V as [V VK].
    apply orb_false_iff in V. destruct V as [VM VN].
    apply Z.leb_gt in VM, VN, VK.
    unfold r. rewrite main_valid by assumption.
    cbn [exitCode cerr tacFile outFile]. split.
    + split; [|lia]. intros H. exfalso.
      unfold invalid_dimensions_line, tac_open_error, out_open_error in H.
      destruct tacOpens, outOpens; cbn [app append] in H; discriminate H.
    + right. split; [auto|]. split.
      { unfold dims, apply_overrides. cbn [M N K].
        destruct (Z.gtb_spec overrideM 0), (Z.gtb_spec overrideN 0),
          (Z.gtb_spec overrideK 0); lia. }
      repeat split.
Qed.

(** C7 as stated fails: for an input file with #define M 0, #define N 3
    and #define K 2 and the options -M 4 -c 2 the dimensions after the
    overrides are 4, 3, 2, all positive, and the driver still stops with
    exit code 1 and no output. *)
Lemma main_override_counterexample :
  let parsed := mkDims 0 3 2 in
  let dims := apply_overrides parsed 4 (-1) (-1) in
  let r := main "output.pim" true true parsed 2 4 (-1) (-1) in
  dims = mkDims 4 3 2
  /\ r.(exitCode) = 1
  /\ r.(cerr) = ["Error: Invalid matrix dimensions: 0x2 * 2x3"]
  /\ r.(tacFile) = None
  /\ r.(outFile) = None
  /\ ~ (r.(exitCode) = 1 <-> (dims.(M) <= 0 \/ dims.(N) <= 0 \/ dims.(K) <= 0)).
Proof.
  cbv zeta. repeat (split; [reflexivity|]).
  intros [H _]. specialize (H eq_refl). cbn in H. lia.
Qed.

(* ================================================================== *)
(** * Further properties: instruction encoder *)

Lemma land_24bit_range v : 0 <= Z.land v 0xFFFFFF < 2 ^ 24.
Proof.
  change 0xFFFFFF with (Z.ones 24). rewrite Z.land_ones by lia.
  apply Z.mod_pos_bound. lia.
Qed.

Lemma to_hex_string_land v : to_hex_string v = to_hex_string (Z.land v 0xFFFFFF).
Proof.
  unfold to_hex_string.
  now rewrite (land_24bit (Z.land v 0xFFFFFF)) by apply land_24bit_range.
Qed.

Lemma is_lower_hex_digit d : is_lower_hex (hex_digit d) = true.
Proof.
  destruct d as [|p|p]; [reflexivity| |reflexivity].
  do 4 (destruct p as [p|p|]; try reflexivity).
Qed.

Lemma lower_hex_digits fuel : forall n acc,
  string_forall is_lower_hex acc = true ->
  string_forall is_lower_hex (hex_digits fuel n acc) = true.
Proof.
  induction fuel as [|fuel IH]; intros n acc H; [exact H|].
  cbn [hex_digits].
  assert (Hd : string_forall is_lower_hex (String (hex_digit (n mod 16)) acc) = true)
    by (cbn [string_forall]; now rewrite is_lower_hex_digit, H).
  destruct (n / 16 =? 0); [exact Hd | now apply IH].
Qed.

Lemma lower_hex_fill_left n s :
  string_forall is_lower_hex s = true ->
  string_forall is_lower_hex (fill_left n "0"%char s) = true.
Proof. intros H. induction n; simpl; auto. Qed.

Lemma to_hex_string_six value : String.length (to_hex_string value) = 6%nat.
Proof. rewrite to_hex_string_land. apply to_hex_string_length, land_24bit_range. Qed.

Lemma parse_to_hex_string_low value :
  parse_hex (to_hex_string value) 0 = Some (value mod 2 ^ 24).
Proof.
  rewrite to_hex_string_land, parse_to_hex_string by apply land_24bit_range.
  change 0xFFFFFF with (Z.ones 24). now rewrite Z.land_ones by lia.
Qed.

(** X1.  [to_hex_string] is defined on every [int]: the text has exactly
    six characters, all of them among 0-9 and a-f, and read as a
    hexadecimal number it is the low 24 bits of the value. *)
Theorem to_hex_string_total (value : Z) :
  String.length (to_hex_string value) = 6%nat
  /\ string_forall is_lower_hex (to_hex_string value) = true
  /\ parse_hex (to_hex_string value) 0 = Some (value mod 2 ^ 24).
Proof.
  split; [|split].
  - apply to_hex_string_six.
  - unfold to_hex_string, setw_setfill, stream_hex.
    apply lower_hex_fill_left, lower_hex_digits. reflexivity.
  - apply parse_to_hex_string_low.
Qed.

Lemma instr_word_masked op c r w a c' a' :
  Z.land c 0x3F = Z.land c' 0x3F -> Z.land a 0x1FF = Z.land a' 0x1FF ->
  instr_word op c r w a = instr_word op c' r w a'.
Proof. intros Hc Ha. unfold instr_word. now rewrite Hc, Ha. Qed.

(** X2.  Two instructions built by the PROG, EXE and END generators have
    the same text exactly when they have the same opcode, the same flags,
    the same coreId modulo 64 and the same address modulo 512: nothing
    else of the operands reaches the text, and nothing of these is lost. *)
Theorem encodeInstr_same_text (op1 op2 : Opcode) (c1 c2 : Z)
    (r1 r2 w1 w2 : bool) (a1 a2 : Z)
    (H1 : op1 <> NOOP) (H2 : op2 <> NOOP) :
  encodeInstr op1 c1 r1 w1 a1 = encodeInstr op2 c2 r2 w2 a2
  <-> op1 = op2 /\ c1 mod 64 = c2 mod 64 /\ r1 = r2 /\ w1 = w2
      /\ a1 mod 512 = a2 mod 512.
Proof.
  rewrite !encodeInstr_word by assumption.
  assert (Lc : forall c, Z.land c 0x3F = c mod 64)
    by (intros c; change 0x3F with (Z.ones 6); now rewrite Z.land_ones by lia).
  assert (La : forall a, Z.land a 0x1FF = a mod 512)
    by (intros a; change 0x1FF with (Z.ones 9); now rewrite Z.land_ones by lia).
  split.
  - intros H. apply (f_equal decodeInstr) in H.
    rewrite !decodeInstr_to_hex_string in H. inversion H as [[Ho Hc Hr Hw Ha]].
    rewrite !Lc in Hc. rewrite !La in Ha. auto.
  - intros (-> & Hc & -> & -> & Ha).
    f_equal. apply instr_word_masked; rewrite ?Lc, ?La; assumption.
Qed.

Lemma encodeInstr_same_text_witness :
  genExeInstr 70 true false 515 = genExeInstr 6 true false 3
  /\ genExeInstr 6 true false 3 <> genEndInstr 6 true false 3.
Proof.
  assert (HE : EXE <> NOOP) by discriminate.
  assert (HN : END <> NOOP) by discriminate.
  split.
  - apply (encodeInstr_same_text EXE EXE 70 6 true true false false 515 3 HE HE).
    repeat split; reflexivity.
  - intros H.
    apply (encodeInstr_same_text EXE END 6 6 true true false false 3 3 HE HN) in H.
    destruct H as [H _]. discriminate H.
Defined.

(** The word of an instruction is below 2^19: its text starts with 0. *)
Lemma to_hex_string_leading_zero v :
  0 <= v < 2 ^ 20 -> exists rest, to_hex_string v = String "0" rest.
Proof.
  intros H. unfold to_hex_string, setw_setfill.
  rewrite land_24bit by (change (2 ^ 24) with 16777216; change (2 ^ 20) with 1048576 in H; lia).
  pose proof (length_hex_digits 8 5 v "" ltac:(lia) H) as L.
  fold (stream_hex v) in L. simpl String.length in L.
  destruct (6 - String.length (stream_hex v))%nat as [|n] eqn:E; [lia|].
  eexists. reflexivity.
Qed.

Lemma instr_text_leading_zero op c r w a :
  exists rest, to_hex_string (instr_word op c r w a) = String "0" rest.
Proof.
  apply to_hex_string_leading_zero.
  rewrite instr_word_sum. pose proof (word_sum_range op c r w a).
  change (2 ^ 20) with 1048576. lia.
Qed.

(** X3.  Whatever the operands, the text of an encoded instruction starts
    with the digit 0 (the bits 20 to 23 of the word are never set), and the
    opcode read from the bits 18-17 of the text is the one of the
    generator. *)
Theorem encodeInstr_leading_zero (op : Opcode) (coreId : Z) (read write : bool)
    (addr : Z) :
  (exists rest, encodeInstr op coreId read write addr = String "0" rest)
  /\ opcode_of (encodeInstr op coreId read write addr) = Some op.
Proof.
  destruct op; cbn [encodeInstr];
    rewrite ?genNoOpInstr_word, ?genProgInstr_word, ?genExeInstr_word,
      ?genEndInstr_word;
    (split; [apply instr_text_leading_zero
            | unfold opcode_of; now rewrite decodeInstr_to_hex_string]).
Qed.

(* ================================================================== *)
(** * Further properties: hexToBinary and the three-address-code file *)

Lemma append_assoc_str (a b c : string) : (a ++ b) ++ c = a ++ (b ++ c).
Proof. induction a; simpl; congruence. Qed.

Lemma length_append_str (a b : string) :
  String.length (a ++ b) = (String.length a + String.length b)%nat.
Proof. induction a; simpl; congruence. Qed.

Lemma hexToBinary_loop_acc hex : forall binary,
  hexToBinary_loop hex binary = binary ++ hexToBinary_loop hex "".
Proof.
  induction hex as [|c hex IH]; intros binary; cbn [hexToBinary_loop].
  - now rewrite append_empty_r.
  - rewrite IH, (IH ("" ++ hexToBinary_digit c)). cbn [append].
    now rewrite append_assoc_str.
Qed.

Lemma hexToBinary_cons c hex :
  hexToBinary (String c hex) = hexToBinary_digit c ++ hexToBinary hex.
Proof.
  unfold hexToBinary. cbn [hexToBinary_loop append].
  apply hexToBinary_loop_acc.
Qed.

Lemma hexToBinary_digit_length c : String.length (hexToBinary_digit c) = 4%nat.
Proof.
  destruct c as [[] [] [] [] [] [] [] []]; reflexivity.
Qed.

(** Four binary digits for a hexadecimal digit of either case, four
    question marks for any other character. *)
Lemma hexToBinary_digit_value c :
  forall acc,
    parse_binary (hexToBinary_digit c) acc
    = match hex_value c with
      | Some d => Some (16 * acc + d)
      | None => None
      end.
Proof.
  intros acc.
  destruct c as [[] [] [] [] [] [] [] []];
    cbv -[Z.mul Z.add]; try reflexivity; f_equal; lia.
Qed.

Lemma parse_binary_app a : forall b acc,
  parse_binary (a ++ b) acc
  = match parse_binary a acc with
    | Some v => parse_binary b v
    | None => None
    end.
Proof.
  induction a as [|c a IH]; intros b acc; cbn [append parse_binary]; [reflexivity|].
  destruct (Ascii.eqb c "0"); [apply IH|].
  destruct (Ascii.eqb c "1"); [apply IH | reflexivity].
Qed.

Lemma hexToBinary_length s :
  String.length (hexToBinary s) = (4 * String.length s)%nat.
Proof.
  induction s as [|c s IH]; [reflexivity|].
  rewrite hexToBinary_cons, length_append_str, hexToBinary_digit_length, IH.
  simpl String.length. lia.
Qed.

Lemma parse_binary_hexToBinary s :
  forall acc, parse_binary (hexToBinary s) acc = parse_hex s acc.
Proof.
  induction s as [|c s IH]; intros acc; [reflexivity|].
  rewrite hexToBinary_cons, parse_binary_app, hexToBinary_digit_value.
  cbn [parse_hex]. destruct (hex_value c); [apply IH | reflexivity].
Qed.

(** X4.  [hexToBinary] writes four characters for every character of its
    argument, and the result read as a binary number is the argument read
    as a hexadecimal number (digits in upper or lower case; neither is a
    number when a character is no hexadecimal digit).  For the six digits
    [to_hex_string] makes of a value these are 24 characters, the 24 low
    bits of the value. *)
Theorem hexToBinary_value (hex : string) (value : Z) :
  String.length (hexToBinary hex) = (4 * String.length hex)%nat
  /\ parse_binary (hexToBinary hex) 0 = parse_hex hex 0
  /\ String.length (hexToBinary (to_hex_string value)) = 24%nat
  /\ parse_binary (hexToBinary (to_hex_string value)) 0 = Some (value mod 2 ^ 24).
Proof.
  split; [apply hexToBinary_length|]. split; [apply parse_binary_hexToBinary|]. split.
  - rewrite hexToBinary_length, to_hex_string_six. reflexivity.
  - rewrite parse_binary_hexToBinary. apply parse_to_hex_string_low.
Qed.

Lemma fold_left_push_back {A : Type} (l : list A) :
  forall init, fold_left (fun v x => push_back v x) l init = (init ++ l)%list.
Proof.
  induction l as [|x l IH]; intros init; simpl.
  - now rewrite app_nil_r.
  - rewrite IH. unfold push_back. now rewrite <- app_assoc.
Qed.

(** X5.  The three-address-code file is the two header lines, one empty
    line and then the lines of the code, unchanged and in order; for the
    code of the IR generator that is 30 lines whatever the dimensions. *)
Theorem writeThreeAddressCodeToFile_lines (tac : ThreeAddressCode)
    (dims : MatrixDimensions) :
  writeThreeAddressCodeToFile tac
    = ("# Three-Address Code for Matrix Multiplication"
       :: "# =====================================" :: "" :: tac.(instructions))
  /\ List.length (writeThreeAddressCodeToFile (generateThreeAddressCode dims))
     = 30%nat.
Proof.
  assert (E : forall t, writeThreeAddressCodeToFile t
              = ("# Three-Address Code for Matrix Multiplication"
                 :: "# =====================================" :: ""
                 :: t.(instructions))).
  { intros t. unfold writeThreeAddressCodeToFile. cbv zeta.
    now rewrite fold_left_push_back. }
  split; [apply E|]. rewrite E. reflexivity.
Qed.

(* ================================================================== *)
(** * Further properties: work partitioner *)

(** With more cores than rows the partitioner returns what it returns for
    as many cores as rows. *)
Lemma distributeWork_clamped_returned dims c :
  c > dims.(M) ->
  returned (distributeWork dims c) = returned (distributeWork dims dims.(M)).
Proof.
  intros Hc. rewrite !distributeWork_loop. cbn [returned].
  replace (c >? M dims) with true by (symmetry; apply Z.gtb_lt; lia).
  replace (M dims >? M dims) with false
    by (rewrite Z.gtb_ltb; symmetry; apply Z.ltb_irrefl).
  reflexivity.
Qed.

Lemma map_coreId_work_for m r l : map coreId (map (work_for m r) l) = l.
Proof. rewrite map_map. cbn [work_for coreId]. apply map_id. Qed.

(** X6.  For 1 <= c <= M let r be the rows per core, the ceiling of M/c,
    and let c*r be at most INT_MAX.  The cores that get an assignment are
    numbered 0, 1, 2, ... without a gap, and core n < c gets one exactly
    when n*r < M: the cores from ceil(M/r) on are left without work and
    without an entry. *)
Theorem distributeWork_cores_used (dims : MatrixDimensions) (c : Z)
    (Hc : 1 <= c <= dims.(M))
    (Hfit : c * ceil_double_div dims.(M) c <= INT_MAX) :
  let L := returned (distributeWork dims c) in
  let r := ceil_double_div dims.(M) c in
  map coreId L = Zseq 0 (List.length L)
  /\ Z.of_nat (List.length L) = (dims.(M) - 1) / r + 1
  /\ Z.of_nat (List.length L) <= c
  /\ (forall n, In n (map coreId L) <-> 0 <= n /\ n * r < dims.(M)).
Proof.
  intros L r.
  destruct (distributeWork_closed dims c Hc Hfit) as (Hr & Hk & EL).
  fold L r in EL, Hr, Hk.
  pose proof (Z.div_mod (dims.(M) - 1) r ltac:(lia)) as E.
  pose proof (Z.mod_pos_bound (dims.(M) - 1) r ltac:(lia)) as B.
  assert (Hq : 0 <= (dims.(M) - 1) / r) by (apply Z.div_pos; lia).
  assert (Len : List.length L = Z.to_nat ((dims.(M) - 1) / r + 1))
    by (rewrite EL, length_map, Zseq_length; reflexivity).
  split; [|split; [|split]].
  - rewrite Len, EL. apply map_coreId_work_for.
  - rewrite Len. lia.
  - rewrite Len. lia.
  - intros n. rewrite EL, map_coreId_work_for, Zseq_In. split; intros H; nia.
Qed.

Lemma distributeWork_cores_used_witness :
  let dims := mkDims 5 3 2 in
  map coreId (returned (distributeWork dims 4)) = [0; 1; 2]
  /\ ~ In 3 (map coreId (returned (distributeWork dims 4))).
Proof.
  intros dims.
  destruct (distributeWork_cores_used dims 4 ltac:(simpl; lia)
              ltac:(vm_compute; discriminate))
    as (E & _ & _ & I).
  split; [exact E|]. intros H. apply I in H. vm_compute in H.
  destruct H as [_ H]. discriminate H.
Defined.

(** The closed form of the partition for any requested count c >= 1. *)
Lemma distributeWork_closed_any dims c :
  1 <= dims.(M) -> 1 <= c ->
  Z.min c dims.(M) * ceil_double_div dims.(M) (Z.min c dims.(M)) <= INT_MAX ->
  let r := ceil_double_div dims.(M) (Z.min c dims.(M)) in
  let q := (dims.(M) - 1) / r in
  1 <= r /\ 0 <= q /\ q + 1 <= Z.min c dims.(M)
  /\ q * r <= dims.(M) - 1 < (q + 1) * r
  /\ returned (distributeWork dims c)
     = map (work_for dims.(M) r) (Zseq 0 (Z.to_nat (q + 1))).
Proof.
  intros HM Hc Hfit r q.
  set (c' := Z.min c dims.(M)) in *.
  assert (Hc' : 1 <= c' <= dims.(M)) by (unfold c'; lia).
  assert (EL0 : returned (distributeWork dims c) = returned (distributeWork dims c')).
  { unfold c'. destruct (Z.le_gt_cases c dims.(M)) as [Hle | Hgt].
    - now rewrite Z.min_l by lia.
    - rewrite Z.min_r by lia. apply distributeWork_clamped_returned. lia. }
  destruct (distributeWork_closed dims c' Hc' Hfit) as (Hr & Hk & EL).
  change (ceil_double_div (M dims) c') with r in Hr, Hk, EL.
  change ((M dims - 1) / r) with q in Hk, EL.
  pose proof (Z.div_mod (dims.(M) - 1) r ltac:(lia)) as E. fold q in E.
  pose proof (Z.mod_pos_bound (dims.(M) - 1) r ltac:(lia)) as B.
  assert (Hq : 0 <= q) by (apply Z.div_pos; lia).
  repeat split; try lia. now rewrite EL0.
Qed.

Lemma fold_right_add_acc l : forall a,
  fold_right Z.add a l = fold_right Z.add 0 l + a.
Proof. induction l as [|x l IH]; intros a; simpl; [lia|]. rewrite IH. lia. Qed.

(** The row counts of the cores below q add up to the rows before core q. *)
Lemma row_count_sum m r q n :
  1 <= r -> q * r <= m - 1 -> Z.of_nat n <= q ->
  fold_right Z.add 0 (map row_count (map (work_for m r) (Zseq 0 n)))
  = Z.of_nat n * r.
Proof.
  intros Hr Hq. induction n as [|n IH]; intros Hn; [reflexivity|].
  rewrite Zseq_snoc, !map_app, fold_right_app. cbn [map fold_right].
  rewrite fold_right_add_acc, IH by lia.
  unfold row_count, work_for. cbn [startRow endRow]. nia.
Qed.

(** The row counts of a partition add up to M. *)
Lemma row_count_total dims c :
  1 <= dims.(M) -> 1 <= c ->
  Z.min c dims.(M) * ceil_double_div dims.(M) (Z.min c dims.(M)) <= INT_MAX ->
  fold_right Z.add 0 (map row_count (returned (distributeWork dims c))) = dims.(M).
Proof.
  intros HM Hc Hfit.
  destruct (distributeWork_closed_any dims c HM Hc Hfit) as (Hr & Hq & _ & Hb & EL).
  set (r := ceil_double_div dims.(M) (Z.min c dims.(M))) in *.
  set (q := (dims.(M) - 1) / r) in *.
  rewrite EL. replace (Z.to_nat (q + 1)) with (S (Z.to_nat q)) by lia.
  rewrite Zseq_snoc, !map_app, fold_right_app. cbn [map fold_right].
  rewrite fold_right_add_acc, (row_count_sum _ _ q) by lia.
  unfold row_count, work_for. cbn [startRow endRow]. nia.
Qed.

(** X7.  For M >= 1 and any requested core count c >= 1, with
    r = ceil(M / min(c, M)) rows per core and min(c, M)*r at most INT_MAX,
    the partitioner returns at most min(c, M) assignments; each has at
    least one row and at most r rows, each but the last has exactly r
    rows, and the row counts add up to M. *)
Theorem distributeWork_sizes (dims : MatrixDimensions) (c : Z)
    (HM : 1 <= dims.(M)) (Hc : 1 <= c)
    (Hfit : Z.min c dims.(M) * ceil_double_div dims.(M) (Z.min c dims.(M))
            <= INT_MAX) :
  let L := returned (distributeWork dims c) in
  let r := ceil_double_div dims.(M) (Z.min c dims.(M)) in
  Z.of_nat (List.length L) <= Z.min c dims.(M)
  /\ Forall (fun w => 1 <= row_count w <= r) L
  /\ (forall i w, nth_error L i = Some w -> (S i < List.length L)%nat ->
        row_count w = r)
  /\ fold_right Z.add 0 (map row_count L) = dims.(M).
Proof.
  intros L r.
  destruct (distributeWork_closed_any dims c HM Hc Hfit)
    as (Hr & Hq & Hk & Hb & EL).
  fold r L in Hr, Hq, Hk, Hb, EL.
  set (q := (dims.(M) - 1) / r) in *.
  assert (Len : List.length L = Z.to_nat (q + 1))
    by (rewrite EL, length_map, Zseq_length; reflexivity).
  split; [|split; [|split]].
  - rewrite Len. lia.
  - rewrite EL. apply Forall_forall. intros w Hw.
    apply in_map_iff in Hw. destruct Hw as (x & <- & Hx).
    apply Zseq_In in Hx. unfold row_count, work_for. cbn [startRow endRow]. nia.
  - intros i w Hw Hi. rewrite EL in Hw.
    apply nth_error_map_Zseq in Hw. destruct Hw as [_ ->].
    unfold row_count, work_for. cbn [startRow endRow]. nia.
  - apply row_count_total; assumption.
Qed.

Lemma distributeWork_sizes_witness :
  let dims := mkDims 7 1 1 in
  map row_count (returned (distributeWork dims 3)) = [3; 3; 1]
  /\ fold_right Z.add 0 (map row_count (returned (distributeWork dims 3))) = 7.
Proof.
  intros dims.
  destruct (distributeWork_sizes dims 3 ltac:(simpl; lia) ltac:(lia)
              ltac:(vm_compute; discriminate))
    as (_ & _ & _ & S).
  split; [reflexivity | exact S].
Defined.

(** X8.  With a negative core count, or a negative M, the loop of the
    partitioner runs no iteration: no assignment is returned, and the
    only lines printed are the warning (when the count exceeds M) and the
    summary line. *)
Theorem distributeWork_nothing_to_do (dims : MatrixDimensions) (c : Z)
    (Hneg : c < 0 \/ dims.(M) < 0) :
  returned (distributeWork dims c) = []
  /\ (List.length (printed (distributeWork dims c)) <= 2)%nat.
Proof.
  rewrite distributeWork_loop. cbn [returned printed].
  set (c' := if c >? M dims then M dims else c).
  assert (Hc' : c' < 0).
  { unfold c'. destruct (Z.gtb_spec c (M dims)); lia. }
  replace (Z.to_nat c') with 0%nat by lia.
  cbn [Zseq map filter]. split; [reflexivity|].
  destruct (c >? M dims); simpl; lia.
Qed.

Lemma distributeWork_nothing_to_do_witness :
  returned (distributeWork (mkDims 4 3 2) (-2)) = []
  /\ printed (distributeWork (mkDims 4 3 2) (-2))
     = ["Distributing work: 4 rows across -2 cores (approx. -2 rows per core)"].
Proof.
  destruct (distributeWork_nothing_to_do (mkDims 4 3 2) (-2) ltac:(left; lia))
    as (R & _).
  split; [exact R | reflexivity].
Defined.

(* ================================================================== *)
(** * Further properties: memory layout *)

Lemma rowsPerMatrixRowA_closed dims :
  0 < dims.(K) -> dims.(K) + 511 <= INT_MAX ->
  (returned (optimizeMemoryLayout dims)).(rowsPerMatrixRowA)
  = ceil_div dims.(K) 512.
Proof.
  intros HK Hfit. unfold optimizeMemoryLayout. cbn [returned rowsPerMatrixRowA].
  apply round_up_quot; lia.
Qed.

(** X9.  For positive dimensions with K + 511 and N + 511 at most INT_MAX
    the row widths recorded in the map are K, N, N and each
    rowsPerMatrixRow field is the least number of 512-element memory rows
    that holds one row of its matrix; a row of A fits in a single memory
    row exactly when K <= 512. *)
Theorem optimizeMemoryLayout_row_spans (dims : MatrixDimensions)
    (HM : 0 < dims.(M)) (HN : 0 < dims.(N)) (HK : 0 < dims.(K))
    (HfitK : dims.(K) + 511 <= INT_MAX) (HfitN : dims.(N) + 511 <= INT_MAX) :
  let map := returned (optimizeMemoryLayout dims) in
  map.(rowSizeA) = dims.(K) /\ map.(rowSizeB) = dims.(N)
  /\ map.(rowSizeC) = dims.(N)
  /\ (map.(rowsPerMatrixRowA) - 1) * 512 < map.(rowSizeA)
       <= map.(rowsPerMatrixRowA) * 512
  /\ (map.(rowsPerMatrixRowB) - 1) * 512 < map.(rowSizeB)
       <= map.(rowsPerMatrixRowB) * 512
  /\ (map.(rowsPerMatrixRowC) - 1) * 512 < map.(rowSizeC)
       <= map.(rowsPerMatrixRowC) * 512
  /\ (map.(rowsPerMatrixRowA) = 1 <-> dims.(K) <= 512).
Proof.
  intros map. unfold map, optimizeMemoryLayout.
  cbn [returned rowSizeA rowSizeB rowSizeC rowsPerMatrixRowA rowsPerMatrixRowB
       rowsPerMatrixRowC].
  rewrite !round_up_quot by lia.
  pose proof (ceil_div_bounds dims.(K) 512 ltac:(lia)).
  pose proof (ceil_div_bounds dims.(N) 512 ltac:(lia)).
  repeat split; lia.
Qed.

Lemma optimizeMemoryLayout_row_spans_witness :
  let map := returned (optimizeMemoryLayout (mkDims 2 700 513)) in
  map.(rowsPerMatrixRowA) = 2 /\ map.(rowsPerMatrixRowB) = 2
  /\ (map.(rowsPerMatrixRowA) = 1 <-> 513 <= 512).
Proof.
  intros map.
  destruct (optimizeMemoryLayout_row_spans (mkDims 2 700 513)
              ltac:(simpl; lia) ltac:(simpl; lia) ltac:(simpl; lia)
              ltac:(vm_compute; discriminate) ltac:(vm_compute; discriminate))
    as (_ & _ & _ & _ & _ & _ & I).
  split; [reflexivity|]. split; [reflexivity | exact I].
Defined.

(* ================================================================== *)
(** * Further properties: the instruction sequence of a core *)

Lemma filter_flat_map {A B : Type} (p : B -> bool) (f : A -> list B) (l : list A) :
  filter p (flat_map f l) = flat_map (fun x => filter p (f x)) l.
Proof.
  induction l as [|x l IH]; [reflexivity|].
  cbn [flat_map]. now rewrite filter_app, IH.
Qed.

Lemma Forall_flat_map_all {A B : Type} (P : B -> Prop) (f : A -> list B)
    (l : list A) :
  (forall x, Forall P (f x)) -> Forall P (flat_map f l).
Proof.
  intros H. induction l as [|x l IH]; cbn [flat_map]; [constructor|].
  apply Forall_app. split; [apply H | exact IH].
Qed.

Lemma exe_of_core_intro c r w a : exe_of_core c (genExeInstr c r w a).
Proof. now exists r, w, a. Qed.

Lemma filtered_dot_product_step c memMap j k :
  Forall (exe_of_core c) (filter is_instruction (dot_product_step c memMap j k)).
Proof.
  unfold dot_product_step. cbn [filter]. rewrite !is_instruction_genExeInstr.
  repeat constructor; apply exe_of_core_intro.
Qed.

Lemma filtered_column_block c dims memMap i j :
  Forall (exe_of_core c) (filter is_instruction (column_block c dims memMap i j)).
Proof.
  unfold column_block, store_pair. rewrite !filter_app, filter_flat_map.
  cbn [filter]. rewrite is_instruction_element_comment, !is_instruction_genExeInstr.
  apply Forall_app. split; [repeat constructor; apply exe_of_core_intro|].
  apply Forall_app. split.
  - apply Forall_flat_map_all. intros k. apply filtered_dot_product_step.
  - repeat constructor; apply exe_of_core_intro.
Qed.

Lemma filtered_segments c memMap i l :
  Forall (exe_of_core c)
    (filter is_instruction (flat_map (segment_load c memMap i) l)).
Proof.
  rewrite filter_flat_map. apply Forall_flat_map_all. intros s.
  unfold segment_load. cbn [filter]. rewrite !is_instruction_genExeInstr.
  repeat constructor; apply exe_of_core_intro.
Qed.

Lemma filtered_row_block c dims memMap i :
  Forall (exe_of_core c)
    (filter is_instruction
       (row_block (if memMap.(rowsPerMatrixRowA) >? 1
                   then row_load_segments c memMap
                   else row_load_simple c memMap) c dims memMap i)).
Proof.
  unfold row_block. rewrite !filter_app, filter_flat_map.
  cbn [filter]. rewrite is_instruction_row_comment. cbn [app].
  apply Forall_app. split.
  - destruct (memMap.(rowsPerMatrixRowA) >? 1).
    + apply filtered_segments.
    + unfold row_load_simple. cbn [filter]. rewrite !is_instruction_genExeInstr.
      repeat constructor; apply exe_of_core_intro.
  - apply Forall_flat_map_all. intros j. apply filtered_column_block.
Qed.


Lemma is_comment_genExeInstr c r w a : is_comment (genExeInstr c r w a) = false.
Proof. unfold is_comment. now rewrite is_instruction_genExeInstr. Qed.

Lemma is_comment_genProgInstr c r w a : is_comment (genProgInstr c r w a) = false.
Proof. unfold is_comment. now rewrite is_instruction_genProgInstr. Qed.

Lemma is_comment_genEndInstr c r w a : is_comment (genEndInstr c r w a) = false.
Proof. unfold is_comment. now rewrite is_instruction_genEndInstr. Qed.

Lemma is_comment_element_comment i j : is_comment (element_comment i j) = true.
Proof. reflexivity. Qed.

Lemma is_comment_row_comment i : is_comment (row_comment i) = true.
Proof. reflexivity. Qed.

Lemma is_comment_core_header c s e : is_comment (core_header c s e) = true.
Proof. reflexivity. Qed.

Lemma count_both_flat_map {A : Type} (f : A -> list string) (l : list A)
    (ci cc : nat) :
  (forall x, List.length (filter is_instruction (f x)) = ci
             /\ List.length (filter is_comment (f x)) = cc) ->
  List.length (filter is_instruction (flat_map f l)) = (ci * List.length l)%nat
  /\ List.length (filter is_comment (flat_map f l)) = (cc * List.length l)%nat.
Proof.
  intros H. split; apply count_flat_map_const; intros x; apply H.
Qed.

Lemma counts_dot_product_step c memMap j k :
  List.length (filter is_instruction (dot_product_step c memMap j k)) = 3%nat
  /\ List.length (filter is_comment (dot_product_step c memMap j k)) = 0%nat.
Proof.
  unfold dot_product_step. cbn [filter].
  now rewrite !is_instruction_genExeInstr, !is_comment_genExeInstr.
Qed.

Lemma counts_column_block c dims memMap i j :
  List.length (filter is_instruction (column_block c dims memMap i j))
  = (3 * Z.to_nat dims.(K) + 3)%nat
  /\ List.length (filter is_comment (column_block c dims memMap i j)) = 1%nat.
Proof.
  unfold column_block, store_pair.
  rewrite !filter_app, !length_app.
  destruct (count_both_flat_map (dot_product_step c memMap j)
              (Zseq 0 (Z.to_nat dims.(K))) 3 0
              (counts_dot_product_step c memMap j)) as [-> ->].
  rewrite Zseq_length. cbn [filter].
  rewrite is_instruction_element_comment, is_comment_element_comment,
    !is_instruction_genExeInstr, !is_comment_genExeInstr.
  cbn [List.length]. lia.
Qed.

Lemma counts_row_load c memMap i :
  List.length
    (filter is_instruction
       ((if memMap.(rowsPerMatrixRowA) >? 1
         then row_load_segments c memMap
         else row_load_simple c memMap) i))
  = Z.to_nat (2 * Z.max 1 memMap.(rowsPerMatrixRowA))
  /\ List.length
       (filter is_comment
          ((if memMap.(rowsPerMatrixRowA) >? 1
            then row_load_segments c memMap
            else row_load_simple c memMap) i))
     = 0%nat.
Proof.
  destruct (Z.gtb_spec memMap.(rowsPerMatrixRowA) 1) as [G | L].
  - unfold row_load_segments.
    destruct (count_both_flat_map (segment_load c memMap i)
                (Zseq 0 (Z.to_nat memMap.(rowsPerMatrixRowA))) 2 0) as [-> ->].
    + intros s. unfold segment_load. cbn [filter].
      now rewrite !is_instruction_genExeInstr, !is_comment_genExeInstr.
    + rewrite Zseq_length. lia.
  - unfold row_load_simple. cbn [filter].
    rewrite !is_instruction_genExeInstr, !is_comment_genExeInstr.
    cbn [List.length]. lia.
Qed.

Lemma counts_row_block c dims memMap i :
  let load := if memMap.(rowsPerMatrixRowA) >? 1
              then row_load_segments c memMap
              else row_load_simple c memMap in
  List.length (filter is_instruction (row_block load c dims memMap i))
  = (Z.to_nat (2 * Z.max 1 memMap.(rowsPerMatrixRowA))
     + (3 * Z.to_nat dims.(K) + 3) * Z.to_nat dims.(N))%nat
  /\ List.length (filter is_comment (row_block load c dims memMap i))
     = (1 + Z.to_nat dims.(N))%nat.
Proof.
  intros load. unfold row_block. rewrite !filter_app, !length_app.
  destruct (counts_row_load c memMap i) as [E1 E2]. fold load in E1, E2.
  rewrite E1, E2.
  destruct (count_both_flat_map (column_block c dims memMap i)
              (Zseq 0 (Z.to_nat dims.(N))) (3 * Z.to_nat dims.(K) + 3) 1
              (counts_column_block c dims memMap i)) as [-> ->].
  rewrite Zseq_length. cbn [filter].
  rewrite is_instruction_row_comment, is_comment_row_comment.
  cbn [List.length]. lia.
Qed.

(** The two counts of a core program, whichever way A is loaded. *)
Lemma core_program_counts c startRow endRow dims memMap :
  let out := core_program
               (if memMap.(rowsPerMatrixRowA) >? 1
                then row_load_segments c memMap
                else row_load_simple c memMap)
               c startRow endRow dims memMap in
  List.length (filter is_instruction out)
  = (2 + (Z.to_nat (2 * Z.max 1 memMap.(rowsPerMatrixRowA))
          + (3 * Z.to_nat dims.(K) + 3) * Z.to_nat dims.(N))
         * Z.to_nat (endRow + 1 - startRow))%nat
  /\ List.length (filter is_comment out)
     = (1 + (1 + Z.to_nat dims.(N)) * Z.to_nat (endRow + 1 - startRow))%nat.
Proof.
  intros out. unfold out, core_program.
  rewrite !filter_app, !length_app.
  destruct (count_both_flat_map
              (row_block (if memMap.(rowsPerMatrixRowA) >? 1
                          then row_load_segments c memMap
                          else row_load_simple c memMap)
                 c dims memMap)
              (Zseq startRow (Z.to_nat (endRow + 1 - startRow)))
              _ _ (counts_row_block c dims memMap)) as [-> ->].
  rewrite Zseq_length. cbn [filter].
  rewrite is_instruction_core_header, is_instruction_genProgInstr,
    is_instruction_genEndInstr, is_comment_core_header,
    is_comment_genProgInstr, is_comment_genEndInstr.
  cbn [List.length]. split; lia.
Qed.


(** X14.  An empty row range (endRow < startRow) is not rejected: the
    sequence is then the header comment, the PROG instruction and the END
    instruction, with nothing between them. *)
Theorem generateCoreInstructions_empty_range (coreId startRow endRow : Z)
    (dims : MatrixDimensions) (memMap : MemoryMap)
    (Hempty : endRow < startRow) :
  generateCoreInstructions coreId startRow endRow dims memMap
  = [ core_header coreId startRow endRow;
      genProgInstr coreId true false 1;
      genEndInstr coreId false false 0 ].
Proof.
  rewrite generateCoreInstructions_blocks. unfold core_program.
  replace (Z.to_nat (endRow + 1 - startRow)) with 0%nat by lia.
  reflexivity.
Qed.

Lemma generateCoreInstructions_empty_range_witness :
  generateCoreInstructions 2 6 4 (mkDims 5 3 2)
    (returned (optimizeMemoryLayout (mkDims 5 3 2)))
  = ["# Instructions for Core 2 (Rows 6 to 4)"; "021401"; "061000"].
Proof.
  rewrite (generateCoreInstructions_empty_range 2 6 4 _ _ ltac:(lia)).
  reflexivity.
Defined.

(* ================================================================== *)
(** * Further properties: the addresses in the emitted instructions *)

Lemma land_small a n : 0 <= a < 2 ^ n -> 0 <= n -> Z.land a (Z.ones n) = a.
Proof. intros Ha Hn. rewrite Z.land_ones by exact Hn. now apply Z.mod_small. Qed.

(** Decoding the text of an instruction whose core and address fit their
    fields gives back the operands of the generator. *)
Lemma decode_genExeInstr c r w a :
  0 <= c < 64 -> 0 <= a < 512 ->
  decodeInstr (genExeInstr c r w a) = Some (mkInstr EXE c r w a).
Proof.
  intros Hc Ha. rewrite genExeInstr_word, decodeInstr_to_hex_string.
  change 0x3F with (Z.ones 6). change 0x1FF with (Z.ones 9).
  now rewrite !land_small by (simpl; lia).
Qed.

Lemma decode_genProgInstr c r w a :
  0 <= c < 64 -> 0 <= a < 512 ->
  decodeInstr (genProgInstr c r w a) = Some (mkInstr PROG c r w a).
Proof.
  intros Hc Ha. rewrite genProgInstr_word, decodeInstr_to_hex_string.
  change 0x3F with (Z.ones 6). change 0x1FF with (Z.ones 9).
  now rewrite !land_small by (simpl; lia).
Qed.

Lemma decode_genEndInstr c r w a :
  0 <= c < 64 -> 0 <= a < 512 ->
  decodeInstr (genEndInstr c r w a) = Some (mkInstr END c r w a).
Proof.
  intros Hc Ha. rewrite genEndInstr_word, decodeInstr_to_hex_string.
  change 0x3F with (Z.ones 6). change 0x1FF with (Z.ones 9).
  now rewrite !land_small by (simpl; lia).
Qed.

(** The pair that addresses a flat index inside the 512 memory rows. *)
Lemma decode_access c rd wr base idx :
  0 <= c < 64 -> 0 <= idx -> 0 <= base -> base + idx / 512 < 512 ->
  map decodeInstr
    [ genExeInstr c rd wr (base + idx ÷ 512);
      genExeInstr c false false (Z.rem idx 512) ]
  = map Some (element_access c rd wr base idx).
Proof.
  intros Hc Hidx Hbase Hrow.
  rewrite Z.quot_div_nonneg, Z.rem_mod_nonneg by lia.
  pose proof (Z.mod_pos_bound idx 512 ltac:(lia)).
  assert (0 <= idx / 512) by (apply Z.div_pos; lia).
  cbn [map element_access].
  now rewrite !decode_genExeInstr by lia.
Qed.

Lemma map_flat_map {A B C : Type} (f : B -> C) (g : A -> list B) (l : list A) :
  map f (flat_map g l) = flat_map (fun x => map f (g x)) l.
Proof.
  induction l as [|x l IH]; [reflexivity|].
  cbn [flat_map]. now rewrite map_app, IH.
Qed.

Lemma decoded_row_load c memMap i :
  0 <= c < 64 -> 0 <= i * memMap.(rowSizeA) <= INT_MAX ->
  0 <= memMap.(baseAddrA) ->
  memMap.(baseAddrA) + (i * memMap.(rowSizeA)) / 512 < 512 ->
  map decodeInstr (filter is_instruction (row_load_simple c memMap i))
  = map Some (element_access c true false memMap.(baseAddrA)
                (i * memMap.(rowSizeA))).
Proof.
  intros Hc Hidx Hbase Hrow.
  rewrite row_load_simple_exact by (unfold INT_MIN; lia).
  cbn [filter]. rewrite !is_instruction_genExeInstr.
  apply decode_access; lia.
Qed.

Lemma decoded_dot_product_step c memMap j k :
  0 <= c < 64 -> 0 <= k * memMap.(rowSizeB) + j <= INT_MAX ->
  0 <= memMap.(baseAddrB) ->
  memMap.(baseAddrB) + (k * memMap.(rowSizeB) + j) / 512 < 512 ->
  map decodeInstr (filter is_instruction (dot_product_step c memMap j k))
  = map Some (element_access c true false memMap.(baseAddrB)
                (k * memMap.(rowSizeB) + j)
              ++ [ mkInstr EXE c false false 2 ])%list.
Proof.
  intros Hc Hidx Hbase Hrow.
  rewrite dot_product_step_exact by (unfold INT_MIN; lia).
  cbn [filter]. rewrite !is_instruction_genExeInstr.
  change [ genExeInstr c true false
             (memMap.(baseAddrB) + (k * memMap.(rowSizeB) + j) ÷ 512);
           genExeInstr c false false (Z.rem (k * memMap.(rowSizeB) + j) 512);
           genExeInstr c false false 2 ]
    with ([ genExeInstr c true false
              (memMap.(baseAddrB) + (k * memMap.(rowSizeB) + j) ÷ 512);
            genExeInstr c false false (Z.rem (k * memMap.(rowSizeB) + j) 512) ]
          ++ [ genExeInstr c false false 2 ])%list.
  rewrite !map_app, decode_access by lia.
  cbn [map]. now rewrite decode_genExeInstr by lia.
Qed.

Lemma decoded_store_pair c memMap i j :
  0 <= c < 64 -> 0 <= i * memMap.(rowSizeC) + j <= INT_MAX ->
  0 <= memMap.(baseAddrC) ->
  memMap.(baseAddrC) + (i * memMap.(rowSizeC) + j) / 512 < 512 ->
  map decodeInstr (filter is_instruction (store_pair c memMap i j))
  = map Some (element_access c false true memMap.(baseAddrC)
                (i * memMap.(rowSizeC) + j)).
Proof.
  intros Hc Hidx Hbase Hrow.
  rewrite store_pair_exact by (unfold INT_MIN; lia).
  cbn [filter]. rewrite !is_instruction_genExeInstr.
  apply decode_access; lia.
Qed.

(** The memory row of a flat index inside a matrix is one of the rows of
    the matrix. *)
Lemma index_row_bound idx size :
  0 <= idx < size -> 0 <= idx / 512 < ceil_div size 512.
Proof.
  intros H. pose proof (ceil_div_bounds size 512 ltac:(lia)).
  pose proof (Z.div_mod idx 512 ltac:(lia)).
  pose proof (Z.mod_pos_bound idx 512 ltac:(lia)).
  assert (0 <= idx / 512) by (apply Z.div_pos; lia).
  lia.
Qed.

(** X10.  When a row of A fits in one memory row (K <= 512), the three
    matrices together fit in the 512 memory rows a 9-bit address can
    name, the core number is below 64 and the rows of the assignment are
    rows of the matrix, the texts the sequencer emits with the map of the
    planner decode to exactly the instructions that address A, B and C as
    row-major matrices at the base addresses of the planner: nothing of
    an address is lost in the text, and every load of A names a memory
    row of A, every load of B one of B and every store one of C. *)
Theorem sequencer_addresses_in_layout (dims : MatrixDimensions)
    (coreId startRow endRow : Z)
    (HM : 0 < dims.(M)) (HN : 0 < dims.(N)) (HK : 0 < dims.(K) <= 512)
    (Hcore : 0 <= coreId < 64)
    (Hrows : 0 <= startRow /\ endRow < dims.(M))
    (Hfit : ceil_div (dims.(M) * dims.(K)) 512
            + ceil_div (dims.(K) * dims.(N)) 512
            + ceil_div (dims.(M) * dims.(N)) 512 <= 512) :
  let map := returned (optimizeMemoryLayout dims) in
  let rowsA := ceil_div (dims.(M) * dims.(K)) 512 in
  let rowsB := ceil_div (dims.(K) * dims.(N)) 512 in
  let rowsC := ceil_div (dims.(M) * dims.(N)) 512 in
  (map.(baseAddrA) = 0 /\ map.(baseAddrB) = rowsA
   /\ map.(baseAddrC) = rowsA + rowsB)
  /\ List.map decodeInstr
       (filter is_instruction
          (generateCoreInstructions coreId startRow endRow dims map))
     = List.map Some
         (decoded_program coreId startRow endRow dims
            map.(baseAddrA) map.(baseAddrB) map.(baseAddrC))
  /\ (forall i j k,
        startRow <= i <= endRow -> 0 <= j < dims.(N) -> 0 <= k < dims.(K) ->
        0 <= (i * dims.(K)) / 512 < rowsA
        /\ 0 <= (k * dims.(N) + j) / 512 < rowsB
        /\ 0 <= (i * dims.(N) + j) / 512 < rowsC).
Proof.
  intros map rowsA rowsB rowsC.
  pose proof (ceil_div_bounds (dims.(M) * dims.(K)) 512 ltac:(lia)) as BA.
  pose proof (ceil_div_bounds (dims.(K) * dims.(N)) 512 ltac:(lia)) as BB.
  pose proof (ceil_div_bounds (dims.(M) * dims.(N)) 512 ltac:(lia)) as BC.
  fold rowsA in BA, Hfit. fold rowsB in BB, Hfit. fold rowsC in BC, Hfit.
  assert (PA : 0 < dims.(M) * dims.(K)) by (apply Z.mul_pos_pos; lia).
  assert (PB : 0 < dims.(K) * dims.(N)) by (apply Z.mul_pos_pos; lia).
  assert (PC : 0 < dims.(M) * dims.(N)) by (apply Z.mul_pos_pos; lia).
  assert (RA : 0 < rowsA) by (apply ceil_div_pos; exact PA).
  assert (RB : 0 < rowsB) by (apply ceil_div_pos; exact PB).
  assert (RC : 0 < rowsC) by (apply ceil_div_pos; exact PC).
  destruct (layout_base_addresses dims HM HN ltac:(lia)
              ltac:(unfold INT_MAX; lia) ltac:(unfold INT_MAX; lia))
    as (EA & EB & EC).
  fold map rowsA rowsB in EA, EB, EC.
  assert (Rows : forall i j k,
            startRow <= i <= endRow -> 0 <= j < dims.(N) -> 0 <= k < dims.(K) ->
            (0 <= i * dims.(K) < 262144 /\ 0 <= (i * dims.(K)) / 512 < rowsA)
            /\ (0 <= k * dims.(N) + j < 262144
                /\ 0 <= (k * dims.(N) + j) / 512 < rowsB)
            /\ (0 <= i * dims.(N) + j < 262144
                /\ 0 <= (i * dims.(N) + j) / 512 < rowsC)).
  { intros i j k Hi Hj Hk.
    assert (IA : 0 <= i * dims.(K) < dims.(M) * dims.(K)).
    { split; [apply Z.mul_nonneg_nonneg; lia|].
      apply Z.mul_lt_mono_pos_r; lia. }
    assert (IB : 0 <= k * dims.(N) + j < dims.(K) * dims.(N)).
    { assert (0 <= k * dims.(N)) by (apply Z.mul_nonneg_nonneg; lia).
      assert ((k + 1) * dims.(N) <= dims.(K) * dims.(N))
        by (apply Z.mul_le_mono_nonneg_r; lia).
      lia. }
    assert (IC : 0 <= i * dims.(N) + j < dims.(M) * dims.(N)).
    { assert (0 <= i * dims.(N)) by (apply Z.mul_nonneg_nonneg; lia).
      assert ((i + 1) * dims.(N) <= dims.(M) * dims.(N))
        by (apply Z.mul_le_mono_nonneg_r; lia).
      lia. }
    pose proof (index_row_bound _ _ IA) as QA.
    pose proof (index_row_bound _ _ IB) as QB.
    pose proof (index_row_bound _ _ IC) as QC.
    fold rowsA in QA. fold rowsB in QB. fold rowsC in QC. lia. }
  split; [auto|]. split; [|intros i j k Hi Hj Hk;
                            destruct (Rows i j k Hi Hj Hk) as (A & B & C); lia].
  rewrite generateCoreInstructions_blocks.
  unfold map at 1. rewrite rowsPerMatrixRowA_single by exact HK.
  change (1 >? 1) with false. cbv iota.
  unfold core_program, decoded_program.
  rewrite !filter_app, !map_app. cbn [filter].
  rewrite is_instruction_core_header, is_instruction_genProgInstr,
    is_instruction_genEndInstr.
  cbn [List.map]. rewrite decode_genProgInstr, decode_genEndInstr by lia.
  do 2 f_equal.
  rewrite filter_flat_map, !map_flat_map.
  apply flat_map_ext_in. intros i Hi. apply Zseq_In in Hi.
  assert (Hi' : startRow <= i <= endRow) by lia.
  unfold row_block. rewrite !filter_app, !map_app. cbn [filter].
  rewrite is_instruction_row_comment. cbn [List.map app].
  assert (SA : rowSizeA map = dims.(K)) by reflexivity.
  assert (SB : rowSizeB map = dims.(N)) by reflexivity.
  assert (SC : rowSizeC map = dims.(N)) by reflexivity.
  assert (Wit : 0 <= 0 < dims.(N) /\ 0 <= 0 < dims.(K)) by lia.
  destruct (Rows i 0 0 Hi' (proj1 Wit) (proj2 Wit)) as ((A1 & A2) & _).
  rewrite decoded_row_load
    by (rewrite ?SA, ?EA; unfold INT_MAX; lia).
  rewrite SA. f_equal.
  rewrite filter_flat_map, !map_flat_map.
  apply flat_map_ext_in. intros j Hj. apply Zseq_In in Hj.
  assert (Hj' : 0 <= j < dims.(N)) by lia.
  unfold column_block. rewrite !filter_app, !map_app. cbn [filter].
  rewrite is_instruction_element_comment, is_instruction_genExeInstr.
  cbn [List.map app]. rewrite ?map_app, decode_genExeInstr by lia.
  destruct (Rows i j 0 Hi' Hj' (proj2 Wit)) as (_ & _ & (C1 & C2)).
  rewrite decoded_store_pair by (rewrite ?SC, ?EC; unfold INT_MAX; lia).
  rewrite SC. do 2 f_equal.
  rewrite filter_flat_map, !map_flat_map.
  apply flat_map_ext_in. intros k Hk. apply Zseq_In in Hk.
  assert (Hk' : 0 <= k < dims.(K)) by lia.
  destruct (Rows i j k Hi' Hj' Hk') as (_ & (B1 & B2) & _).
  rewrite decoded_dot_product_step by (rewrite ?SB, ?EB; unfold INT_MAX; lia).
  now rewrite SB.
Qed.

Lemma sequencer_addresses_in_layout_witness :
  let dims := mkDims 4 3 2 in
  let map := returned (optimizeMemoryLayout dims) in
  List.map decodeInstr
    (filter is_instruction (generateCoreInstructions 1 3 3 dims map))
  = List.map Some
      [ mkInstr PROG 1 true false 1;
        mkInstr EXE 1 true false 0; mkInstr EXE 1 false false 6;
        mkInstr EXE 1 false false 0;
        mkInstr EXE 1 true false 1; mkInstr EXE 1 false false 0;
        mkInstr EXE 1 false false 2;
        mkInstr EXE 1 true false 1; mkInstr EXE 1 false false 3;
        mkInstr EXE 1 false false 2;
        mkInstr EXE 1 false true 2; mkInstr EXE 1 false false 9;
        mkInstr EXE 1 false false 0;
        mkInstr EXE 1 true false 1; mkInstr EXE 1 false false 1;
        mkInstr EXE 1 false false 2;
        mkInstr EXE 1 true false 1; mkInstr EXE 1 false false 4;
        mkInstr EXE 1 false false 2;
        mkInstr EXE 1 false true 2; mkInstr EXE 1 false false 10;
        mkInstr EXE 1 false false 0;
        mkInstr EXE 1 true false 1; mkInstr EXE 1 false false 2;
        mkInstr EXE 1 false false 2;
        mkInstr EXE 1 true false 1; mkInstr EXE 1 false false 5;
        mkInstr EXE 1 false false 2;
        mkInstr EXE 1 false true 2; mkInstr EXE 1 false false 11;
        mkInstr END 1 false false 0 ].
Proof.
  intros dims map.
  destruct (sequencer_addresses_in_layout dims 1 3 3
              ltac:(simpl; lia) ltac:(simpl; lia) ltac:(simpl; lia)
              ltac:(lia) ltac:(simpl; lia) ltac:(vm_compute; discriminate))
    as (_ & D & _).
  fold map in D. rewrite D. reflexivity.
Defined.




(* ================================================================== *)
(** * Further properties: the program listing of the driver *)

(** The program file of a run that passes the validation, when the file
    can be opened. *)
Lemma main_outFile outputFile tacOpens parsed numCores overrideM overrideN overrideK :
  0 < parsed.(M) -> 0 < parsed.(N) -> 0 < parsed.(K) ->
  let r := main outputFile tacOpens true parsed numCores overrideM overrideN
             overrideK in
  let dims := apply_overrides parsed overrideM overrideN overrideK in
  r.(exitCode) = 0
  /\ r.(outFile) = Some (map output_line (program_listing dims numCores)).
Proof.
  intros HM HN HK r dims. unfold r.
  rewrite main_valid by assumption. split; reflexivity.
Qed.

(** X15.  When the parsed dimensions are positive and the program file
    can be opened (whatever its name, and whether or not the
    three-address-code file can be opened), the program file is:
    the title comment, the dimensions comment, the comment with the
    number of cores that got rows, an empty line, and then the sequence
    of each assignment in the partitioner's order with exactly one empty
    line between two sequences; every encoded instruction is followed on
    its line by its 24 binary digits, and comment lines are written as
    they are. *)
Theorem main_program_layout (outputFile : string) (tacOpens : bool)
    (parsed : MatrixDimensions)
    (numCores overrideM overrideN overrideK : Z)
    (HM : 0 < parsed.(M)) (HN : 0 < parsed.(N)) (HK : 0 < parsed.(K)) :
  let r := main outputFile tacOpens true parsed numCores overrideM overrideN
             overrideK in
  let dims := apply_overrides parsed overrideM overrideN overrideK in
  let works := returned (distributeWork dims numCores) in
  let memMap := returned (optimizeMemoryLayout dims) in
  r.(outFile)
  = Some (map output_line
            ([ "# PIM Instructions for Matrix Multiplication";
               dimensions_comment dims;
               cores_comment (List.length works);
               "" ]
             ++ join_blank
                  (map (fun w => generateCoreInstructions w.(coreId)
                                   w.(startRow) w.(endRow) dims memMap)
                     works)))%list
  /\ (forall op c rd wr a,
        output_line (encodeInstr op c rd wr a)
        = encodeInstr op c rd wr a ++ " # Binary: "
          ++ hexToBinary (encodeInstr op c rd wr a)
        /\ String.length (hexToBinary (encodeInstr op c rd wr a)) = 24%nat)
  /\ (forall s, is_instruction s = false -> output_line s = s).
Proof.
  intros r dims works memMap.
  destruct (main_outFile outputFile tacOpens parsed numCores overrideM overrideN
              overrideK HM HN HK)
    as [_ E].
  split; [exact E|]. split.
  - intros op c rd wr a.
    assert (Ht : exists v, encodeInstr op c rd wr a = to_hex_string v).
    { destruct op; cbn [encodeInstr]; eexists; reflexivity. }
    destruct Ht as [v Ev]. rewrite Ev. unfold output_line.
    rewrite is_instruction_to_hex_string. split; [reflexivity|].
    rewrite hexToBinary_length, to_hex_string_six. reflexivity.
  - intros s Hs. unfold output_line. now rewrite Hs.
Qed.

Lemma main_program_layout_witness :
  outFile (main "output.pim" true true (mkDims 2 1 1) 2 (-1) (-1) (-1))
  = Some
      ["# PIM Instructions for Matrix Multiplication";
       "# Matrix dimensions: 2x1 * 1x1"; "# Using 2 cores"; "";
       "# Instructions for Core 0 (Rows 0 to 0)";
       "020401 # Binary: 000000100000010000000001"; "# Processing row 0";
       "040400 # Binary: 000001000000010000000000";
       "040000 # Binary: 000001000000000000000000";
       "# Computing element C[0][0]";
       "040000 # Binary: 000001000000000000000000";
       "040401 # Binary: 000001000000010000000001";
       "040000 # Binary: 000001000000000000000000";
       "040002 # Binary: 000001000000000000000010";
       "040202 # Binary: 000001000000001000000010";
       "040000 # Binary: 000001000000000000000000";
       "060000 # Binary: 000001100000000000000000"; "";
       "# Instructions for Core 1 (Rows 1 to 1)";
       "020c01 # Binary: 000000100000110000000001"; "# Processing row 1";
       "040c00 # Binary: 000001000000110000000000";
       "040801 # Binary: 000001000000100000000001";
       "# Computing element C[1][0]";
       "040800 # Binary: 000001000000100000000000";
       "040c01 # Binary: 000001000000110000000001";
       "040800 # Binary: 000001000000100000000000";
       "040802 # Binary: 000001000000100000000010";
       "040a02 # Binary: 000001000000101000000010";
       "040801 # Binary: 000001000000100000000001";
       "060800 # Binary: 000001100000100000000000"].
Proof.
  destruct (main_program_layout "output.pim" true (mkDims 2 1 1) 2 (-1) (-1) (-1)
              ltac:(simpl; lia) ltac:(simpl; lia) ltac:(simpl; lia))
    as (E & _).
  rewrite E. reflexivity.
Defined.

Lemma is_instruction_append s t :
  is_instruction s = true -> is_instruction (s ++ t) = true.
Proof. destruct s; [discriminate | intros H; exact H]. Qed.

Lemma is_instruction_output_line s : is_instruction (output_line s) = is_instruction s.
Proof.
  unfold output_line. destruct (is_instruction s) eqn:E; [|exact E].
  now apply is_instruction_append.
Qed.

Lemma filter_map_same {A : Type} (p : A -> bool) (f : A -> A) (l : list A) :
  (forall x, p (f x) = p x) -> filter p (map f l) = map f (filter p l).
Proof.
  intros H. induction l as [|x l IH]; [reflexivity|].
  cbn [map filter]. rewrite H, IH. destruct (p x); reflexivity.
Qed.

Lemma count_join_blank (blocks : list (list string)) :
  Z.of_nat (List.length (filter is_instruction (join_blank blocks)))
  = fold_right Z.add 0
      (map (fun b => Z.of_nat (List.length (filter is_instruction b))) blocks).
Proof.
  induction blocks as [|b blocks IH]; [reflexivity|].
  cbn [map fold_right]. rewrite <- IH.
  destruct blocks as [|b' blocks]; cbn [join_blank].
  - cbn [filter List.length]. lia.
  - rewrite filter_app, length_app. cbn [filter is_instruction]. lia.
Qed.

Lemma sum_affine {A : Type} (f : A -> Z) (a b : Z) (l : list A) :
  fold_right Z.add 0 (map (fun x => a + b * f x) l)
  = a * Z.of_nat (List.length l) + b * fold_right Z.add 0 (map f l).
Proof.
  induction l as [|x l IH]; [simpl; lia|].
  cbn [map fold_right List.length]. rewrite IH. lia.
Qed.

Lemma row_count_positive dims c :
  1 <= dims.(M) -> 1 <= c ->
  Z.min c dims.(M) * ceil_double_div dims.(M) (Z.min c dims.(M)) <= INT_MAX ->
  Forall (fun w => 1 <= row_count w) (returned (distributeWork dims c)).
Proof.
  intros HM Hc Hfit.
  destruct (distributeWork_closed_any dims c HM Hc Hfit) as (Hr & Hq & _ & Hb & EL).
  rewrite EL. apply Forall_forall. intros w Hw.
  apply in_map_iff in Hw. destruct Hw as (x & <- & Hx).
  apply Zseq_In in Hx. unfold row_count, work_for. cbn [startRow endRow]. nia.
Qed.

Lemma apply_overrides_positive parsed overrideM overrideN overrideK :
  0 < parsed.(M) -> 0 < parsed.(N) -> 0 < parsed.(K) ->
  let dims := apply_overrides parsed overrideM overrideN overrideK in
  0 < dims.(M) /\ 0 < dims.(N) /\ 0 < dims.(K).
Proof.
  intros HM HN HK. unfold apply_overrides. cbn [M N K].
  destruct (Z.gtb_spec overrideM 0), (Z.gtb_spec overrideN 0),
    (Z.gtb_spec overrideK 0); lia.
Qed.

(** X16.  When the parsed dimensions are positive, at least one core is
    requested, the program file can be opened and, for the dimensions
    M, N, K after the overrides and c = min(numCores, M), neither
    c*ceil(M/c) nor K + 511 exceeds INT_MAX, the number of encoded
    instructions in the program file is
    2*cores + M*(2*ceil(K/512) + N*(3K + 3)), with cores the number of
    assignments: it depends on the core count only through the PROG/END
    pair of each core. *)
Theorem main_instruction_total (outputFile : string) (tacOpens : bool)
    (parsed : MatrixDimensions)
    (numCores overrideM overrideN overrideK : Z)
    (HM : 0 < parsed.(M)) (HN : 0 < parsed.(N)) (HK : 0 < parsed.(K))
    (Hc : 1 <= numCores)
    (Hfit : let dims := apply_overrides parsed overrideM overrideN overrideK in
            let c := Z.min numCores dims.(M) in
            c * ceil_double_div dims.(M) c <= INT_MAX
            /\ dims.(K) + 511 <= INT_MAX) :
  let r := main outputFile tacOpens true parsed numCores overrideM overrideN
             overrideK in
  let dims := apply_overrides parsed overrideM overrideN overrideK in
  let cores := Z.of_nat (List.length (returned (distributeWork dims numCores))) in
  exists lines,
    r.(outFile) = Some lines
    /\ Z.of_nat (List.length (filter is_instruction lines))
       = 2 * cores
         + dims.(M) * (2 * ceil_div dims.(K) 512 + dims.(N) * (3 * dims.(K) + 3)).
Proof.
  intros r dims cores. cbv zeta in Hfit. fold dims in Hfit.
  destruct Hfit as [HfitM HfitK].
  destruct (main_outFile outputFile tacOpens parsed numCores overrideM overrideN
              overrideK HM HN HK)
    as [_ E].
  fold r dims in E. eexists. split; [exact E|].
  destruct (apply_overrides_positive parsed overrideM overrideN overrideK HM HN HK)
    as (PM & PN & PK).
  fold dims in PM, PN, PK.
  rewrite (filter_map_same _ _ _ is_instruction_output_line), length_map.
  unfold program_listing. rewrite filter_app, length_app.
  cbn [filter is_instruction]. cbn [List.length].
  rewrite Nat.add_0_l, count_join_blank, map_map.
  pose proof (rowsPerMatrixRowA_closed dims PK HfitK) as ER.
  pose proof (ceil_div_bounds dims.(K) 512 ltac:(lia)) as BK.
  set (R := 2 * ceil_div dims.(K) 512 + dims.(N) * (3 * dims.(K) + 3)).
  pose proof (row_count_positive dims numCores ltac:(lia) Hc HfitM) as Pos.
  rewrite (map_ext_in _ (fun w => 2 + R * row_count w)).
  - rewrite sum_affine, row_count_total by lia. fold cores. lia.
  - intros w Hw. rewrite Forall_forall in Pos. specialize (Pos w Hw).
    rewrite generateCoreInstructions_blocks.
    destruct (core_program_counts w.(coreId) w.(startRow) w.(endRow) dims
                (returned (optimizeMemoryLayout dims))) as [-> _].
    rewrite ER. unfold R, row_count in *.
    rewrite Nat2Z.inj_add, Nat2Z.inj_mul, Nat2Z.inj_add, Nat2Z.inj_mul,
      Nat2Z.inj_add, Nat2Z.inj_mul.
    rewrite !Z2Nat.id by lia. rewrite Z.max_r by lia.
    change (Z.of_nat 2) with 2. change (Z.of_nat 3) with 3. ring.
Qed.

Lemma main_instruction_total_witness :
  exists lines,
    outFile (main "output.pim" true true (mkDims 4 3 2) 2 (-1) (-1) (-1))
    = Some lines
    /\ Z.of_nat (List.length (filter is_instruction lines)) = 120.
Proof.
  destruct (main_instruction_total "output.pim" true (mkDims 4 3 2) 2 (-1) (-1) (-1)
              ltac:(simpl; lia) ltac:(simpl; lia) ltac:(simpl; lia) ltac:(lia)
              ltac:(vm_compute; split; discriminate))
    as (lines & E & C).
  exists lines. split; [exact E|]. rewrite C. reflexivity.
Defined.

(** X17.  A negative core count is not rejected: with positive parsed
    dimensions (and a program file that can be opened, whatever its name)
    the driver returns 0 and writes a program file that has
    only the three header comments, the last one saying 0 cores, and the
    empty line. *)
Theorem main_negative_core_count (outputFile : string) (tacOpens : bool)
    (parsed : MatrixDimensions)
    (numCores overrideM overrideN overrideK : Z)
    (HM : 0 < parsed.(M)) (HN : 0 < parsed.(N)) (HK : 0 < parsed.(K))
    (Hc : numCores < 0) :
  let r := main outputFile tacOpens true parsed numCores overrideM overrideN
             overrideK in
  let dims := apply_overrides parsed overrideM overrideN overrideK in
  r.(exitCode) = 0
  /\ r.(outFile)
     = Some [ "# PIM Instructions for Matrix Multiplication";
              dimensions_comment dims; "# Using 0 cores"; "" ].
Proof.
  intros r dims.
  destruct (main_outFile outputFile tacOpens parsed numCores overrideM overrideN
              overrideK HM HN HK)
    as [X E].
  split; [exact X|]. fold r dims in E. rewrite E.
  unfold program_listing.
  assert (W : returned (distributeWork dims numCores) = []).
  { rewrite distributeWork_loop. cbn [returned].
    replace (Z.to_nat (if numCores >? M dims then M dims else numCores))
      with 0%nat; [reflexivity|].
    destruct (apply_overrides_positive parsed overrideM overrideN overrideK
                HM HN HK) as (PM & _).
    fold dims in PM. destruct (Z.gtb_spec numCores (M dims)); lia. }
  rewrite W. reflexivity.
Qed.

Lemma main_negative_core_count_witness :
  outFile (main "output.pim" true true (mkDims 4 3 2) (-1) (-1) (-1) (-1))
  = Some [ "# PIM Instructions for Matrix Multiplication";
           "# Matrix dimensions: 4x2 * 2x3"; "# Using 0 cores"; "" ].
Proof.
  destruct (main_negative_core_count "output.pim" true (mkDims 4 3 2) (-1) (-1)
              (-1) (-1)
              ltac:(simpl; lia) ltac:(simpl; lia) ltac:(simpl; lia) ltac:(lia))
    as (_ & E).
  rewrite E. reflexivity.
Defined.

(* ================================================================== *)
(** * Further properties: the test's instruction counter *)

Lemma read_program_lines_filter file :
  read_program_lines file = filter (fun l => negb (str_empty l)) file.
Proof.
  unfold read_program_lines.
  assert (G : forall l acc,
            fold_left (fun instructions line =>
                         if negb (str_empty line)
                         then push_back instructions line else instructions)
              l acc
            = (acc ++ filter (fun l => negb (str_empty l)) l)%list).
  { induction l as [|x l IH]; intros acc; cbn [fold_left filter].
    - now rewrite app_nil_r.
    - rewrite IH. destruct (negb (str_empty x)); [|reflexivity].
      unfold push_back. now rewrite <- app_assoc. }
  apply G.
Qed.

(** On lines that are comments, empty, or start with 0, every counted
    instruction is counted as PROG. *)
Lemma simulate_zero_led lines :
  Forall (fun s => is_instruction s = true -> zero_led s) lines ->
  forall a b c d,
    fold_left simulate_step lines (mkCounts a b c d)
    = mkCounts (a + Z.of_nat (List.length (filter is_instruction lines)))
        (b + Z.of_nat (List.length (filter is_instruction lines))) c d.
Proof.
  induction 1 as [|s lines Hs _ IH]; intros a b c d.
  - cbn [fold_left filter List.length]. f_equal; lia.
  - cbn [fold_left filter].
    destruct s as [|ch s'].
    + cbn [simulate_step is_instruction]. apply IH.
    + cbn [simulate_step is_instruction] in *.
      destruct (Ascii.eqb ch "#") eqn:Eh; cbn [negb] in *.
      * apply IH.
      * destruct (Hs eq_refl) as [rest Er]. inversion Er; subst ch.
        cbn [Ascii.eqb Bool.eqb instr_count prog_count exe_count end_count].
        rewrite IH. cbn [List.length]. f_equal; lia.
Qed.

Lemma zero_led_append s t : zero_led s -> zero_led (s ++ t).
Proof. intros [rest ->]. eexists. reflexivity. Qed.

Lemma exe_of_core_zero_led c s : exe_of_core c s -> zero_led s.
Proof.
  intros (r & w & a & ->). rewrite genExeInstr_word.
  apply instr_text_leading_zero.
Qed.

Lemma Forall_filter_elim {A : Type} (p : A -> bool) (P : A -> Prop) (l : list A) :
  Forall P (filter p l) -> Forall (fun x => p x = true -> P x) l.
Proof.
  intros H. apply Forall_forall. intros x Hx Hp.
  rewrite Forall_forall in H. apply H, filter_In. auto.
Qed.

Lemma core_sequence_zero_led c s e dims memMap :
  Forall (fun x => is_instruction x = true -> zero_led x)
    (generateCoreInstructions c s e dims memMap).
Proof.
  rewrite generateCoreInstructions_blocks. unfold core_program.
  apply Forall_app. split; [|apply Forall_app; split].
  - constructor; [intros H; discriminate H|]. constructor; [|constructor].
    intros _. rewrite genProgInstr_word. apply instr_text_leading_zero.
  - apply Forall_flat_map_all. intros i.
    apply Forall_filter_elim.
    eapply Forall_impl; [|apply filtered_row_block].
    intros x. apply exe_of_core_zero_led.
  - constructor; [|constructor].
    intros _. rewrite genEndInstr_word. apply instr_text_leading_zero.
Qed.

Lemma join_blank_zero_led blocks :
  Forall (Forall (fun x => is_instruction x = true -> zero_led x)) blocks ->
  Forall (fun x => is_instruction x = true -> zero_led x) (join_blank blocks).
Proof.
  induction 1 as [|b blocks Hb Hbs IH]; [constructor|].
  destruct blocks as [|b' blocks]; cbn [join_blank]; [exact Hb|].
  apply Forall_app. split; [exact Hb|].
  constructor; [intros H; discriminate H | exact IH].
Qed.

Lemma program_listing_zero_led dims numCores :
  Forall (fun x => is_instruction x = true -> zero_led x)
    (map output_line (program_listing dims numCores)).
Proof.
  apply Forall_forall. intros y Hy. apply in_map_iff in Hy.
  destruct Hy as (x & <- & Hx). rewrite is_instruction_output_line. intros Hi.
  unfold output_line. rewrite Hi. apply zero_led_append.
  revert x Hx Hi.
  apply (proj1 (Forall_forall
                  (fun x => is_instruction x = true -> zero_led x)
                  (program_listing dims numCores))).
  unfold program_listing. apply Forall_app. split.
  - repeat constructor; intros H; discriminate H.
  - apply join_blank_zero_led. apply Forall_forall. intros b Hb.
    apply in_map_iff in Hb. destruct Hb as (w & <- & _).
    apply core_sequence_zero_led.
Qed.

Lemma filter_instruction_nonempty l :
  filter is_instruction (filter (fun s => negb (str_empty s)) l)
  = filter is_instruction l.
Proof.
  induction l as [|x l IH]; [reflexivity|].
  cbn [filter]. destruct x as [|ch x']; cbn [str_empty negb]; [exact IH|].
  cbn [filter]. now rewrite IH.
Qed.

(** X18.  The instruction counter of the compiler test classifies a line
    by its first character (0: PROG, 4 or 5: EXE, 8 or 9: END), while the
    opcode of the encoder is in the bits 18-17, inside the second digit.
    On the program file of any run that passes the validation (and can
    open the program file) it therefore reports every encoded instruction
    as PROG and no EXE and no END instruction. *)
Theorem simulateInstructions_on_program (outputFile : string) (tacOpens : bool)
    (parsed : MatrixDimensions)
    (numCores overrideM overrideN overrideK : Z)
    (HM : 0 < parsed.(M)) (HN : 0 < parsed.(N)) (HK : 0 < parsed.(K)) :
  let r := main outputFile tacOpens true parsed numCores overrideM overrideN
             overrideK in
  exists lines,
    r.(outFile) = Some lines
    /\ let n := Z.of_nat (List.length (filter is_instruction lines)) in
       simulateInstructions (read_program_lines lines)
       = [ "Simulating "
             ++ to_string (Z.of_nat (List.length (read_program_lines lines)))
             ++ " instructions...";
           "Instruction count: " ++ to_string n;
           "  PROG instructions: " ++ to_string n;
           "  EXE instructions: 0";
           "  END instructions: 0" ].
Proof.
  intros r.
  destruct (main_outFile outputFile tacOpens parsed numCores overrideM overrideN
              overrideK HM HN HK)
    as [_ E].
  eexists. split; [exact E|]. intros n.
  unfold simulateInstructions. cbv zeta.
  rewrite simulate_zero_led.
  - rewrite read_program_lines_filter, filter_instruction_nonempty.
    fold n. cbn [instr_count prog_count exe_count end_count Z.add].
    reflexivity.
  - rewrite read_program_lines_filter. apply Forall_forall. intros x Hx.
    apply filter_In in Hx. destruct Hx as [Hx _].
    pose proof (program_listing_zero_led
                  (apply_overrides parsed overrideM overrideN overrideK)
                  numCores) as Z0.
    rewrite Forall_forall in Z0. now apply Z0.
Qed.

Lemma simulateInstructions_on_program_witness :
  exists lines,
    outFile (main "test_output.pim" true true (mkDims 4 3 2) 2 (-1) (-1) (-1))
    = Some lines
    /\ simulateInstructions (read_program_lines lines)
       = [ "Simulating 141 instructions..."; "Instruction count: 120";
           "  PROG instructions: 120"; "  EXE instructions: 0";
           "  END instructions: 0" ].
Proof.
  destruct (simulateInstructions_on_program "test_output.pim" true
              (mkDims 4 3 2) 2 (-1) (-1) (-1)
              ltac:(simpl; lia) ltac:(simpl; lia) ltac:(simpl; lia))
    as (lines & E & S).
  exists lines. split; [exact E|].
  cbv zeta in S. rewrite S.
  assert (EL : Some lines
               = outFile (main "test_output.pim" true true (mkDims 4 3 2) 2
                            (-1) (-1) (-1)))
    by (symmetry; exact E).
  vm_compute in EL. injection EL as ->. vm_compute. reflexivity.
Defined.

(* ================================================================== *)
(** * Further properties: std::stoi on decimal texts *)

Lemma decimal_value_uint d : forall acc,
  decimal_value (NilEmpty.string_of_uint d) acc = uint_value d acc.
Proof.
  induction d; intros acc; cbn [NilEmpty.string_of_uint decimal_value uint_value];
    try reflexivity; rewrite IHd; f_equal;
    match goal with
    | |- context [digit_value ?c] =>
        let v := eval vm_compute in (digit_value c) in
        change (digit_value c) with v
    end; lia.
Qed.

Lemma uint_value_acc d : forall acc : positive,
  uint_value d (Z.pos acc) = Z.pos (Pos.of_uint_acc d acc).
Proof.
  induction d; intros acc; cbn [uint_value Pos.of_uint_acc];
    try reflexivity; rewrite <- IHd; f_equal; lia.
Qed.

Lemma uint_value_of_uint d : uint_value d 0 = Z.of_N (Pos.of_uint d).
Proof.
  induction d; cbn [uint_value Pos.of_uint]; try reflexivity;
    try exact IHd;
    match goal with
    | |- uint_value _ ?a = _ => change a with (Z.pos (Z.to_pos a))
    end; rewrite uint_value_acc; reflexivity.
Qed.

Lemma span_digits_uint d rest :
  span is_digit rest = (EmptyString, rest) ->
  span is_digit (NilEmpty.string_of_uint d ++ rest)
  = (NilEmpty.string_of_uint d, rest).
Proof.
  intros H. induction d; cbn [NilEmpty.string_of_uint append]; [exact H| ..];
    cbn [span]; change (is_digit _) with true; cbv iota; rewrite IHd; reflexivity.
Qed.

Lemma to_string_pos p :
  to_string (Z.pos p) = NilEmpty.string_of_uint (Pos.to_uint p).
Proof.
  unfold to_string. cbn [Z.to_int NilZero.string_of_int].
  pose proof (DecimalPos.Unsigned.to_uint_nonnil p) as H.
  unfold NilZero.string_of_uint. destruct (Pos.to_uint p); [congruence | reflexivity ..].
Qed.

Lemma to_string_neg p :
  to_string (Z.neg p) = String "-" (NilEmpty.string_of_uint (Pos.to_uint p)).
Proof.
  unfold to_string. cbn [Z.to_int NilZero.string_of_int].
  pose proof (DecimalPos.Unsigned.to_uint_nonnil p) as H.
  unfold NilZero.string_of_uint. destruct (Pos.to_uint p); [congruence | reflexivity ..].
Qed.

Lemma uint_value_to_uint p : uint_value (Pos.to_uint p) 0 = Z.pos p.
Proof. now rewrite uint_value_of_uint, DecimalPos.Unsigned.of_to. Qed.

(** [std::stoi] on the digits of a numeral that is not empty, followed by
    something that is no digit. *)
Lemma stoi_uint d rest :
  d <> Decimal.Nil -> span is_digit rest = (EmptyString, rest) ->
  stoi (NilEmpty.string_of_uint d ++ rest)
  = if uint_value d 0 <=? INT_MAX then StoiValue (uint_value d 0)
    else StoiOutOfRange.
Proof.
  intros Hd Hrest.
  assert (Hv : 0 <= uint_value d 0).
  { rewrite uint_value_of_uint. apply N2Z.is_nonneg. }
  assert (Hs : fst (span is_digit (NilEmpty.string_of_uint d ++ rest))
               = NilEmpty.string_of_uint d)
    by now rewrite span_digits_uint.
  assert (He : str_empty (NilEmpty.string_of_uint d) = false)
    by (destruct d; [congruence | reflexivity ..]).
  assert (Hstep : stoi (NilEmpty.string_of_uint d ++ rest)
                  = let digits := fst (span is_digit (NilEmpty.string_of_uint d ++ rest)) in
                    if str_empty digits then StoiInvalidArgument
                    else let v := decimal_value digits 0 in
                         if ((INT_MIN <=? v) && (v <=? INT_MAX))%bool
                         then StoiValue v else StoiOutOfRange).
  { destruct d; [congruence | reflexivity ..]. }
  rewrite Hstep. cbv zeta. rewrite Hs, He, decimal_value_uint.
  replace (INT_MIN <=? uint_value d 0) with true
    by (symmetry; apply Z.leb_le; unfold INT_MIN; lia).
  reflexivity.
Qed.

Lemma stoi_neg_uint d rest :
  d <> Decimal.Nil -> span is_digit rest = (EmptyString, rest) ->
  stoi (String "-" (NilEmpty.string_of_uint d ++ rest))
  = if INT_MIN <=? - uint_value d 0 then StoiValue (- uint_value d 0)
    else StoiOutOfRange.
Proof.
  intros Hd Hrest.
  assert (Hv : 0 <= uint_value d 0).
  { rewrite uint_value_of_uint. apply N2Z.is_nonneg. }
  assert (Hs : fst (span is_digit (NilEmpty.string_of_uint d ++ rest))
               = NilEmpty.string_of_uint d)
    by now rewrite span_digits_uint.
  assert (He : str_empty (NilEmpty.string_of_uint d) = false)
    by (destruct d; [congruence | reflexivity ..]).
  assert (Hstep : stoi (String "-" (NilEmpty.string_of_uint d ++ rest))
                  = let digits := fst (span is_digit (NilEmpty.string_of_uint d ++ rest)) in
                    if str_empty digits then StoiInvalidArgument
                    else let v := - decimal_value digits 0 in
                         if ((INT_MIN <=? v) && (v <=? INT_MAX))%bool
                         then StoiValue v else StoiOutOfRange)
    by reflexivity.
  rewrite Hstep. cbv zeta. rewrite Hs, He, decimal_value_uint.
  replace (- uint_value d 0 <=? INT_MAX) with true
    by (symmetry; apply Z.leb_le; unfold INT_MAX; lia).
  now rewrite andb_true_r.
Qed.

(** [std::stoi] reads back what [std::to_string] writes: for an
    [int] n, and whatever follows the number as long as it does not start
    with a digit, the result is n; for a number above INT_MAX or below
    INT_MIN the call throws [std::out_of_range]. *)
Theorem stoi_to_string (n : Z) (rest : string)
    (Hrest : span is_digit rest = (EmptyString, rest)) :
  stoi (to_string n ++ rest)
  = if ((INT_MIN <=? n) && (n <=? INT_MAX))%bool then StoiValue n
    else StoiOutOfRange.
Proof.
  destruct n as [|p|p].
  - destruct rest as [|c rest]; [reflexivity|].
    change (to_string 0 ++ String c rest)
      with (NilEmpty.string_of_uint (Decimal.D0 Decimal.Nil) ++ String c rest).
    rewrite stoi_uint by (congruence || exact Hrest). reflexivity.
  - rewrite to_string_pos, stoi_uint, uint_value_to_uint
      by (apply DecimalPos.Unsigned.to_uint_nonnil || exact Hrest).
    replace (INT_MIN <=? Z.pos p) with true
      by (symmetry; apply Z.leb_le; unfold INT_MIN; lia).
    now rewrite andb_true_l.
  - rewrite to_string_neg. cbn [append].
    rewrite stoi_neg_uint, uint_value_to_uint
      by (apply DecimalPos.Unsigned.to_uint_nonnil || exact Hrest).
    change (- Z.pos p) with (Z.neg p).
    replace (Z.neg p <=? INT_MAX) with true
      by (symmetry; apply Z.leb_le; unfold INT_MAX; lia).
    now rewrite andb_true_r.
Qed.

Lemma stoi_to_string_witness :
  stoi "-42 cores" = StoiValue (-42)
  /\ stoi (to_string 2147483648 ++ "") = StoiOutOfRange.
Proof.
  split.
  - exact (stoi_to_string (-42) " cores" eq_refl).
  - exact (stoi_to_string 2147483648 "" eq_refl).
Defined.

(* ================================================================== *)
(** * Further properties: the basic parser *)

Lemma span_forall p s : string_forall p (fst (span p s)) = true.
Proof.
  induction s as [|c s IH]; [reflexivity|].
  cbn [span]. destruct (p c) eqn:E; [|reflexivity].
  destruct (span p s) as [a b]. cbn [fst string_forall] in *. now rewrite E, IH.
Qed.

Lemma span_app p a b :
  string_forall p a = true -> span p b = (EmptyString, b) ->
  span p (a ++ b) = (a, b).
Proof.
  intros Ha Hb. induction a as [|c a IH]; [exact Hb|].
  cbn [string_forall] in Ha. apply andb_true_iff in Ha. destruct Ha as [Hc Ha].
  cbn [append span]. now rewrite Hc, IH.
Qed.

Lemma span_all p s : string_forall p s = true -> span p s = (s, EmptyString).
Proof.
  intros H. rewrite <- (append_empty_r s) at 1. now apply span_app.
Qed.

Lemma span_head_fails p c s : p c = false -> span p (String c s) = (EmptyString, String c s).
Proof. intros H. cbn [span]. now rewrite H. Qed.

(** [std::stoi] on a text of digits. *)
Lemma stoi_digits c ds :
  string_forall is_digit (String c ds) = true ->
  0 <= decimal_value (String c ds) 0
  /\ stoi (String c ds)
     = if decimal_value (String c ds) 0 <=? INT_MAX
       then StoiValue (decimal_value (String c ds) 0) else StoiOutOfRange.
Proof.
  intros H.
  assert (Hnn : forall s acc, string_forall is_digit s = true -> 0 <= acc ->
                 0 <= decimal_value s acc).
  { induction s as [|x s IH]; intros acc Hs Ha; [exact Ha|].
    cbn [string_forall] in Hs. apply andb_true_iff in Hs. destruct Hs as [Hx Hs].
    cbn [decimal_value]. apply IH; [exact Hs|].
    assert (0 <= digit_value x).
    { unfold is_digit in Hx. unfold digit_value.
      apply andb_true_iff in Hx. destruct Hx as [Hx _].
      apply Nat.leb_le in Hx. lia. }
    lia. }
  pose proof (Hnn _ 0 H ltac:(lia)) as Hv. split; [exact Hv|].
  assert (Hstep : stoi (String c ds)
                  = let digits := fst (span is_digit (String c ds)) in
                    if str_empty digits then StoiInvalidArgument
                    else let v := decimal_value digits 0 in
                         if ((INT_MIN <=? v) && (v <=? INT_MAX))%bool
                         then StoiValue v else StoiOutOfRange).
  { cbn [string_forall] in H. apply andb_true_iff in H. destruct H as [Hc _].
    destruct c as [[] [] [] [] [] [] [] []]; try discriminate Hc; reflexivity. }
  rewrite Hstep. cbv zeta. rewrite (span_all _ _ H). cbn [fst str_empty].
  replace (INT_MIN <=? decimal_value (String c ds) 0) with true
    by (symmetry; apply Z.leb_le; unfold INT_MIN; lia).
  now rewrite andb_true_l.
Qed.

Lemma match_define_here_digits name s ds :
  match_define_here name s = Some ds ->
  exists c ds', ds = String c ds' /\ string_forall is_digit ds = true.
Proof.
  unfold match_define_here.
  destruct (strip_prefix "#define" s) as [s1|]; [|discriminate].
  destruct (span is_space s1) as [ws1 s2].
  destruct (str_empty ws1); [discriminate|].
  destruct s2 as [|c s3]; [discriminate|].
  destruct (Ascii.eqb c name); [|discriminate].
  destruct (span is_space s3) as [ws2 s4].
  destruct (str_empty ws2); [discriminate|].
  pose proof (span_forall is_digit s4) as F.
  destruct (fst (span is_digit s4)) as [|d ds'] eqn:E; [discriminate|].
  intros [= <-]. exists d, ds'. auto.
Qed.

Lemma regex_search_define_digits name line ds :
  regex_search_define name line = Some ds ->
  exists c ds', ds = String c ds' /\ string_forall is_digit ds = true.
Proof.
  induction line as [|c line IH]; cbn [regex_search_define].
  - destruct (match_define_here name "") eqn:E; [|discriminate].
    intros [= <-]. eapply match_define_here_digits; eauto.
  - destruct (match_define_here name (String c line)) eqn:E.
    + intros [= <-]. eapply match_define_here_digits; eauto.
    + exact IH.
Qed.

Lemma regex_search_skip name c rest :
  Ascii.eqb c "#" = false ->
  regex_search_define name (String c rest) = regex_search_define name rest.
Proof.
  intros H. cbn [regex_search_define].
  assert (E : match_define_here name (String c rest) = None).
  { unfold match_define_here. cbn [strip_prefix].
    rewrite Ascii.eqb_sym, H. reflexivity. }
  now rewrite E.
Qed.

Lemma regex_search_no_hash name line :
  no_hash line = true -> regex_search_define name line = None.
Proof.
  induction line as [|c line IH]; intros H; [reflexivity|].
  unfold no_hash in H. cbn [string_forall] in H.
  apply andb_true_iff in H. destruct H as [Hc H].
  rewrite regex_search_skip by (now apply negb_true_iff in Hc). now apply IH.
Qed.

(** The captured text of a match read by [std::stoi]: a value of
    [0, INT_MAX], or [std::out_of_range]. *)
Lemma stoi_captured name line ds :
  regex_search_define name line = Some ds ->
  (exists v, stoi ds = StoiValue v /\ 0 <= v <= INT_MAX)
  \/ stoi ds = StoiOutOfRange.
Proof.
  intros H. apply regex_search_define_digits in H.
  destruct H as (c & ds' & -> & F).
  destruct (stoi_digits c ds' F) as [Hv ->].
  destruct (Z.leb_spec (decimal_value (String c ds') 0) INT_MAX); [left | right; reflexivity].
  eexists. split; [reflexivity | lia].
Qed.

Lemma parse_line_range dims line :
  dims_in_int dims ->
  match parse_line dims line with
  | Returns d => dims_in_int d
  | Throws e => e = StoiOutOfRange
  end.
Proof.
  intros (HM & HN & HK). unfold parse_line.
  destruct (regex_search_define "M" line) as [t|] eqn:EM.
  { destruct (stoi_captured _ _ _ EM) as [(v & -> & Hv) | ->];
      [repeat split; cbn [M N K]; lia | reflexivity]. }
  destruct (regex_search_define "N" line) as [t|] eqn:EN.
  { destruct (stoi_captured _ _ _ EN) as [(v & -> & Hv) | ->];
      [repeat split; cbn [M N K]; lia | reflexivity]. }
  destruct (regex_search_define "K" line) as [t|] eqn:EK.
  { destruct (stoi_captured _ _ _ EK) as [(v & -> & Hv) | ->];
      [repeat split; cbn [M N K]; lia | reflexivity]. }
  exact (conj HM (conj HN HK)).
Qed.

Lemma parse_lines_range lines : forall dims,
  dims_in_int dims ->
  match parse_lines lines dims with
  | Returns d => dims_in_int d
  | Throws e => e = StoiOutOfRange
  end.
Proof.
  induction lines as [|line lines IH]; intros dims H; cbn [parse_lines]; [exact H|].
  pose proof (parse_line_range dims line H) as P.
  destruct (parse_line dims line); [now apply IH | exact P].
Qed.

(** X19.  Whatever the file, the basic parser returns dimensions between
    0 and INT_MAX: a dimension is the default 64 or a text of digits read
    by [std::stoi], so it is never negative, and the only value the
    driver's validation can reject is 0.  The only exception that can
    escape is [std::out_of_range], and a file that cannot be opened gives
    64, 64, 64. *)
Theorem parseMatrixMultiply_range (file : option (list string)) :
  match parseMatrixMultiply file with
  | Returns d =>
      0 <= d.(M) <= INT_MAX /\ 0 <= d.(N) <= INT_MAX /\ 0 <= d.(K) <= INT_MAX
  | Throws e => e = StoiOutOfRange
  end
  /\ parseMatrixMultiply None = Returns (mkDims 64 64 64).
Proof.
  split; [|reflexivity].
  assert (H0 : dims_in_int (mkDims 64 64 64))
    by (unfold dims_in_int, INT_MAX; cbn [M N K]; lia).
  destruct file as [lines|]; [|exact H0].
  exact (parse_lines_range lines _ H0).
Qed.

Lemma parse_lines_app l1 : forall l2 dims,
  parse_lines (l1 ++ l2) dims
  = match parse_lines l1 dims with
    | Returns d => parse_lines l2 d
    | Throws e => Throws e
    end.
Proof.
  induction l1 as [|x l1 IH]; intros l2 dims; [reflexivity|].
  cbn [app parse_lines]. destruct (parse_line dims x); [apply IH | reflexivity].
Qed.

Lemma parse_lines_no_hash lines : forall dims,
  Forall (fun l => no_hash l = true) lines -> parse_lines lines dims = Returns dims.
Proof.
  induction lines as [|x lines IH]; intros dims H; [reflexivity|].
  inversion H as [|? ? Hx Hl]; subst. cbn [parse_lines]. unfold parse_line.
  rewrite !regex_search_no_hash by assumption. now apply IH.
Qed.

Lemma no_hash_uint d : no_hash (NilEmpty.string_of_uint d) = true.
Proof. induction d; cbn; auto. Qed.

Lemma to_string_nonneg n :
  0 <= n ->
  exists d, d <> Decimal.Nil /\ to_string n = NilEmpty.string_of_uint d
            /\ uint_value d 0 = n.
Proof.
  intros H. destruct n as [|p|p]; [| |lia].
  - exists (Decimal.D0 Decimal.Nil). repeat split; congruence.
  - exists (Pos.to_uint p). split; [apply DecimalPos.Unsigned.to_uint_nonnil|].
    split; [apply to_string_pos | apply uint_value_to_uint].
Qed.

Lemma string_forall_uint d :
  string_forall is_digit (NilEmpty.string_of_uint d) = true.
Proof. induction d; cbn [NilEmpty.string_of_uint string_forall]; auto. Qed.

(** A match at the first character: #define, one space, the name, one
    space, a numeral. *)
Lemma match_define_here_line (name : ascii) d :
  d <> Decimal.Nil -> is_space name = false ->
  match_define_here name
    ("#define " ++ String name (" " ++ NilEmpty.string_of_uint d))
  = Some (NilEmpty.string_of_uint d).
Proof.
  intros Hd Hn. set (t := NilEmpty.string_of_uint d).
  assert (Hsp : span is_space t = (EmptyString, t))
    by (unfold t; destruct d; [congruence | reflexivity ..]).
  assert (Hdg : span is_digit t = (t, EmptyString))
    by (apply span_all, string_forall_uint).
  assert (Hne : str_empty t = false)
    by (unfold t; destruct d; [congruence | reflexivity ..]).
  unfold match_define_here. cbn [append strip_prefix Ascii.eqb Bool.eqb].
  cbn [span]. change (is_space " ") with true. cbv iota.
  rewrite Hn. cbn [str_empty]. rewrite Ascii.eqb_refl.
  cbn [span]. change (is_space " ") with true. cbv iota.
  rewrite Hsp. cbn [str_empty]. rewrite Hdg. cbn [fst]. now rewrite Hne.
Qed.

Lemma regex_search_step name c rest :
  regex_search_define name (String c rest)
  = match match_define_here name (String c rest) with
    | Some digits => Some digits
    | None => regex_search_define name rest
    end.
Proof. reflexivity. Qed.

(** No match for the name [name] on the line of another name. *)
Lemma regex_search_other_line (name other : ascii) d :
  Ascii.eqb other name = false -> Ascii.eqb other "#" = false ->
  is_space other = false ->
  regex_search_define name
    ("#define " ++ String other (" " ++ NilEmpty.string_of_uint d))
  = None.
Proof.
  intros Hneq Hh Hs. set (t := NilEmpty.string_of_uint d).
  assert (E0 : match_define_here name ("#define " ++ String other (" " ++ t)) = None).
  { unfold match_define_here. cbn [append strip_prefix Ascii.eqb Bool.eqb].
    cbn [span]. change (is_space " ") with true. cbv iota.
    rewrite Hs. cbn [str_empty]. now rewrite Hneq. }
  cbn [append] in *. rewrite regex_search_step, E0.
  do 7 (rewrite regex_search_skip by reflexivity).
  rewrite regex_search_skip by exact Hh.
  rewrite regex_search_skip by reflexivity.
  apply regex_search_no_hash, no_hash_uint.
Qed.

Lemma regex_search_own_line (name : ascii) d :
  d <> Decimal.Nil -> is_space name = false ->
  regex_search_define name
    ("#define " ++ String name (" " ++ NilEmpty.string_of_uint d))
  = Some (NilEmpty.string_of_uint d).
Proof.
  intros Hd Hn. pose proof (match_define_here_line name d Hd Hn) as E.
  cbn [append] in *. now rewrite regex_search_step, E.
Qed.

Lemma stoi_numeral d :
  d <> Decimal.Nil ->
  stoi (NilEmpty.string_of_uint d)
  = if uint_value d 0 <=? INT_MAX then StoiValue (uint_value d 0)
    else StoiOutOfRange.
Proof.
  intros Hd. rewrite <- (append_empty_r (NilEmpty.string_of_uint d)) at 1.
  now apply stoi_uint.
Qed.

(** The body of the parser's loop on a line that defines one dimension. *)
Lemma parse_line_define dims d :
  d <> Decimal.Nil ->
  let v := uint_value d 0 in
  parse_line dims ("#define M " ++ NilEmpty.string_of_uint d)
    = (if v <=? INT_MAX then Returns (mkDims v dims.(N) dims.(K))
       else Throws StoiOutOfRange)
  /\ parse_line dims ("#define N " ++ NilEmpty.string_of_uint d)
     = (if v <=? INT_MAX then Returns (mkDims dims.(M) v dims.(K))
        else Throws StoiOutOfRange)
  /\ parse_line dims ("#define K " ++ NilEmpty.string_of_uint d)
     = (if v <=? INT_MAX then Returns (mkDims dims.(M) dims.(N) v)
        else Throws StoiOutOfRange).
Proof.
  intros Hd v.
  pose proof (regex_search_own_line "M" d Hd eq_refl) as OM.
  pose proof (regex_search_own_line "N" d Hd eq_refl) as ON.
  pose proof (regex_search_own_line "K" d Hd eq_refl) as OK.
  pose proof (regex_search_other_line "M" "N" d eq_refl eq_refl eq_refl) as XMN.
  pose proof (regex_search_other_line "M" "K" d eq_refl eq_refl eq_refl) as XMK.
  pose proof (regex_search_other_line "N" "K" d eq_refl eq_refl eq_refl) as XNK.
  cbn [append] in *. unfold parse_line. cbn [append].
  rewrite OM, ON, OK, XMN, XMK, XNK, stoi_numeral by assumption. fold v.
  destruct (v <=? INT_MAX); repeat split.
Qed.

(** X20.  A file whose lines hold no # except three lines
    "#define M m", "#define N n", "#define K k", written with
    [std::to_string] for numbers of [0, INT_MAX] as the compiler test
    writes them, is parsed to exactly M = m, N = n, K = k. *)
Theorem parseMatrixMultiply_defines (pre post : list string) (m n k : Z)
    (Hpre : Forall (fun l => no_hash l = true) pre)
    (Hpost : Forall (fun l => no_hash l = true) post)
    (Hm : 0 <= m <= INT_MAX) (Hn : 0 <= n <= INT_MAX) (Hk : 0 <= k <= INT_MAX) :
  parseMatrixMultiply
    (Some (pre ++ [define_line "M" m; define_line "N" n; define_line "K" k]
           ++ post)%list)
  = Returns (mkDims m n k).
Proof.
  destruct (to_string_nonneg m ltac:(lia)) as (dm & Dm & Em & Vm).
  destruct (to_string_nonneg n ltac:(lia)) as (dn & Dn & En & Vn).
  destruct (to_string_nonneg k ltac:(lia)) as (dk & Dk & Ek & Vk).
  unfold parseMatrixMultiply, define_line. cbn [append].
  rewrite parse_lines_app, parse_lines_no_hash by assumption.
  rewrite parse_lines_app. cbn [parse_lines].
  rewrite Em, En, Ek.
  destruct (parse_line_define (mkDims 64 64 64) dm Dm) as (P1 & _ & _).
  cbn [append M N K] in P1. rewrite P1, Vm. replace (m <=? INT_MAX) with true by (symmetry; apply Z.leb_le; lia).
  cbv iota.
  destruct (parse_line_define (mkDims m 64 64) dn Dn) as (_ & P2 & _).
  cbn [append M N K] in P2. rewrite P2, Vn. replace (n <=? INT_MAX) with true by (symmetry; apply Z.leb_le; lia).
  cbv iota.
  destruct (parse_line_define (mkDims m n 64) dk Dk) as (_ & _ & P3).
  cbn [append M N K] in P3. rewrite P3, Vk. replace (k <=? INT_MAX) with true by (symmetry; apply Z.leb_le; lia).
  cbv iota.
  cbn [M N K]. now apply parse_lines_no_hash.
Qed.

Lemma parseMatrixMultiply_defines_witness :
  parseMatrixMultiply
    (Some [ "// Matrix multiplication test"; "#define M 4"; "#define N 3";
            "#define K 2"; ""; "void matrix_multiply(int* A, int* B, int* C) {" ])
  = Returns (mkDims 4 3 2).
Proof.
  apply (parseMatrixMultiply_defines ["// Matrix multiplication test"]
           [""; "void matrix_multiply(int* A, int* B, int* C) {"] 4 3 2).
  - repeat constructor.
  - repeat constructor.
  - unfold INT_MAX; lia.
  - unfold INT_MAX; lia.
  - unfold INT_MAX; lia.
Defined.

(** X21.  A later definition replaces an earlier one, and a numeral above
    INT_MAX ends the parser with [std::out_of_range]: when the lines read
    so far give the dimensions d, one more line "#define M m" gives m
    with the N and K of d for 0 <= m <= INT_MAX, and makes [std::stoi]
    throw for m > INT_MAX. *)
Theorem parseMatrixMultiply_last_define (lines : list string)
    (d : MatrixDimensions) (m : Z)
    (Hd : parseMatrixMultiply (Some lines) = Returns d) (Hm : 0 <= m) :
  parseMatrixMultiply (Some (lines ++ [define_line "M" m])%list)
  = if m <=? INT_MAX then Returns (mkDims m d.(N) d.(K))
    else Throws StoiOutOfRange.
Proof.
  destruct (to_string_nonneg m Hm) as (dm & Dm & Em & Vm).
  unfold parseMatrixMultiply in *. rewrite parse_lines_app, Hd.
  unfold define_line. cbn [append parse_lines]. rewrite Em.
  destruct (parse_line_define d dm Dm) as (P1 & _ & _).
  cbn [append] in P1. rewrite P1, Vm.
  destruct (m <=? INT_MAX); reflexivity.
Qed.

Lemma parseMatrixMultiply_last_define_witness :
  parseMatrixMultiply (Some ["#define M 4"; "#define K 2"; "#define M 9"])
  = Returns (mkDims 9 64 2)
  /\ parseMatrixMultiply (Some ["#define K 2"; "#define M 2147483648"])
     = Throws StoiOutOfRange.
Proof.
  split.
  - exact (parseMatrixMultiply_last_define ["#define M 4"; "#define K 2"]
             (mkDims 4 64 2) 9 eq_refl ltac:(lia)).
  - exact (parseMatrixMultiply_last_define ["#define K 2"]
             (mkDims 64 64 2) 2147483648 eq_refl ltac:(lia)).
Defined.

(* ================================================================== *)
(** * Further properties: the command line *)

Lemma stoi_to_string_int n :
  INT_MIN <= n <= INT_MAX -> stoi (to_string n) = StoiValue n.
Proof.
  intros H. destruct n as [|p|p].
  - reflexivity.
  - rewrite to_string_pos, stoi_numeral, uint_value_to_uint
      by apply DecimalPos.Unsigned.to_uint_nonnil.
    now replace (Z.pos p <=? INT_MAX) with true by (symmetry; apply Z.leb_le; lia).
  - rewrite to_string_neg.
    rewrite <- (append_empty_r (NilEmpty.string_of_uint (Pos.to_uint p))).
    rewrite stoi_neg_uint, uint_value_to_uint
      by (apply DecimalPos.Unsigned.to_uint_nonnil || reflexivity).
    change (- Z.pos p) with (Z.neg p).
    now replace (INT_MIN <=? Z.neg p) with true by (symmetry; apply Z.leb_le; lia).
Qed.

Lemma args_outcome_ok_incl l l' x :
  (forall s, In s l -> In s l') -> args_outcome_ok l x -> args_outcome_ok l' x.
Proof.
  intros Hi. destruct x as [code cerr|e|o]; cbn [args_outcome_ok]; auto.
  intros [(-> & -> & [H | H]) | H]; [left | left | right; exact H];
    (split; [reflexivity|]; split; [reflexivity|]); [left | right]; now apply Hi.
Qed.

Ltac args_rec IH :=
  eapply args_outcome_ok_incl; [|apply IH; cbn [List.length] in *; lia];
  intros s Hs; cbn [In]; tauto.

Ltac args_int IH value :=
  unfold with_int; destruct (stoi value);
  [args_rec IH | left; reflexivity | right; reflexivity].

(** The outcomes of the loop over the arguments, by induction on the
    number of arguments left. *)
Lemma parse_args_outcomes_n n : forall args o,
  (List.length args <= n)%nat -> args_outcome_ok args (parse_args args o).
Proof.
  induction n as [|n IH]; intros args o Hlen.
  - destruct args; [|cbn [List.length] in Hlen; lia].
    cbn [parse_args]. destruct (str_empty (opt_inputFile o)) eqn:E; cbn [args_outcome_ok].
    + right. split; [reflexivity | eexists; reflexivity].
    + exact E.
  - destruct args as [|arg rest].
    { cbn [parse_args]. destruct (str_empty (opt_inputFile o)) eqn:E; cbn [args_outcome_ok].
      + right. split; [reflexivity | eexists; reflexivity].
      + exact E. }
    cbn [parse_args].
    destruct (String.eqb arg "-h" || String.eqb arg "--help")%bool eqn:Eh.
    { cbn [args_outcome_ok]. left. split; [reflexivity|]. split; [reflexivity|].
      apply orb_true_iff in Eh. destruct Eh as [Eh | Eh]; apply String.eqb_eq in Eh;
        subst arg; cbn [In]; tauto. }
    cbv zeta.
    assert (Hpos : args_outcome_ok (arg :: rest)
                     (if str_empty (opt_inputFile o)
                      then parse_args rest
                             (mkOptions arg (opt_outputFile o) (opt_numCores o)
                                (opt_overrideM o) (opt_overrideN o)
                                (opt_overrideK o) (opt_parserType o))
                      else ArgsReturn 1 ["Unknown argument: " ++ arg])).
    { destruct (str_empty (opt_inputFile o)).
      - args_rec IH.
      - cbn [args_outcome_ok]. right. split; [reflexivity | eexists; reflexivity]. }
    destruct rest as [|value rest']; [exact Hpos|].
    destruct (String.eqb arg "-o"); [args_rec IH|].
    destruct (String.eqb arg "-M"); [args_int IH value|].
    destruct (String.eqb arg "-N"); [args_int IH value|].
    destruct (String.eqb arg "-K"); [args_int IH value|].
    destruct (String.eqb arg "-c"); [args_int IH value|].
    destruct (String.eqb arg "-p"); [args_int IH value|].
    exact Hpos.
Qed.

(** X22.  However the command line looks, the part of [main] that reads
    it ends in one of these ways: the run goes on, and then an input file
    name was given; [main] returns 0 with nothing on [std::cerr], and
    then -h or --help is among the arguments; [main] returns 1 with one
    error line; or [std::stoi] throws [std::invalid_argument] or
    [std::out_of_range] on the value of an integer option. *)
Theorem parse_args_outcomes (args : list string) :
  match parse_args args default_options with
  | ArgsGoOn o => str_empty o.(opt_inputFile) = false
  | ArgsReturn code cerr =>
      (code = 0 /\ cerr = [] /\ (In "-h" args \/ In "--help" args))
      \/ (code = 1 /\ exists line, cerr = [line])
  | ArgsThrow e => e = StoiInvalidArgument \/ e = StoiOutOfRange
  end.
Proof.
  pose proof (parse_args_outcomes_n (List.length args) args default_options
                (Nat.le_refl _)) as H.
  unfold args_outcome_ok in H. exact H.
Qed.

Lemma is_flag_false arg :
  is_flag arg = false ->
  String.eqb arg "-h" = false /\ String.eqb arg "--help" = false
  /\ String.eqb arg "-o" = false /\ String.eqb arg "-M" = false
  /\ String.eqb arg "-N" = false /\ String.eqb arg "-K" = false
  /\ String.eqb arg "-c" = false /\ String.eqb arg "-p" = false.
Proof.
  unfold is_flag. cbn [existsb]. rewrite !orb_false_iff. tauto.
Qed.

(** One step of the loop, for each kind of argument. *)
Lemma parse_args_positional arg rest o :
  is_flag arg = false -> str_empty o.(opt_inputFile) = true ->
  parse_args (arg :: rest) o
  = parse_args rest
      (mkOptions arg o.(opt_outputFile) o.(opt_numCores) o.(opt_overrideM)
         o.(opt_overrideN) o.(opt_overrideK) o.(opt_parserType)).
Proof.
  intros Hf He.
  destruct (is_flag_false arg Hf) as (F1 & F2 & F3 & F4 & F5 & F6 & F7 & F8).
  destruct rest as [|value rest']; cbn [parse_args];
    rewrite F1, F2, ?F3, ?F4, ?F5, ?F6, ?F7, ?F8, He; reflexivity.
Qed.

Lemma parse_args_output value rest o :
  parse_args ("-o" :: value :: rest) o
  = parse_args rest
      (mkOptions o.(opt_inputFile) value o.(opt_numCores) o.(opt_overrideM)
         o.(opt_overrideN) o.(opt_overrideK) o.(opt_parserType)).
Proof. reflexivity. Qed.

Lemma parse_args_M value rest o :
  parse_args ("-M" :: value :: rest) o
  = with_int value (fun v =>
      parse_args rest
        (mkOptions o.(opt_inputFile) o.(opt_outputFile) o.(opt_numCores) v
           o.(opt_overrideN) o.(opt_overrideK) o.(opt_parserType))).
Proof. reflexivity. Qed.

Lemma parse_args_N value rest o :
  parse_args ("-N" :: value :: rest) o
  = with_int value (fun v =>
      parse_args rest
        (mkOptions o.(opt_inputFile) o.(opt_outputFile) o.(opt_numCores)
           o.(opt_overrideM) v o.(opt_overrideK) o.(opt_parserType))).
Proof. reflexivity. Qed.

Lemma parse_args_K value rest o :
  parse_args ("-K" :: value :: rest) o
  = with_int value (fun v =>
      parse_args rest
        (mkOptions o.(opt_inputFile) o.(opt_outputFile) o.(opt_numCores)
           o.(opt_overrideM) o.(opt_overrideN) v o.(opt_parserType))).
Proof. reflexivity. Qed.

Lemma parse_args_c value rest o :
  parse_args ("-c" :: value :: rest) o
  = with_int value (fun v =>
      parse_args rest
        (mkOptions o.(opt_inputFile) o.(opt_outputFile) v o.(opt_overrideM)
           o.(opt_overrideN) o.(opt_overrideK) o.(opt_parserType))).
Proof. reflexivity. Qed.

Lemma parse_args_p value rest o :
  parse_args ("-p" :: value :: rest) o
  = with_int value (fun v =>
      parse_args rest
        (mkOptions o.(opt_inputFile) o.(opt_outputFile) o.(opt_numCores)
           o.(opt_overrideM) o.(opt_overrideN) o.(opt_overrideK) v)).
Proof. reflexivity. Qed.

Lemma with_int_to_string n k :
  INT_MIN <= n <= INT_MAX -> with_int (to_string n) k = k n.
Proof. intros H. unfold with_int. now rewrite stoi_to_string_int. Qed.

(** X23.  A complete command line is read back field by field: for an
    input file name that is not empty and is none of the options, any
    output file name (even one that looks like an option) and integers
    written with [std::to_string], the loop ends with exactly these
    values. *)
Theorem parse_args_command_line (file out : string) (m n k c p : Z)
    (Hfile : str_empty file = false) (Hflag : is_flag file = false)
    (Hm : INT_MIN <= m <= INT_MAX) (Hn : INT_MIN <= n <= INT_MAX)
    (Hk : INT_MIN <= k <= INT_MAX) (Hc : INT_MIN <= c <= INT_MAX)
    (Hp : INT_MIN <= p <= INT_MAX) :
  parse_args
    [ file; "-o"; out; "-M"; to_string m; "-N"; to_string n;
      "-K"; to_string k; "-c"; to_string c; "-p"; to_string p ]
    default_options
  = ArgsGoOn
      {| opt_inputFile := file; opt_outputFile := out; opt_numCores := c;
         opt_overrideM := m; opt_overrideN := n; opt_overrideK := k;
         opt_parserType := p |}.
Proof.
  rewrite parse_args_positional by (assumption || reflexivity).
  rewrite parse_args_output.
  rewrite parse_args_M, with_int_to_string by assumption.
  rewrite parse_args_N, with_int_to_string by assumption.
  rewrite parse_args_K, with_int_to_string by assumption.
  rewrite parse_args_c, with_int_to_string by assumption.
  rewrite parse_args_p, with_int_to_string by assumption.
  cbn [parse_args default_options opt_inputFile opt_outputFile opt_numCores
       opt_overrideM opt_overrideN opt_overrideK opt_parserType].
  now rewrite Hfile.
Qed.

Lemma parse_args_command_line_witness :
  parse_args
    [ "in.cpp"; "-o"; "-h"; "-M"; "4"; "-N"; "3"; "-K"; "2"; "-c"; "-2";
      "-p"; "0" ]
    default_options
  = ArgsGoOn
      {| opt_inputFile := "in.cpp"; opt_outputFile := "-h"; opt_numCores := -2;
         opt_overrideM := 4; opt_overrideN := 3; opt_overrideK := 2;
         opt_parserType := 0 |}.
Proof.
  apply (parse_args_command_line "in.cpp" "-h" 4 3 2 (-2) 0);
    try reflexivity; unfold INT_MIN, INT_MAX; lia.
Defined.
